(** * TenchuWoH_DeCompressor: LZSS block decoder, validator and container scanner

    A shallow embedding of [src/TenchuWoH_DeCompressor.cpp].

    Conventions.
    - [size_t] is the 64-bit unsigned type of an LP64/LLP64 target: a value of
      type [Z] in [0, 2^64), every addition and subtraction wrapped by
      [wrap64].  [uint32_t] and [uint16_t] values are the little-endian words
      loaded from the buffer, [int] values are the small numbers computed from
      a 16-bit pair code.
    - A [std::vector<uint8_t>] is a [list byte]; its [size()] is [vec_size].
      A vector cannot hold more than [max_size] elements.
    - A read through a raw pointer ([data[i]], [*reinterpret_cast<...>(data + i)])
      is a [load]: it yields [None] when one of the bytes it touches lies
      outside the vector, and the function that performs it then ends in
      [OutOfBounds].
    - [while (true)] loops run on fuel; the fuel handed to them by the three
      functions is shown to be sufficient, so [Timeout] is never observed. *)

From Stdlib Require Import ZArith List Lia Bool.
From Stdlib Require Import Strings.Byte.
From Stdlib Require Import Sorting.Permutation.
From Stdlib Require Import DecimalString HexadecimalString DecimalN HexadecimalN.
From Stdlib Require String Ascii.
Import String.StringSyntax Ascii.AsciiSyntax.
Delimit Scope string_scope with string.
Delimit Scope char_scope with char.
Import ListNotations.
Local Open Scope Z_scope.

(** ** Machine integers and vectors *)

Definition wrap64 (z : Z) : Z := z mod 2 ^ 64.

Definition max_size : Z := 2 ^ 63 - 1.

Definition byte_val (b : byte) : Z := Z.of_N (Byte.to_N b).

Definition vec_size (v : list byte) : Z := Z.of_nat (length v).

Definition load8 (v : list byte) (i : Z) : option byte :=
  if (0 <=? i) && (i <? vec_size v) then nth_error v (Z.to_nat i) else None.

(** [*reinterpret_cast<const uint16_t*>(p)] on a little-endian machine. *)
Definition load16 (v : list byte) (i : Z) : option Z :=
  match load8 v i, load8 v (i + 1) with
  | Some b0, Some b1 => Some (byte_val b0 + 2 ^ 8 * byte_val b1)
  | _, _ => None
  end.

(** [*reinterpret_cast<const uint32_t*>(p)] on a little-endian machine. *)
Definition load32 (v : list byte) (i : Z) : option Z :=
  match load8 v i, load8 v (i + 1), load8 v (i + 2), load8 v (i + 3) with
  | Some b0, Some b1, Some b2, Some b3 =>
      Some (byte_val b0 + 2 ^ 8 * byte_val b1
            + 2 ^ 16 * byte_val b2 + 2 ^ 24 * byte_val b3)
  | _, _, _, _ => None
  end.

(** [std::vector<uint8_t>(v.begin() + first, v.begin() + last)]. *)
Definition slice (v : list byte) (first last : Z) : list byte :=
  firstn (Z.to_nat (last - first)) (skipn (Z.to_nat first) v).

(** Bytes of a test vector, written as numbers. *)
Definition bytes (l : list Z) : list byte :=
  map (fun z => match Byte.of_N (Z.to_N z) with Some b => b | None => x00 end) l.

(** ** Control flow *)

(** What one pass through a loop body does. *)
Inductive flow (S R : Type) : Type :=
| Continue (s : S)      (* reaches the end of the body *)
| Exit (r : R)          (* break, return or throw *)
| Fault.                (* a load outside the vector *)
Arguments Continue {S R} s.
Arguments Exit {S R} r.
Arguments Fault {S R}.

(** What a whole function does. *)
Inductive outcome (R : Type) : Type :=
| Finished (r : R)
| OutOfBounds
| Timeout.
Arguments Finished {R} r.
Arguments OutOfBounds {R}.
Arguments Timeout {R}.

Fixpoint while_true {S R : Type} (body : S -> flow S R) (fuel : nat) (s : S)
  : outcome R :=
  match fuel with
  | O => Timeout
  | Datatypes.S fuel' =>
      match body s with
      | Continue s' => while_true body fuel' s'
      | Exit r => Finished r
      | Fault => OutOfBounds
      end
  end.

Notation "'fetch' x <- e ; k" :=
  (match e with Some x => k | None => Fault end)
  (at level 10, x name, e at level 99, k at level 200, only parsing).

(** ** The locals shared by the decoder and the validator

    Both functions declare the same cursors, dictionary and flag registers
    (lines 67-78 and 155-164). *)

Record cursors : Type := mkCursors {
  flags_pos : Z;            (* size_t *)
  lit_pos : Z;              (* size_t *)
  pair_pos : Z;             (* size_t *)
  dict_buf : list byte;     (* std::vector<uint8_t>(4096, 0) *)
  dict_index : Z;           (* size_t *)
  flag_word : Z;            (* uint32_t *)
  mask : Z                  (* uint32_t *)
}.

Definition initial_cursors (off_literals off_pairs : Z) : cursors :=
  {| flags_pos := 8; lit_pos := off_literals; pair_pos := off_pairs;
     dict_buf := repeat x00 4096; dict_index := 1;
     flag_word := 0; mask := 0 |}.

(** [flag_word = *(uint32_t* )(data + flags_pos); flags_pos += 4;] with
    [mask = 0x80000000] already assigned. *)
Definition reloaded (c : cursors) (w : Z) : cursors :=
  {| flags_pos := wrap64 (flags_pos c + 4); lit_pos := lit_pos c;
     pair_pos := pair_pos c; dict_buf := dict_buf c;
     dict_index := dict_index c; flag_word := w; mask := 0x80000000 |}.

(** [bool bit_set = (flag_word & mask) != 0;] *)
Definition bit_set (c : cursors) : bool :=
  negb (Z.land (flag_word c) (mask c) =? 0).

(** [mask >>= 1;] *)
Definition shift_mask (c : cursors) : cursors :=
  {| flags_pos := flags_pos c; lit_pos := lit_pos c; pair_pos := pair_pos c;
     dict_buf := dict_buf c; dict_index := dict_index c;
     flag_word := flag_word c; mask := Z.shiftr (mask c) 1 |}.

(** [lit_pos++] *)
Definition next_literal (c : cursors) : cursors :=
  {| flags_pos := flags_pos c; lit_pos := wrap64 (lit_pos c + 1);
     pair_pos := pair_pos c; dict_buf := dict_buf c;
     dict_index := dict_index c; flag_word := flag_word c; mask := mask c |}.

(** [pair_pos += 2;] *)
Definition next_pair (c : cursors) : cursors :=
  {| flags_pos := flags_pos c; lit_pos := lit_pos c;
     pair_pos := wrap64 (pair_pos c + 2); dict_buf := dict_buf c;
     dict_index := dict_index c; flag_word := flag_word c; mask := mask c |}.

(** [v[i] = b] on a vector, for an index inside it. *)
Fixpoint vec_set (v : list byte) (i : nat) (b : byte) : list byte :=
  match v, i with
  | [], _ => []
  | _ :: v', O => b :: v'
  | x :: v', Datatypes.S i' => x :: vec_set v' i' b
  end.

(** [dict_buf[i]] *)
Definition dict_get (c : cursors) (i : Z) : byte :=
  nth (Z.to_nat i) (dict_buf c) x00.

(** [dict_buf[dict_index] = b; dict_index = (dict_index + 1) & 0xFFF;] *)
Definition dict_put (c : cursors) (b : byte) : cursors :=
  {| flags_pos := flags_pos c; lit_pos := lit_pos c; pair_pos := pair_pos c;
     dict_buf := vec_set (dict_buf c) (Z.to_nat (dict_index c)) b;
     dict_index := Z.land (wrap64 (dict_index c + 1)) 0xFFF;
     flag_word := flag_word c; mask := mask c |}.

(** ** Function 1: the decoder, [decompressLZSSBlock] (lines 54-127) *)

(** The four [std::runtime_error]s the decoder throws. *)
Inductive MalformedBlock : Type :=
| BlockTooSmall        (* line 56 *)
| InvalidOffsets       (* line 64 *)
| LiteralsExhausted    (* line 98 *)
| PairsExhausted.      (* line 107 *)

(** How a call of the decoder ends: [return out], together with whether the
    warning of line 86 was written to [std::cerr], or a throw. *)
Inductive decoded : Type :=
| Returned (out : list byte) (warned : bool)
| Thrown (e : MalformedBlock).

(** The decoder's loop state: the shared locals and [out]. *)
Definition dstate : Type := (cursors * list byte)%type.

(** Lines 118-123: [for (int i = 0; i < length; i++) { ... }], entered with
    [n] iterations left. *)
Fixpoint decoder_copy (n : nat) (i offset : Z) (s : dstate) : dstate :=
  match n with
  | O => s
  | Datatypes.S n' =>
      let '(c, out) := s in
      let b := dict_get c (Z.land (offset + i) 0xFFF) in
      decoder_copy n' (i + 1) offset (dict_put c b, out ++ [b])
  end.

(** Lines 81-124: one pass through the body of [while (true)]. *)
Definition decoder_body (block : list byte) (off_literals off_pairs : Z)
    (s : dstate) : flow dstate decoded :=
  let '(c, out) := s in
  let after_reload : flow cursors decoded :=
    if mask c =? 0 then
      if wrap64 (flags_pos c + 4) >? off_literals then
        Exit (Returned out (flags_pos c <? off_literals))
      else
        fetch w <- load32 block (flags_pos c);
        Continue (reloaded c w)
    else Continue c in
  match after_reload with
  | Exit r => Exit r
  | Fault => Fault
  | Continue c =>
      let bit := bit_set c in
      let c := shift_mask c in
      if bit then
        if lit_pos c >=? off_pairs then Exit (Thrown LiteralsExhausted)
        else
          fetch literal <- load8 block (lit_pos c);
          Continue (dict_put (next_literal c) literal, out ++ [literal])
      else
        if wrap64 (pair_pos c + 2) >? vec_size block then
          Exit (Thrown PairsExhausted)
        else
          fetch pair_val <- load16 block (pair_pos c);
          let c := next_pair c in
          let offset := Z.shiftr pair_val 4 in
          if offset =? 0 then Exit (Returned out false)
          else
            let length := Z.land pair_val 0xF + 2 in
            Continue (decoder_copy (Z.to_nat length) 0 offset (c, out))
  end.

(** Enough fuel for a flag stream of [off_literals - 8] bytes: one pass per
    flag bit and one more to leave the loop. *)
Definition flag_fuel (off_literals : Z) : nat :=
  Z.to_nat (8 * off_literals + 1).

Definition decompressLZSSBlock (block : list byte) : outcome decoded :=
  if vec_size block <? 12 then Finished (Thrown BlockTooSmall)
  else
    match load32 block 0, load32 block 4 with
    | Some off_literals, Some off_pairs =>
        if (off_literals >=? vec_size block) || (off_pairs >=? vec_size block)
           || (off_literals <? 8)
        then Finished (Thrown InvalidOffsets)
        else
          while_true (decoder_body block off_literals off_pairs)
            (flag_fuel off_literals)
            (initial_cursors off_literals off_pairs, [])
    | _, _ => OutOfBounds
    end.

(** ** Function 2: the validator, [validateAndGetConsumedSize] (lines 136-217) *)

Module DecompressValidationResult.
Record t : Type := mk {
  success : bool;
  consumedBytes : Z;        (* size_t *)
  decompressedSize : Z      (* size_t *)
}.
End DecompressValidationResult.
Abbreviation DVR := DecompressValidationResult.mk.

(** The validator's loop state: the shared locals and [decompressedSize]. *)
Definition vstate : Type := (cursors * Z)%type.

(** Lines 201-206: the copy loop, counting instead of emitting. *)
Fixpoint validator_copy (n : nat) (i offset : Z) (s : vstate) : vstate :=
  match n with
  | O => s
  | Datatypes.S n' =>
      let '(c, decompressedSize) := s in
      let b := dict_get c (Z.land (offset + i) 0xFFF) in
      validator_copy n' (i + 1) offset
        (dict_put c b, wrap64 (decompressedSize + 1))
  end.

(** Lines 168-207: one pass through the body of [while (true)].  [data] is
    [fileBuffer.data() + startOffset], so [data + k] is index
    [startOffset + k] of [fileBuffer].  A [break] leaves with [None] (the
    function then returns [{false, 0, 0}] at line 216), the [return] of line
    197 with [Some]. *)
Definition validator_body (fileBuffer : list byte) (startOffset : Z)
    (remainingSize off_literals off_pairs : Z) (s : vstate)
  : flow vstate (option DecompressValidationResult.t) :=
  let '(c, decompressedSize) := s in
  let after_reload : flow cursors (option DecompressValidationResult.t) :=
    if mask c =? 0 then
      if wrap64 (flags_pos c + 4) >? off_literals then Exit None
      else
        fetch w <- load32 fileBuffer (startOffset + flags_pos c);
        Continue (reloaded c w)
    else Continue c in
  match after_reload with
  | Exit r => Exit r
  | Fault => Fault
  | Continue c =>
      let bit := bit_set c in
      let c := shift_mask c in
      if bit then
        if lit_pos c >=? off_pairs then Exit None
        else
          fetch literal <- load8 fileBuffer (startOffset + lit_pos c);
          Continue (dict_put (next_literal c) literal,
                    wrap64 (decompressedSize + 1))
      else
        if wrap64 (pair_pos c + 2) >? remainingSize then Exit None
        else
          fetch pair_val <- load16 fileBuffer (startOffset + pair_pos c);
          let c := next_pair c in
          let offset := Z.shiftr pair_val 4 in
          if offset =? 0 then
            let consumed := pair_pos c in
            Exit (Some (DVR true consumed decompressedSize))
          else
            let length := Z.land pair_val 0xF + 2 in
            Continue (validator_copy (Z.to_nat length) 0 offset
                        (c, decompressedSize))
  end.

(** Lines 149-151. *)
Definition header_sane (off_literals off_pairs remainingSize : Z) : bool :=
  (8 <=? off_literals) && (off_literals <=? remainingSize)
  && (8 <=? off_pairs) && (off_pairs <=? remainingSize)
  && (off_pairs >=? off_literals).

Definition validateAndGetConsumedSize (fileBuffer : list byte) (startOffset : Z)
  : outcome DecompressValidationResult.t :=
  if wrap64 (startOffset + 12) >? vec_size fileBuffer then
    Finished (DVR false 0 0)
  else
    let remainingSize := wrap64 (vec_size fileBuffer - startOffset) in
    match load32 fileBuffer (startOffset + 0),
          load32 fileBuffer (startOffset + 4) with
    | Some off_literals, Some off_pairs =>
        if negb (header_sane off_literals off_pairs remainingSize) then
          Finished (DVR false 0 0)
        else
          match while_true
                  (validator_body fileBuffer startOffset remainingSize
                     off_literals off_pairs)
                  (flag_fuel off_literals)
                  (initial_cursors off_literals off_pairs, 0) with
          | Finished (Some r) => Finished r
          | Finished None => Finished (DVR false 0 0)
          | OutOfBounds => OutOfBounds
          | Timeout => Timeout
          end
    | _, _ => OutOfBounds
    end.

(** ** Function 3: the scanner, [scanContainer] (lines 221-272) *)

Module ScanResult.
Record t : Type := mk {
  offset : Z;               (* size_t *)
  consumedSize : Z;         (* size_t *)
  decompressedSize : Z      (* size_t *)
}.

(** [bool operator<(const ScanResult& other) const] *)
Definition lt (a b : t) : bool :=
  if negb (offset a =? offset b) then offset a <? offset b
  else consumedSize a >? consumedSize b.
End ScanResult.

(** Lines 227-242: the candidate loop, [for (size_t off = 0; off <= n - 12;
    off += 4)], as [while (true)] with the test first and the increment
    last.  Its state is [off] and [results]. *)
Definition candidate_body (fileBuffer : list byte)
    (s : Z * list ScanResult.t)
  : flow (Z * list ScanResult.t) (outcome (list ScanResult.t)) :=
  let '(off, results) := s in
  let n := vec_size fileBuffer in
  if negb (off <=? wrap64 (n - 12)) then Exit (Finished results)
  else
    fetch ol <- load32 fileBuffer (off + 0);
    fetch orf <- load32 fileBuffer (off + 4);
    let rem := wrap64 (n - off) in
    if (8 <=? ol) && (ol <=? rem) && (8 <=? orf) && (orf <=? rem)
       && (orf >=? ol) then
      match validateAndGetConsumedSize fileBuffer off with
      | Finished res =>
          if DecompressValidationResult.success res
             && (DecompressValidationResult.consumedBytes res >? 0) then
            Continue
              (wrap64 (off + 4),
               results ++
                 [ScanResult.mk off
                    (DecompressValidationResult.consumedBytes res)
                    (DecompressValidationResult.decompressedSize res)])
          else Continue (wrap64 (off + 4), results)
      | OutOfBounds => Exit OutOfBounds
      | Timeout => Exit Timeout
      end
    else Continue (wrap64 (off + 4), results).

(** [std::sort(results.begin(), results.end())] leaves [results] ordered by
    [operator<]; it is modelled by insertion into an ordered list.  The
    candidates have pairwise different offsets, so that order is unique. *)
Fixpoint sort_insert (r : ScanResult.t) (l : list ScanResult.t)
  : list ScanResult.t :=
  match l with
  | [] => [r]
  | x :: l' => if ScanResult.lt x r then x :: sort_insert r l' else r :: l
  end.

Definition sort (l : list ScanResult.t) : list ScanResult.t :=
  fold_right sort_insert [] l.

(** Lines 256-262: does [[off, end)] meet one of the kept ranges? *)
Definition overlaps_kept (off end_ : Z) (keptRanges : list (Z * Z)) : bool :=
  existsb (fun k => negb ((end_ <=? fst k) || (off >=? snd k))) keptRanges.

(** Lines 251-268: one pass of the deduplication loop over [r]. *)
Definition dedup_step (st : list (Z * Z) * list ScanResult.t)
    (r : ScanResult.t) : list (Z * Z) * list ScanResult.t :=
  let '(keptRanges, finalResults) := st in
  let off := ScanResult.offset r in
  let end_ := wrap64 (ScanResult.offset r + ScanResult.consumedSize r) in
  if negb (overlaps_kept off end_ keptRanges) then
    (keptRanges ++ [(off, end_)], finalResults ++ [r])
  else (keptRanges, finalResults).

Definition deduplicate (results : list ScanResult.t) : list ScanResult.t :=
  snd (fold_left dedup_step results ([], [])).

(** One pass of the candidate loop for each offset [0, 4, 8, ...] up to the
    size of the buffer, and one to leave it. *)
Definition scan_fuel (n : Z) : nat := Z.to_nat (n / 4 + 2).

Definition scanContainer (fileBuffer : list byte)
  : outcome (list ScanResult.t) :=
  let n := vec_size fileBuffer in
  match while_true (candidate_body fileBuffer) (scan_fuel n) (0, []) with
  | Finished (Finished results) => Finished (deduplicate (sort results))
  | Finished OutOfBounds => OutOfBounds
  | Finished Timeout => Timeout
  | OutOfBounds => OutOfBounds
  | Timeout => Timeout
  end.

(** ** Test vectors *)

(** Header [off_literals = 12], [off_pairs = 12]; one flag word, all bits
    clear; the pair [0x0000]. *)
Definition empty_block : list byte :=
  bytes [12;0;0;0; 12;0;0;0; 0;0;0;0; 0;0].

(** Header [off_literals = 12], [off_pairs = 13]; flag word [0x80000000]
    (literal, then references); the literal [0xAB]; the pair [0x0011]
    (offset 1, length 3); the pair [0x0000]. *)
Definition sample_block : list byte :=
  bytes [12;0;0;0; 13;0;0;0; 0;0;0;0x80; 0xAB; 0x11;0; 0;0].

(** One pass of the decoder on [sample_block]: the first pass from the
    initial state is the literal, the second the reference. *)
Definition sample_pass (s : dstate) : dstate :=
  match decoder_body sample_block 12 13 s with
  | Continue s' => s'
  | _ => s
  end.

(** The decoder's state on [sample_block] after the literal pass, and after
    the reference pass that follows it. *)
Definition sample_after_literal : dstate :=
  sample_pass (initial_cursors 12 13, []).

Definition sample_after_copy : dstate := sample_pass sample_after_literal.

(** [sample_block], three bytes of padding, [empty_block]. *)
Definition two_blocks : list byte :=
  sample_block ++ bytes [0;0;0] ++ empty_block.

(** Header [off_literals = 12], [off_pairs = 12]; flag word [0x80000000]: the
    first bit asks for a literal, and the literal stream is empty. *)
Definition starved_block : list byte :=
  bytes [12;0;0;0; 12;0;0;0; 0;0;0;0x80; 0;0].

(** Header [off_literals = 10], [off_pairs = 10]: two bytes of flag stream,
    less than a flag word. *)
Definition flagless_block : list byte :=
  bytes [10;0;0;0; 10;0;0;0; 0;0;0;0].

(** ** Runs of a loop *)

(** [steps body s s']: from [s], zero or more complete passes through [body]
    lead to [s']. *)
Inductive steps {S R : Type} (body : S -> flow S R) : S -> S -> Prop :=
| steps_here : forall s, steps body s s
| steps_next : forall s s' s'',
    body s = Continue s' -> steps body s' s'' -> steps body s s''.

(** ** The state machine common to the decoder and the validator

    One pass through either loop body moves the shared locals in the same
    way; the two functions differ in what they do with the bytes produced and
    in how they leave.  [machine] is that common part, read off the two
    bodies ([decoder_body_machine] and [validator_body_machine] below relate
    it to each of them).  [data + k] is index [base + k] of [buf], and [limit]
    is [block.size()] for the decoder and [remainingSize] for the
    validator. *)

Inductive halt : Type :=
| FlagsEnd                      (* lines 83-88 and 170 *)
| LiteralsEnd                   (* lines 97-99 and 180 *)
| PairsEnd                      (* lines 106-108 and 188 *)
| Terminator (c : cursors).     (* lines 113-115 and 194-198 *)

Fixpoint copy_bytes (n : nat) (i offset : Z) (c : cursors)
  : cursors * list byte :=
  match n with
  | O => (c, [])
  | Datatypes.S n' =>
      let b := dict_get c (Z.land (offset + i) 0xFFF) in
      let '(c', bs) := copy_bytes n' (i + 1) offset (dict_put c b) in
      (c', b :: bs)
  end.

Definition machine (buf : list byte) (base limit off_literals off_pairs : Z)
    (c : cursors) : flow (cursors * list byte) halt :=
  let after_reload : flow cursors halt :=
    if mask c =? 0 then
      if wrap64 (flags_pos c + 4) >? off_literals then Exit FlagsEnd
      else
        fetch w <- load32 buf (base + flags_pos c);
        Continue (reloaded c w)
    else Continue c in
  match after_reload with
  | Exit r => Exit r
  | Fault => Fault
  | Continue c =>
      let bit := bit_set c in
      let c := shift_mask c in
      if bit then
        if lit_pos c >=? off_pairs then Exit LiteralsEnd
        else
          fetch literal <- load8 buf (base + lit_pos c);
          Continue (dict_put (next_literal c) literal, [literal])
      else
        if wrap64 (pair_pos c + 2) >? limit then Exit PairsEnd
        else
          fetch pair_val <- load16 buf (base + pair_pos c);
          let c := next_pair c in
          let offset := Z.shiftr pair_val 4 in
          if offset =? 0 then Exit (Terminator c)
          else
            let length := Z.land pair_val 0xF + 2 in
            Continue (copy_bytes (Z.to_nat length) 0 offset c)
  end.

(** What the decoder makes of a pass of the machine. *)
Definition decoder_view (off_literals : Z) (s : dstate)
    (m : flow (cursors * list byte) halt) : flow dstate decoded :=
  match m with
  | Continue (c', bs) => Continue (c', snd s ++ bs)
  | Exit FlagsEnd =>
      Exit (Returned (snd s) (flags_pos (fst s) <? off_literals))
  | Exit LiteralsEnd => Exit (Thrown LiteralsExhausted)
  | Exit PairsEnd => Exit (Thrown PairsExhausted)
  | Exit (Terminator _) => Exit (Returned (snd s) false)
  | Fault => Fault
  end.

(** [decompressedSize++], [k] times. *)
Fixpoint bump (k : nat) (decompressedSize : Z) : Z :=
  match k with
  | O => decompressedSize
  | Datatypes.S k' => bump k' (wrap64 (decompressedSize + 1))
  end.

(** What the validator makes of a pass of the machine. *)
Definition validator_view (s : vstate) (m : flow (cursors * list byte) halt)
  : flow vstate (option DecompressValidationResult.t) :=
  match m with
  | Continue (c', bs) => Continue (c', bump (length bs) (snd s))
  | Exit (Terminator c') => Exit (Some (DVR true (pair_pos c') (snd s)))
  | Exit _ => Exit None
  | Fault => Fault
  end.

(** The number of flag bits a mask still selects. *)
Definition bits_left (m : Z) : Z := if m <=? 0 then 0 else Z.log2 m + 1.

(** An upper bound on the passes still to come: the flag bits not yet
    processed. *)
Definition flag_bits_ahead (off_literals : Z) (c : cursors) : nat :=
  Z.to_nat (32 * ((off_literals - flags_pos c) / 4) + bits_left (mask c)).

(** The locals stay inside their streams. *)
Record cursors_ok (limit off_literals off_pairs : Z) (c : cursors) : Prop := {
  ok_flags : 8 <= flags_pos c <= off_literals;
  ok_lit : off_literals <= lit_pos c <= Z.max off_literals off_pairs;
  ok_pair : off_pairs <= pair_pos c <= limit;
  ok_mask : 0 <= mask c;
  ok_started : mask c <> 0 -> 12 <= flags_pos c;
  ok_dict : length (dict_buf c) = 4096%nat;
  ok_index : 0 <= dict_index c < 4096
}.

(** *** The passes of the machine, case by case

    [flag_ready c c1]: the pass that starts in [c] has a flag bit to process,
    selected by the mask of [c1]; either the mask of [c] still selects one, or
    the next flag word was read. *)
Inductive flag_ready (buf : list byte) (base off_literals : Z) (c : cursors)
  : cursors -> Prop :=
| ready_kept : mask c <> 0 -> flag_ready buf base off_literals c c
| ready_reloaded : forall w,
    mask c = 0 -> flags_pos c + 4 <= off_literals ->
    load32 buf (base + flags_pos c) = Some w ->
    flag_ready buf base off_literals c (reloaded c w).

(** The flag stream is exhausted: the mask is, and no whole flag word is left
    before [off_literals]. *)
Definition flags_exhausted (off_literals : Z) (c : cursors) : Prop :=
  mask c = 0 /\ off_literals < flags_pos c + 4.

(** A literal-flagged bit is processed with the literal cursor at or beyond
    [off_pairs]. *)
Definition literals_exhausted (buf : list byte) (base off_literals off_pairs : Z)
    (c : cursors) : Prop :=
  exists c1, flag_ready buf base off_literals c c1 /\ bit_set c1 = true /\
             off_pairs <= lit_pos c.

(** A reference-flagged bit is processed with fewer than 2 bytes left before
    [limit]. *)
Definition pairs_exhausted (buf : list byte) (base limit off_literals : Z)
    (c : cursors) : Prop :=
  exists c1, flag_ready buf base off_literals c c1 /\ bit_set c1 = false /\
             limit - pair_pos c < 2.

(** A reference-flagged bit is processed and the pair code read for it has
    dictionary offset zero. *)
Definition terminator_met (buf : list byte) (base limit off_literals : Z)
    (c : cursors) : Prop :=
  exists c1 p, flag_ready buf base off_literals c c1 /\ bit_set c1 = false /\
               pair_pos c + 2 <= limit /\
               load16 buf (base + pair_pos c) = Some p /\ p / 2 ^ 4 = 0.

Inductive pass (buf : list byte) (base limit off_literals off_pairs : Z)
    (c : cursors) : flow (cursors * list byte) halt -> Prop :=
| pass_flags_end :
    flags_exhausted off_literals c ->
    pass buf base limit off_literals off_pairs c (Exit FlagsEnd)
| pass_literals_end : forall c1,
    flag_ready buf base off_literals c c1 -> bit_set c1 = true ->
    off_pairs <= lit_pos c ->
    pass buf base limit off_literals off_pairs c (Exit LiteralsEnd)
| pass_literal : forall c1 b,
    flag_ready buf base off_literals c c1 -> bit_set c1 = true ->
    lit_pos c < off_pairs ->
    load8 buf (base + lit_pos c) = Some b ->
    pass buf base limit off_literals off_pairs c
      (Continue (dict_put (next_literal (shift_mask c1)) b, [b]))
| pass_pairs_end : forall c1,
    flag_ready buf base off_literals c c1 -> bit_set c1 = false ->
    limit - pair_pos c < 2 ->
    pass buf base limit off_literals off_pairs c (Exit PairsEnd)
| pass_terminator : forall c1 p,
    flag_ready buf base off_literals c c1 -> bit_set c1 = false ->
    pair_pos c + 2 <= limit ->
    load16 buf (base + pair_pos c) = Some p -> p / 2 ^ 4 = 0 ->
    pass buf base limit off_literals off_pairs c
      (Exit (Terminator (next_pair (shift_mask c1))))
| pass_copy : forall c1 p,
    flag_ready buf base off_literals c c1 -> bit_set c1 = false ->
    pair_pos c + 2 <= limit ->
    load16 buf (base + pair_pos c) = Some p -> 0 < p / 2 ^ 4 < 2 ^ 12 ->
    pass buf base limit off_literals off_pairs c
      (Continue (copy_bytes (Z.to_nat (p mod 2 ^ 4 + 2)) 0 (p / 2 ^ 4)
                   (next_pair (shift_mask c1)))).

(** The header word at byte [i] of a block, 0 when the block is too short to
    hold it. *)
Definition header_word (block : list byte) (i : Z) : Z :=
  match load32 block i with Some w => w | None => 0 end.

(** [run_to m c bs c']: from [c], complete passes of the machine [m] lead to
    [c'] and yield the bytes [bs]. *)
Inductive run_to (m : cursors -> flow (cursors * list byte) halt)
  : cursors -> list byte -> cursors -> Prop :=
| run_here : forall c, run_to m c [] c
| run_next : forall c c' bs bs' c'',
    m c = Continue (c', bs) -> run_to m c' bs' c'' ->
    run_to m c (bs ++ bs') c''.

(** *** The sliding dictionary, in the words of the specification

    Every emitted byte is written into the dictionary at the current cursor,
    and the cursor advances modulo 4096. *)
Definition ring_put (dict : list byte) (cursor : Z) (b : byte)
  : list byte * Z :=
  (vec_set dict (Z.to_nat cursor) b, (cursor + 1) mod 4096).

(** A back-reference reads byte [i] of the copy at index
    [(offset + i) mod 4096] of the dictionary as the first [i] bytes of the
    same copy have left it, and writes it back at the cursor before byte
    [i + 1] is read.  [ring_copy k offset dict cursor] is the dictionary, the
    cursor and the bytes emitted once [k] bytes are copied. *)
Fixpoint ring_copy (k : nat) (offset : Z) (dict : list byte) (cursor : Z)
  : list byte * Z * list byte :=
  match k with
  | O => (dict, cursor, [])
  | Datatypes.S i =>
      let '(dict_i, cursor_i, bs) := ring_copy i offset dict cursor in
      let b := nth (Z.to_nat ((offset + Z.of_nat i) mod 4096)) dict_i x00 in
      let '(dict', cursor') := ring_put dict_i cursor_i b in
      (dict', cursor', bs ++ [b])
  end.

(** *** Block descriptors *)

(** The validator has accepted the block that [r] describes. *)
Definition accepted (buf : list byte) (r : ScanResult.t) : Prop :=
  validateAndGetConsumedSize buf (ScanResult.offset r)
  = Finished (DVR true (ScanResult.consumedSize r)
                (ScanResult.decompressedSize r)).

Definition before (a b : ScanResult.t) : Prop :=
  ScanResult.offset a < ScanResult.offset b.

(** The half-open intervals [[offset, offset + consumedSize)] of [a] and [b]
    have no byte in common. *)
Definition intervals_disjoint (a b : ScanResult.t) : Prop :=
  forall x,
    ~ (ScanResult.offset a <= x < ScanResult.offset a + ScanResult.consumedSize a
       /\ ScanResult.offset b <= x
           < ScanResult.offset b + ScanResult.consumedSize b).

(** The range the deduplication keeps for [r] (line 265). *)
Definition kept_range (r : ScanResult.t) : Z * Z :=
  (ScanResult.offset r,
   wrap64 (ScanResult.offset r + ScanResult.consumedSize r)).

(** A pass that stays before byte [cn]: it ends normally or on the
    terminator, with the pair cursor at or before [cn]. *)
Definition within (cn : Z) (r : flow (cursors * list byte) halt) : Prop :=
  match r with
  | Continue (c', _) => pair_pos c' <= cn
  | Exit (Terminator c') => pair_pos c' <= cn
  | _ => False
  end.




(** The candidate loop of [scanContainer], run on its own. *)
Definition candidates (fileBuffer : list byte)
  : outcome (outcome (list ScanResult.t)) :=
  while_true (candidate_body fileBuffer) (scan_fuel (vec_size fileBuffer))
    (0, []).

(** [o] is an offset the candidate loop of a buffer of [n] bytes visits. *)
Definition visited_offset (n o : Z) : Prop :=
  0 <= o <= n - 12 /\ o mod 4 = 0.


(** ** The extraction, [processContainerFile] (lines 276-353)

    The file system is the function's environment: whether
    [create_directories] succeeds and what the input stream yields are
    arguments of the model, and the files the loop writes are its result.
    The messages to [std::cout] and [std::cerr] are left out, and with them
    the counters [n_ok] and [n_err], which are only printed: they count the
    [Written] and the [Failed] entries below. *)

(** [ss << std::hex << value] and [ss << std::dec << value] for a [size_t]:
    lower-case digits, no prefix. *)
Definition hex_string (n : Z) : String.string :=
  HexadecimalString.NilZero.string_of_uint (N.to_hex_uint (Z.to_N n)).

Definition dec_string (n : Z) : String.string :=
  DecimalString.NilZero.string_of_uint (N.to_uint (Z.to_N n)).

Fixpoint fill (k : nat) (c : Ascii.ascii) : String.string :=
  match k with
  | O => String.EmptyString
  | Datatypes.S k' => String.String c (fill k' c)
  end.

(** [std::setfill(c) << std::setw(w)] before one output: the text is padded
    on the left up to [w] characters. *)
Definition setw (w : nat) (c : Ascii.ascii) (s : String.string)
  : String.string :=
  String.append (fill (w - String.length s) c) s.

(** Lines 333-335: the name of the file of a chunk. *)
Definition chunk_name (offset size : Z) : String.string :=
  String.append "chunk_off_"%string
    (String.append (setw 8 "0"%char (hex_string offset))
       (String.append "_dec_"%string
          (String.append (dec_string size) ".bin"%string))).

(** What the loop of lines 315-349 does with one block. *)
Inductive extraction : Type :=
| Written (name : String.string) (data : list byte) (size_mismatch : bool)
    (* lines 323-342: the file is written, [n_ok++]; [size_mismatch] tells
       whether the warning of line 327 was issued *)
| Failed (e : MalformedBlock).
    (* lines 345-348: the decoder has thrown, [n_err++] *)

(** Lines 318-342, for one [blockInfo].  The range constructor of line 320
    reads [inputData] from [off] up to [end]. *)
Definition extract_block (inputData : list byte) (blockInfo : ScanResult.t)
  : outcome extraction :=
  let off := ScanResult.offset blockInfo in
  let end_ := wrap64 (off + ScanResult.consumedSize blockInfo) in
  if (0 <=? off) && (off <=? end_) && (end_ <=? vec_size inputData) then
    let rawBlock := slice inputData off end_ in
    match decompressLZSSBlock rawBlock with
    | Finished (Returned decompressedData _) =>
        let size := vec_size decompressedData in
        Finished
          (Written (chunk_name (ScanResult.offset blockInfo) size)
             decompressedData
             (negb (size =? ScanResult.decompressedSize blockInfo)))
    | Finished (Thrown e) => Finished (Failed e)
    | OutOfBounds => OutOfBounds
    | Timeout => Timeout
    end
  else OutOfBounds.

(** Lines 315-349: [for (const auto& blockInfo : blocks)]. *)
Fixpoint extract_blocks (inputData : list byte) (blocks : list ScanResult.t)
  : outcome (list extraction) :=
  match blocks with
  | [] => Finished []
  | blockInfo :: blocks' =>
      match extract_block inputData blockInfo with
      | Finished e =>
          match extract_blocks inputData blocks' with
          | Finished es => Finished (e :: es)
          | OutOfBounds => OutOfBounds
          | Timeout => Timeout
          end
      | OutOfBounds => OutOfBounds
      | Timeout => Timeout
      end
  end.

(** [directory_created]: [create_directories] did not throw; [inFile]: the
    bytes of the input file, [None] when it cannot be opened.  The result is
    the [bool] returned and the extractions done. *)
Definition processContainerFile (directory_created : bool)
    (inFile : option (list byte)) : outcome (bool * list extraction) :=
  if negb directory_created then Finished (false, [])
  else
    match inFile with
    | None => Finished (false, [])
    | Some inputData =>
        match inputData with
        | [] => Finished (false, [])
        | _ :: _ =>
            match scanContainer inputData with
            | Finished blocks =>
                match blocks with
                | [] => Finished (true, [])
                | _ :: _ =>
                    match extract_blocks inputData blocks with
                    | Finished es => Finished (true, es)
                    | OutOfBounds => OutOfBounds
                    | Timeout => Timeout
                    end
                end
            | OutOfBounds => OutOfBounds
            | Timeout => Timeout
            end
        end
    end.

(** The name under which an extraction is written, if it is. *)
Definition written_name (e : extraction) : option String.string :=
  match e with
  | Written name _ _ => Some name
  | Failed _ => None
  end.

(** ** The interactive mode of [main] (lines 412-418) *)

(** [s.substr(pos, count)]: [None] stands for [std::out_of_range]. *)
Definition substr (s : String.string) (pos count : Z) : option String.string :=
  let size := Z.of_nat (String.length s) in
  if pos >? size then None
  else Some (String.substring (Z.to_nat pos)
               (Z.to_nat (Z.min count (size - pos))) s).

(** [s.front()] and [s.back()] of a string that is not empty. *)
Definition front (s : String.string) : option Ascii.ascii := String.get 0 s.

Definition back (s : String.string) : option Ascii.ascii :=
  String.get (String.length s - 1) s.

Definition double_quote : Ascii.ascii := "034"%char.

(** Lines 415-418: the quotes around a dropped path are removed. *)
Definition remove_quotes (filePath : String.string) : option String.string :=
  let is_quote c :=
    match c with
    | Some a => Ascii.eqb a double_quote
    | None => false
    end in
  if negb (String.length filePath =? 0)%nat
     && is_quote (front filePath) && is_quote (back filePath)
  then substr filePath 1 (wrap64 (Z.of_nat (String.length filePath) - 2))
  else Some filePath.


(** Does [s] hold the character [sep]? *)
Fixpoint has_char (sep : Ascii.ascii) (s : String.string) : bool :=
  match s with
  | String.EmptyString => false
  | String.String a s' => Ascii.eqb a sep || has_char sep s'
  end.

(** The number a text of hexadecimal (decimal) digits stands for. *)
Definition parse_hex (s : String.string) : option N :=
  option_map N.of_hex_uint (HexadecimalString.NilEmpty.uint_of_string s).

Definition parse_dec (s : String.string) : option N :=
  option_map N.of_uint (DecimalString.NilEmpty.uint_of_string s).


(** What the extraction owes a block: the file named after its offset and
    size, holding the decoder's output for the block, without the warning of
    a size mismatch. *)
Definition extracted (inputData : list byte) (b : ScanResult.t)
    (e : extraction) : Prop :=
  exists data,
    e = Written (chunk_name (ScanResult.offset b)
                   (ScanResult.decompressedSize b)) data false /\
    vec_size data = ScanResult.decompressedSize b /\
    decompressLZSSBlock
      (slice inputData (ScanResult.offset b)
         (ScanResult.offset b + ScanResult.consumedSize b))
    = Finished (Returned data false).

(** A path between two double quotes. *)
Definition quoted (inner : String.string) : String.string :=
  String.String double_quote
    (String.append inner (String.String double_quote String.EmptyString)).


(** The dictionary as a window on the output: the cursor is one past the
    place of the last byte emitted; byte [i] of the output, while it is
    among the last 4096, is at index [(1 + i) mod 4096]; a cell that no
    byte of the output has been written to holds zero. *)
Definition window (dict : list byte) (cursor : Z) (out : list byte) : Prop :=
  cursor = (1 + vec_size out) mod 4096 /\
  (forall i, 0 <= i < vec_size out -> vec_size out - i <= 4096 ->
     nth (Z.to_nat ((1 + i) mod 4096)) dict x00 = nth (Z.to_nat i) out x00) /\
  (forall j, 0 <= j < 4096 ->
     (forall i, 0 <= i < vec_size out -> (1 + i) mod 4096 <> j) ->
     nth (Z.to_nat j) dict x00 = x00).

(** ** Lemmas on machine integers and loads *)

Lemma wrap64_small z : 0 <= z < 2 ^ 64 -> wrap64 z = z.
Proof. intros H. unfold wrap64. now apply Z.mod_small. Qed.

Lemma byte_val_range b : 0 <= byte_val b < 256.
Proof.
  unfold byte_val. pose proof (Byte.to_N_bounded b). lia.
Qed.

Lemma load8_some v i :
  0 <= i < vec_size v -> exists b, load8 v i = Some b.
Proof.
  intros H. unfold load8.
  replace ((0 <=? i) && (i <? vec_size v)) with true
    by (symmetry; apply andb_true_iff; split; [apply Z.leb_le | apply Z.ltb_lt]; lia).
  destruct (nth_error v (Z.to_nat i)) eqn:E; [eauto|].
  apply nth_error_None in E. unfold vec_size in H. lia.
Qed.

Lemma load8_inside v i b : load8 v i = Some b -> 0 <= i < vec_size v.
Proof.
  unfold load8. destruct ((0 <=? i) && (i <? vec_size v)) eqn:E; [|discriminate].
  intros _. apply andb_true_iff in E. destruct E as [E1 E2].
  apply Z.leb_le in E1. apply Z.ltb_lt in E2. lia.
Qed.

Lemma load16_some v i :
  0 <= i -> i + 2 <= vec_size v ->
  exists p, load16 v i = Some p /\ 0 <= p < 2 ^ 16.
Proof.
  intros H0 H1. unfold load16.
  destruct (load8_some v i) as [b0 E0]; [lia|].
  destruct (load8_some v (i + 1)) as [b1 E1]; [lia|].
  rewrite E0, E1. eexists. split; [reflexivity|].
  pose proof (byte_val_range b0). pose proof (byte_val_range b1). lia.
Qed.

Lemma load32_some v i :
  0 <= i -> i + 4 <= vec_size v ->
  exists w, load32 v i = Some w /\ 0 <= w < 2 ^ 32.
Proof.
  intros H0 H1. unfold load32.
  destruct (load8_some v i) as [b0 E0]; [lia|].
  destruct (load8_some v (i + 1)) as [b1 E1]; [lia|].
  destruct (load8_some v (i + 2)) as [b2 E2]; [lia|].
  destruct (load8_some v (i + 3)) as [b3 E3]; [lia|].
  rewrite E0, E1, E2, E3. eexists. split; [reflexivity|].
  pose proof (byte_val_range b0). pose proof (byte_val_range b1).
  pose proof (byte_val_range b2). pose proof (byte_val_range b3). lia.
Qed.

Lemma load16_range v i p : load16 v i = Some p -> 0 <= p < 2 ^ 16.
Proof.
  unfold load16.
  destruct (load8 v i) as [b0|]; [|discriminate].
  destruct (load8 v (i + 1)) as [b1|]; [|discriminate].
  intros E.
  assert (E' : byte_val b0 + 2 ^ 8 * byte_val b1 = p) by congruence.
  pose proof (byte_val_range b0). pose proof (byte_val_range b1). lia.
Qed.

Lemma load32_range v i w : load32 v i = Some w -> 0 <= w < 2 ^ 32.
Proof.
  unfold load32.
  destruct (load8 v i) as [b0|]; [|discriminate].
  destruct (load8 v (i + 1)) as [b1|]; [|discriminate].
  destruct (load8 v (i + 2)) as [b2|]; [|discriminate].
  destruct (load8 v (i + 3)) as [b3|]; [|discriminate].
  intros E.
  assert (E' : byte_val b0 + 2 ^ 8 * byte_val b1
               + 2 ^ 16 * byte_val b2 + 2 ^ 24 * byte_val b3 = w)
    by congruence.
  pose proof (byte_val_range b0). pose proof (byte_val_range b1).
  pose proof (byte_val_range b2). pose proof (byte_val_range b3). lia.
Qed.

Lemma load32_inside v i w :
  load32 v i = Some w -> 0 <= i /\ i + 4 <= vec_size v.
Proof.
  unfold load32.
  destruct (load8 v i) as [b0|] eqn:E0; [|discriminate].
  destruct (load8 v (i + 1)) as [b1|]; [|discriminate].
  destruct (load8 v (i + 2)) as [b2|]; [|discriminate].
  destruct (load8 v (i + 3)) as [b3|] eqn:E3; [|discriminate].
  intros _. apply load8_inside in E0. apply load8_inside in E3. lia.
Qed.

Lemma load32_none v i : vec_size v < i + 4 -> load32 v i = None.
Proof.
  intros H. destruct (load32 v i) eqn:E; [|reflexivity].
  apply load32_inside in E. lia.
Qed.

Lemma bits_left_shiftr m : 0 < m -> bits_left (Z.shiftr m 1) = bits_left m - 1.
Proof.
  intros H. unfold bits_left.
  destruct (m <=? 0) eqn:E; [apply Z.leb_le in E; lia|].
  destruct (Z.eq_dec m 1) as [->|N]; [reflexivity|].
  assert (H2 : 1 <= Z.log2 m) by (apply Z.log2_le_pow2; simpl; lia).
  rewrite Z.log2_shiftr by lia.
  assert (P : 0 < Z.shiftr m 1).
  { rewrite Z.shiftr_div_pow2 by lia. change (2 ^ 1) with 2.
    apply Z.div_str_pos. lia. }
  destruct (Z.shiftr m 1 <=? 0) eqn:E'; [apply Z.leb_le in E'; lia|]. lia.
Qed.

(** ** Lemmas on loops *)

Section Loops.
Context {S R : Type}.
Variable body : S -> flow S R.

(** A run that finishes went through complete passes up to the one that
    left the loop. *)
Lemma while_finished fuel s r :
  while_true body fuel s = Finished r ->
  exists s', steps body s s' /\ body s' = Exit r.
Proof.
  revert s. induction fuel as [|fuel IH]; intros s; simpl; [discriminate|].
  destruct (body s) as [s1| r1 |] eqn:E; intros H.
  - destruct (IH _ H) as (s' & Hs & He).
    exists s'. split; [eapply steps_next; eauto | assumption].
  - exists s. split; [apply steps_here | congruence].
  - discriminate.
Qed.

Lemma while_out_of_bounds fuel s :
  while_true body fuel s = OutOfBounds ->
  exists s', steps body s s' /\ body s' = Fault.
Proof.
  revert s. induction fuel as [|fuel IH]; intros s; simpl; [discriminate|].
  destruct (body s) as [s1| r1 |] eqn:E; intros H.
  - destruct (IH _ H) as (s' & Hs & He).
    exists s'. split; [eapply steps_next; eauto | assumption].
  - discriminate.
  - exists s. split; [apply steps_here | assumption].
Qed.

Variable inv : S -> Prop.
Variable bound : S -> nat.
Hypothesis inv_kept :
  forall s s', inv s -> body s = Continue s' -> inv s'.
Hypothesis bound_decreases :
  forall s s', inv s -> body s = Continue s' -> (bound s' < bound s)%nat.

Lemma steps_inv s s' : steps body s s' -> inv s -> inv s'.
Proof. induction 1; eauto. Qed.

(** With fuel above the bound the loop does not time out. *)
Lemma while_terminates fuel s :
  inv s -> (bound s < fuel)%nat -> while_true body fuel s <> Timeout.
Proof.
  revert s. induction fuel as [|fuel IH]; intros s Hi Hb; [lia|]. simpl.
  destruct (body s) as [s1| r1 |] eqn:E; try discriminate.
  apply IH; [eauto|]. specialize (bound_decreases _ _ Hi E). lia.
Qed.

Lemma while_exit fuel s s' r :
  steps body s s' -> body s' = Exit r -> inv s -> (bound s < fuel)%nat ->
  while_true body fuel s = Finished r.
Proof.
  intros H. revert fuel.
  induction H as [s|s s1 s2 E _ IH]; intros fuel He Hi Hb.
  - destruct fuel; [lia|]. simpl. now rewrite He.
  - destruct fuel; [lia|]. simpl. rewrite E.
    apply IH; [assumption | eauto |]. specialize (bound_decreases _ _ Hi E). lia.
Qed.

End Loops.

(** ** The two loop bodies are views of the machine *)

Lemma decoder_copy_machine n : forall i offset c out,
  decoder_copy n i offset (c, out) =
  (fst (copy_bytes n i offset c), out ++ snd (copy_bytes n i offset c)).
Proof.
  induction n as [|n IH]; intros i offset c out; simpl.
  - now rewrite app_nil_r.
  - rewrite IH.
    destruct (copy_bytes n (i + 1) offset (dict_put c _)) as [c' bs]; simpl.
    now rewrite <- app_assoc.
Qed.

Lemma validator_copy_machine n : forall i offset c d,
  validator_copy n i offset (c, d) =
  (fst (copy_bytes n i offset c),
   bump (length (snd (copy_bytes n i offset c))) d).
Proof.
  induction n as [|n IH]; intros i offset c d; simpl; [reflexivity|].
  rewrite IH.
  destruct (copy_bytes n (i + 1) offset (dict_put c _)) as [c' bs]; reflexivity.
Qed.

Lemma decoder_body_machine block off_literals off_pairs s :
  decoder_body block off_literals off_pairs s =
  decoder_view off_literals s
    (machine block 0 (vec_size block) off_literals off_pairs (fst s)).
Proof.
  destruct s as [c out]. unfold decoder_body, machine. simpl fst.
  destruct (mask c =? 0).
  - destruct (wrap64 (flags_pos c + 4) >? off_literals); [reflexivity|].
    rewrite Z.add_0_l.
    destruct (load32 block (flags_pos c)) as [w|]; [|reflexivity].
    destruct (bit_set (reloaded c w)).
    + destruct (lit_pos _ >=? off_pairs); [reflexivity|].
      rewrite Z.add_0_l. destruct (load8 block _); reflexivity.
    + destruct (wrap64 _ >? vec_size block); [reflexivity|].
      rewrite Z.add_0_l. destruct (load16 block _) as [p|]; [|reflexivity].
      destruct (Z.shiftr p 4 =? 0); [reflexivity|].
      rewrite decoder_copy_machine. simpl.
      now destruct (copy_bytes _ _ _ _).
  - destruct (bit_set c).
    + destruct (lit_pos _ >=? off_pairs); [reflexivity|].
      rewrite Z.add_0_l. destruct (load8 block _); reflexivity.
    + destruct (wrap64 _ >? vec_size block); [reflexivity|].
      rewrite Z.add_0_l. destruct (load16 block _) as [p|]; [|reflexivity].
      destruct (Z.shiftr p 4 =? 0); [reflexivity|].
      rewrite decoder_copy_machine. simpl.
      now destruct (copy_bytes _ _ _ _).
Qed.

Lemma validator_body_machine buf start rem off_literals off_pairs s :
  validator_body buf start rem off_literals off_pairs s =
  validator_view s (machine buf start rem off_literals off_pairs (fst s)).
Proof.
  destruct s as [c d]. unfold validator_body, machine. simpl fst.
  destruct (mask c =? 0).
  - destruct (wrap64 (flags_pos c + 4) >? off_literals); [reflexivity|].
    destruct (load32 buf _) as [w|]; [|reflexivity].
    destruct (bit_set (reloaded c w)).
    + destruct (lit_pos _ >=? off_pairs); [reflexivity|].
      destruct (load8 buf _); reflexivity.
    + destruct (wrap64 _ >? rem); [reflexivity|].
      destruct (load16 buf _) as [p|]; [|reflexivity].
      destruct (Z.shiftr p 4 =? 0); [reflexivity|].
      rewrite validator_copy_machine. simpl.
      now destruct (copy_bytes _ _ _ _).
  - destruct (bit_set c).
    + destruct (lit_pos _ >=? off_pairs); [reflexivity|].
      destruct (load8 buf _); reflexivity.
    + destruct (wrap64 _ >? rem); [reflexivity|].
      destruct (load16 buf _) as [p|]; [|reflexivity].
      destruct (Z.shiftr p 4 =? 0); [reflexivity|].
      rewrite validator_copy_machine. simpl.
      now destruct (copy_bytes _ _ _ _).
Qed.

(** ** The machine inside its streams *)

Lemma length_vec_set v : forall i b, length (vec_set v i b) = length v.
Proof.
  induction v as [|x v IH]; intros [|i] b; simpl; auto.
Qed.

Lemma copy_bytes_frame n : forall i offset c,
  let c' := fst (copy_bytes n i offset c) in
  flags_pos c' = flags_pos c /\ lit_pos c' = lit_pos c /\
  pair_pos c' = pair_pos c /\ mask c' = mask c /\
  flag_word c' = flag_word c /\
  length (dict_buf c') = length (dict_buf c) /\
  (0 <= dict_index c < 4096 -> 0 <= dict_index c' < 4096) /\
  length (snd (copy_bytes n i offset c)) = n.
Proof.
  induction n as [|n IH]; intros i offset c; simpl.
  - tauto.
  - specialize (IH (i + 1) offset
                  (dict_put c (dict_get c (Z.land (offset + i) 0xFFF)))).
    destruct (copy_bytes n (i + 1) offset _) as [c' bs]; simpl in *.
    destruct IH as (? & ? & ? & ? & ? & Hl & Hi & ?).
    rewrite length_vec_set in Hl.
    repeat split; try congruence; try lia.
    + apply Hi. change 0xFFF with (Z.ones 12). rewrite Z.land_ones by lia.
      pose proof (Z.mod_pos_bound (wrap64 (dict_index c + 1)) (2 ^ 12)). lia.
    + apply Hi. change 0xFFF with (Z.ones 12). rewrite Z.land_ones by lia.
      pose proof (Z.mod_pos_bound (wrap64 (dict_index c + 1)) (2 ^ 12)). lia.
Qed.

Section Machine.
Variables (buf : list byte) (base limit off_literals off_pairs : Z).
Hypothesis base_nonneg : 0 <= base.
Hypothesis limit_inside : base + limit <= vec_size buf.
Hypothesis buf_fits : vec_size buf <= max_size.
Hypothesis literals_range : 8 <= off_literals <= limit.
Hypothesis pairs_range : 0 <= off_pairs <= limit.

Let ok := cursors_ok limit off_literals off_pairs.
Let run := machine buf base limit off_literals off_pairs.

Lemma initial_cursors_ok : ok (initial_cursors off_literals off_pairs).
Proof.
  constructor; simpl; lia.
Qed.

Lemma machine_pass c :
  ok c -> pass buf base limit off_literals off_pairs c (run c).
Proof.
  intros [Hf Hl Hp Hm Hs Hd Hi]. unfold run, machine, max_size in *.
  assert (W4 : wrap64 (flags_pos c + 4) = flags_pos c + 4)
    by (apply wrap64_small; lia).
  assert (W2 : wrap64 (pair_pos c + 2) = pair_pos c + 2)
    by (apply wrap64_small; lia).
  assert (tail : forall c1,
    flag_ready buf base off_literals c c1 ->
    lit_pos c1 = lit_pos c -> pair_pos c1 = pair_pos c ->
    pass buf base limit off_literals off_pairs c
      (let bit := bit_set c1 in
       let c := shift_mask c1 in
       if bit then
         if lit_pos c >=? off_pairs then Exit LiteralsEnd
         else
           fetch literal <- load8 buf (base + lit_pos c);
           Continue (dict_put (next_literal c) literal, [literal])
       else
         if wrap64 (pair_pos c + 2) >? limit then Exit PairsEnd
         else
           fetch pair_val <- load16 buf (base + pair_pos c);
           let c := next_pair c in
           let offset := Z.shiftr pair_val 4 in
           if offset =? 0 then Exit (Terminator c)
           else
             let length := Z.land pair_val 0xF + 2 in
             Continue (copy_bytes (Z.to_nat length) 0 offset c))).
  { intros c1 R El Ep. cbv zeta. simpl lit_pos. simpl pair_pos.
    rewrite El, Ep, W2.
    destruct (bit_set c1) eqn:B.
    - destruct (lit_pos c >=? off_pairs) eqn:G.
      + apply Z.geb_le in G. eapply pass_literals_end; eauto.
      + rewrite Z.geb_leb in G. apply Z.leb_gt in G.
        destruct (load8_some buf (base + lit_pos c)) as [b Eb]; [lia|].
        rewrite Eb. eapply pass_literal; eauto.
    - destruct (pair_pos c + 2 >? limit) eqn:G.
      + rewrite Z.gtb_ltb in G. apply Z.ltb_lt in G.
        eapply pass_pairs_end; eauto. lia.
      + rewrite Z.gtb_ltb in G. apply Z.ltb_ge in G.
        destruct (load16_some buf (base + pair_pos c)) as (p & Ep' & Rp);
          [lia | lia |].
        rewrite Ep'. rewrite Z.shiftr_div_pow2 by lia.
        change 0xF with (Z.ones 4). rewrite Z.land_ones by lia.
        assert (0 <= p / 2 ^ 4 < 2 ^ 12).
        { split; [apply Z.div_pos; lia|].
          apply Z.div_lt_upper_bound; lia. }
        destruct (p / 2 ^ 4 =? 0) eqn:Z0.
        * apply Z.eqb_eq in Z0. eapply pass_terminator; eauto.
        * apply Z.eqb_neq in Z0. eapply pass_copy; eauto. lia. }
  destruct (mask c =? 0) eqn:M.
  - apply Z.eqb_eq in M. rewrite W4.
    destruct (flags_pos c + 4 >? off_literals) eqn:G.
    + rewrite Z.gtb_ltb in G. apply Z.ltb_lt in G.
      apply pass_flags_end. split; assumption.
    + rewrite Z.gtb_ltb in G. apply Z.ltb_ge in G.
      destruct (load32_some buf (base + flags_pos c)) as (w & Ew & _);
        [lia | lia |].
      rewrite Ew. apply tail; [|reflexivity|reflexivity].
      apply ready_reloaded; assumption.
  - apply Z.eqb_neq in M. apply tail; [|reflexivity|reflexivity].
    apply ready_kept; assumption.
Qed.

Lemma machine_no_fault c : ok c -> run c <> Fault.
Proof.
  intros H E. pose proof (machine_pass c H) as P. rewrite E in P.
  inversion P.
Qed.

Lemma flag_ready_fun c c1 c2 :
  flag_ready buf base off_literals c c1 ->
  flag_ready buf base off_literals c c2 -> c1 = c2.
Proof.
  intros [M1|w1 M1 G1 E1] [M2|w2 M2 G2 E2]; try congruence.
Qed.

(** What the flag phase leaves in the locals. *)
Lemma flag_ready_ok c c1 :
  ok c -> flag_ready buf base off_literals c c1 ->
  12 <= flags_pos c1 <= off_literals /\ 0 < mask c1 /\
  lit_pos c1 = lit_pos c /\ pair_pos c1 = pair_pos c /\
  dict_buf c1 = dict_buf c /\ dict_index c1 = dict_index c /\
  (flag_bits_ahead off_literals (shift_mask c1) <
   flag_bits_ahead off_literals c)%nat.
Proof.
  intros [Hf Hl Hp Hm Hs Hd Hi] [M|w M G E]; unfold flag_bits_ahead;
    cbn [shift_mask reloaded flags_pos mask lit_pos pair_pos dict_buf
         dict_index].
  - repeat split; try lia.
    rewrite bits_left_shiftr by lia.
    assert (0 <= (off_literals - flags_pos c) / 4) by (apply Z.div_pos; lia).
    assert (0 < bits_left (mask c)).
    { unfold bits_left. destruct (mask c <=? 0) eqn:L;
        [apply Z.leb_le in L; lia|]. pose proof (Z.log2_nonneg (mask c)). lia. }
    lia.
  - unfold max_size in *.
    rewrite wrap64_small by lia. rewrite M.
    repeat split; try lia.
    change (bits_left (Z.shiftr 2147483648 1)) with 31.
    change (bits_left 0) with 0.
    replace (off_literals - (flags_pos c + 4))
      with ((off_literals - flags_pos c) + (-1) * 4) by lia.
    rewrite Z.div_add by lia.
    assert (0 <= (off_literals - flags_pos c - 4) / 4) by (apply Z.div_pos; lia).
    replace (off_literals - flags_pos c - 4)
      with ((off_literals - flags_pos c) + (-1) * 4) in H by lia.
    rewrite Z.div_add in H by lia. lia.
Qed.

Lemma land_index z : 0 <= Z.land z 0xFFF < 4096.
Proof.
  change 0xFFF with (Z.ones 12). rewrite Z.land_ones by lia.
  pose proof (Z.mod_pos_bound z (2 ^ 12)). lia.
Qed.

(** A complete pass keeps the locals in their streams, uses up a flag bit
    and yields at most 17 bytes. *)
Lemma machine_continue c c' bs :
  ok c -> run c = Continue (c', bs) ->
  ok c' /\
  (flag_bits_ahead off_literals c' < flag_bits_ahead off_literals c)%nat /\
  (1 <= length bs <= 17)%nat /\
  pair_pos c <= pair_pos c' /\ 12 <= off_literals.
Proof.
  intros H E. pose proof (machine_pass c H) as P. rewrite E in P.
  assert (F12 : forall c1, flag_ready buf base off_literals c c1 ->
                           12 <= off_literals).
  { intros c1 R. destruct (flag_ready_ok c c1 H R) as (Hf1 & _).
    destruct H as [Hf _ _ Hm Hs _ _]. destruct R as [M|w M G E']; [|lia].
    specialize (Hs M). lia. }
  unfold max_size in *.
  remember (Continue (c', bs)) as r eqn:Er.
  destruct P as [ | | c1 b R B L Eb | | | c1 p R B L Ep Rp ];
    try discriminate.
  - injection Er as <- <-.
    destruct (flag_ready_ok c c1 H R) as (Hf1 & Hm1 & El & Ep & Ed & Ei & Hb).
    destruct H as [Hf Hl Hp Hm Hs Hd Hi].
    split; [|split; [exact Hb | split; [simpl; lia | split; [simpl; lia | eauto]]]].
    constructor; simpl; try lia.
    + rewrite El. rewrite wrap64_small by lia. lia.
    + apply Z.shiftr_nonneg. lia.
    + rewrite length_vec_set. congruence.
    + apply land_index.
  - destruct (flag_ready_ok c c1 H R) as (Hf1 & Hm1 & El & Ep' & Ed & Ei & Hb).
    destruct H as [Hf Hl Hp Hm Hs Hd Hi].
    pose proof (copy_bytes_frame (Z.to_nat (p mod 2 ^ 4 + 2)) 0 (p / 2 ^ 4)
                  (next_pair (shift_mask c1))) as Fr.
    assert (Er' : copy_bytes (Z.to_nat (p mod 2 ^ 4 + 2)) 0 (p / 2 ^ 4)
                    (next_pair (shift_mask c1)) = (c', bs)) by congruence.
    rewrite Er' in Fr. cbn [fst snd] in Fr.
    cbn [next_pair shift_mask flags_pos lit_pos pair_pos mask flag_word
         dict_buf dict_index] in Fr.
    destruct Fr as (F1 & F2 & F3 & F4 & F5 & F6 & F7 & F8).
    pose proof (Z.mod_pos_bound p (2 ^ 4)).
    rewrite Ep' in F3. rewrite wrap64_small in F3 by lia.
    split; [|split; [|split; [|split]]].
    + constructor; try lia.
      * rewrite F4. apply Z.shiftr_nonneg. lia.
      * congruence.
    + unfold flag_bits_ahead in *. rewrite F1, F4. exact Hb.
    + lia.
    + lia.
    + eauto.
Qed.

Lemma flag_ready_not_exhausted c c1 :
  flag_ready buf base off_literals c c1 ->
  flags_exhausted off_literals c -> False.
Proof.
  intros [M|w M G E] [M' G']; [contradiction | lia].
Qed.

(** Two descriptions of one pass cannot disagree. *)
Ltac clash :=
  match goal with
  | R : flag_ready _ _ _ ?c _, X : flags_exhausted _ ?c |- _ =>
      destruct (flag_ready_not_exhausted _ _ R X)
  | R1 : flag_ready _ _ _ ?c ?c1, R2 : flag_ready _ _ _ ?c ?c2 |- _ =>
      pose proof (flag_ready_fun _ _ _ R1 R2); subst; clear R2;
      try congruence; try lia;
      try match goal with
          | A : load16 _ _ = Some ?p, B : load16 _ _ = Some ?q |- _ =>
              assert (p = q) by congruence; subst; lia
          end
  end.

Lemma machine_flags_end c :
  ok c -> (run c = Exit FlagsEnd <-> flags_exhausted off_literals c).
Proof.
  intros H. pose proof (machine_pass c H) as P. split.
  - intros E. rewrite E in P. now inversion P.
  - intros X. destruct P; try reflexivity; clash.
Qed.

Lemma machine_literals_end c :
  ok c ->
  (run c = Exit LiteralsEnd <->
   literals_exhausted buf base off_literals off_pairs c).
Proof.
  intros H. pose proof (machine_pass c H) as P. split.
  - intros E. rewrite E in P. inversion P. eexists; eauto.
  - intros (c0 & R0 & B0 & L0). destruct P; try reflexivity; clash.
Qed.

Lemma machine_pairs_end c :
  ok c ->
  (run c = Exit PairsEnd <-> pairs_exhausted buf base limit off_literals c).
Proof.
  intros H. pose proof (machine_pass c H) as P. split.
  - intros E. rewrite E in P. inversion P. eexists; eauto.
  - intros (c0 & R0 & B0 & L0). destruct P; try reflexivity; clash.
Qed.

Lemma machine_terminator c :
  ok c ->
  ((exists c', run c = Exit (Terminator c')) <->
   terminator_met buf base limit off_literals c).
Proof.
  intros H. pose proof (machine_pass c H) as P. split.
  - intros (c' & E). rewrite E in P. inversion P. do 2 eexists; eauto.
  - intros (c0 & p0 & R0 & B0 & L0 & E0 & Z0).
    destruct P; try (eexists; reflexivity); clash.
Qed.

Lemma machine_terminator_pos c c' :
  ok c -> run c = Exit (Terminator c') ->
  pair_pos c' = pair_pos c + 2 /\ pair_pos c' <= limit /\
  12 <= off_literals.
Proof.
  intros H E. pose proof (machine_pass c H) as P. rewrite E in P.
  inversion P as [ | | | | c1 p R B L Ep Z0 | ]; subst.
  destruct (flag_ready_ok c c1 H R) as (Hf1 & Hm1 & El & Ep' & _).
  destruct H as [Hf Hl Hp Hm Hs Hd Hi]. unfold max_size in *.
  cbn [next_pair shift_mask pair_pos]. rewrite Ep'.
  rewrite wrap64_small by lia. lia.
Qed.

Lemma pass_fun c r1 r2 :
  pass buf base limit off_literals off_pairs c r1 ->
  pass buf base limit off_literals off_pairs c r2 -> r1 = r2.
Proof.
  intros P1 P2.
  destruct P1; destruct P2; try reflexivity; try clash;
    try match goal with
        | A : load8 _ _ = Some ?p, B : load8 _ _ = Some ?q |- _ =>
            assert (p = q) by congruence; subst; reflexivity
        | A : load16 _ _ = Some ?p, B : load16 _ _ = Some ?q |- _ =>
            assert (p = q) by congruence; subst; reflexivity
        end.
Qed.

Lemma run_to_ok c bs c' :
  run_to run c bs c' -> ok c ->
  ok c' /\ pair_pos c <= pair_pos c' /\
  (flag_bits_ahead off_literals c' <= flag_bits_ahead off_literals c)%nat.
Proof.
  induction 1 as [c|c c1 bs bs' c2 E _ IH]; intros H;
    [split; [assumption | split; lia]|].
  destruct (machine_continue c c1 bs H E) as (H1 & Hb & _ & Hp & _).
  destruct (IH H1) as (H2 & Hp2 & Hb2). split; [assumption | split; lia].
Qed.
End Machine.

(** ** The decoder's loop *)

Section DecoderLoop.
Variables (block : list byte) (off_literals off_pairs : Z).
Hypothesis block_fits : vec_size block <= max_size.
Hypothesis literals_range : 8 <= off_literals < vec_size block.
Hypothesis pairs_range : 0 <= off_pairs < vec_size block.

Let body := decoder_body block off_literals off_pairs.
Let inv (s : dstate) := cursors_ok (vec_size block) off_literals off_pairs (fst s).
Let bound (s : dstate) := flag_bits_ahead off_literals (fst s).
Let start : dstate := (initial_cursors off_literals off_pairs, []).

Lemma decoder_start_inv : inv start.
Proof. apply initial_cursors_ok; lia. Qed.

Lemma decoder_continue s s' :
  inv s -> body s = Continue s' ->
  inv s' /\ (bound s' < bound s)%nat /\
  exists bs, snd s' = snd s ++ bs /\
    machine block 0 (vec_size block) off_literals off_pairs (fst s)
    = Continue (fst s', bs).
Proof.
  unfold body, inv, bound. rewrite decoder_body_machine. intros H E.
  destruct (machine block 0 (vec_size block) off_literals off_pairs (fst s))
    as [[c' bs]|[| | |c']|] eqn:M; try discriminate.
  simpl in E. injection E as <-. simpl.
  destruct (machine_continue block 0 (vec_size block) off_literals off_pairs
              ltac:(lia) ltac:(lia) block_fits ltac:(lia) ltac:(lia)
              _ _ _ H M) as (H1 & H2 & _).
  eauto.
Qed.

Lemma decoder_inv_kept s s' : inv s -> body s = Continue s' -> inv s'.
Proof. intros H E. now destruct (decoder_continue s s' H E). Qed.

Lemma decoder_bound_decreases s s' :
  inv s -> body s = Continue s' -> (bound s' < bound s)%nat.
Proof. intros H E. now destruct (decoder_continue s s' H E) as (_ & ? & _). Qed.

Lemma decoder_no_fault s : inv s -> body s <> Fault.
Proof.
  unfold body, inv. rewrite decoder_body_machine. intros H E.
  pose proof (machine_no_fault block 0 (vec_size block) off_literals off_pairs
                ltac:(lia) ltac:(lia) block_fits ltac:(lia) ltac:(lia)
                _ H) as N.
  destruct (machine block 0 (vec_size block) off_literals off_pairs (fst s))
    as [[c' bs]|[| | |c']|]; try discriminate. now apply N.
Qed.

Lemma flag_fuel_enough :
  (flag_bits_ahead off_literals (initial_cursors off_literals off_pairs)
   < flag_fuel off_literals)%nat.
Proof.
  unfold flag_bits_ahead, flag_fuel. cbn [initial_cursors flags_pos mask].
  change (bits_left 0) with 0.
  assert (0 <= (off_literals - 8) / 4) by (apply Z.div_pos; lia).
  assert (4 * ((off_literals - 8) / 4) <= off_literals - 8)
    by (apply Z.mul_div_le; lia).
  lia.
Qed.

(** The decoder's loop always comes to an end, by a return or a throw. *)
Lemma decoder_loop_finishes :
  exists r, while_true body (flag_fuel off_literals) start = Finished r.
Proof.
  destruct (while_true body (flag_fuel off_literals) start) as [r| |] eqn:W.
  - eauto.
  - apply while_out_of_bounds in W. destruct W as (s' & Hs & Hf).
    exfalso. apply (decoder_no_fault s'); [|assumption].
    apply (steps_inv body inv decoder_inv_kept _ _ Hs decoder_start_inv).
  - exfalso. revert W.
    apply (while_terminates body inv bound decoder_inv_kept
             decoder_bound_decreases).
    + apply decoder_start_inv.
    + apply flag_fuel_enough.
Qed.

(** The pass that leaves the loop decides the result. *)
Lemma decoder_loop_exit s r :
  steps body start s -> body s = Exit r ->
  while_true body (flag_fuel off_literals) start = Finished r.
Proof.
  intros Hs He.
  apply (while_exit body inv bound decoder_inv_kept decoder_bound_decreases
           _ _ s r Hs He decoder_start_inv flag_fuel_enough).
Qed.

Lemma decoder_steps_inv s : steps body start s -> inv s.
Proof.
  intros Hs.
  apply (steps_inv body inv decoder_inv_kept _ _ Hs decoder_start_inv).
Qed.
End DecoderLoop.

(** The decoder past its header checks. *)
Lemma decoder_header block :
  12 <= vec_size block ->
  exists ol op,
    load32 block 0 = Some ol /\ load32 block 4 = Some op /\
    header_word block 0 = ol /\ header_word block 4 = op /\
    0 <= ol < 2 ^ 32 /\ 0 <= op < 2 ^ 32 /\
    decompressLZSSBlock block =
      if (ol >=? vec_size block) || (op >=? vec_size block) || (ol <? 8)
      then Finished (Thrown InvalidOffsets)
      else while_true (decoder_body block ol op) (flag_fuel ol)
             (initial_cursors ol op, []).
Proof.
  intros H.
  destruct (load32_some block 0) as (ol & E0 & R0); [lia | lia |].
  destruct (load32_some block 4) as (op & E4 & R4); [lia | lia |].
  exists ol, op. unfold header_word, decompressLZSSBlock. rewrite E0, E4.
  destruct (vec_size block <? 12) eqn:L; [apply Z.ltb_lt in L; lia|].
  repeat split; try lia.
Qed.

Lemma header_checks ol op n :
  (ol >=? n) || (op >=? n) || (ol <? 8) = false <->
  8 <= ol < n /\ op < n.
Proof.
  rewrite !orb_false_iff, !Z.geb_leb, !Z.leb_gt, Z.ltb_ge. lia.
Qed.

(** ** Runs of the two loops as runs of the machine *)

Lemma bump_small k : forall d,
  0 <= d -> d + Z.of_nat k < 2 ^ 64 -> bump k d = d + Z.of_nat k.
Proof.
  induction k as [|k IH]; intros d H0 H1; simpl bump; [lia|].
  rewrite wrap64_small by lia. rewrite IH by lia. lia.
Qed.

Lemma run_decoder_steps block ol op c bs c' :
  run_to (machine block 0 (vec_size block) ol op) c bs c' ->
  forall out, steps (decoder_body block ol op) (c, out) (c', out ++ bs).
Proof.
  induction 1 as [c|c c1 bs bs' c2 E _ IH]; intros out.
  - rewrite app_nil_r. constructor.
  - eapply steps_next.
    + rewrite decoder_body_machine. simpl fst. rewrite E. reflexivity.
    + simpl snd. rewrite app_assoc. apply IH.
Qed.

(** ** The validator's loop *)

Section ValidatorLoop.
Variables (buf : list byte) (startOffset off_literals off_pairs : Z).
Let remainingSize := vec_size buf - startOffset.
Hypothesis buf_fits : vec_size buf <= max_size.
Hypothesis start_range : 0 <= startOffset <= vec_size buf.
Hypothesis literals_range : 8 <= off_literals <= remainingSize.
Hypothesis pairs_range : off_literals <= off_pairs <= remainingSize.
Hypothesis literals_word : off_literals < 2 ^ 32.

Let body :=
  validator_body buf startOffset remainingSize off_literals off_pairs.
Let run := machine buf startOffset remainingSize off_literals off_pairs.
Let inv (s : vstate) :=
  cursors_ok remainingSize off_literals off_pairs (fst s) /\
  0 <= snd s /\
  snd s + 17 * Z.of_nat (flag_bits_ahead off_literals (fst s)) <= 17 * 2 ^ 35.
Let bound (s : vstate) := flag_bits_ahead off_literals (fst s).
Let start : vstate := (initial_cursors off_literals off_pairs, 0).

Lemma validator_start_inv : inv start.
Proof.
  unfold inv, start. cbn [fst snd]. split; [|split; [lia|]].
  - apply initial_cursors_ok; lia.
  - unfold flag_bits_ahead. cbn [initial_cursors flags_pos mask].
    change (bits_left 0) with 0.
    assert (0 <= (off_literals - 8) / 4) by (apply Z.div_pos; lia).
    assert (4 * ((off_literals - 8) / 4) <= off_literals - 8)
      by (apply Z.mul_div_le; lia).
    lia.
Qed.

Lemma validator_continue s s' :
  inv s -> body s = Continue s' ->
  inv s' /\ (bound s' < bound s)%nat /\
  exists bs, snd s' = snd s + Z.of_nat (length bs) /\
             run (fst s) = Continue (fst s', bs).
Proof.
  unfold body, inv, bound, run. rewrite validator_body_machine.
  intros (H & H0 & H1) E.
  destruct (machine buf startOffset remainingSize off_literals off_pairs
              (fst s)) as [[c' bs]|[| | |c']|] eqn:M; try discriminate.
  simpl in E. injection E as <-. cbn [fst snd].
  destruct (machine_continue buf startOffset remainingSize off_literals
              off_pairs ltac:(lia) ltac:(subst remainingSize; lia) buf_fits
              ltac:(lia) ltac:(lia) _ _ _ H M) as (K1 & K2 & K3 & _).
  rewrite bump_small by lia.
  split; [split; [assumption | split; lia] | split; [lia|]].
  exists bs. split; [reflexivity | reflexivity].
Qed.

Lemma validator_inv_kept s s' : inv s -> body s = Continue s' -> inv s'.
Proof. intros H E. now destruct (validator_continue s s' H E). Qed.

Lemma validator_bound_decreases s s' :
  inv s -> body s = Continue s' -> (bound s' < bound s)%nat.
Proof.
  intros H E. now destruct (validator_continue s s' H E) as (_ & ? & _).
Qed.

Lemma validator_no_fault s : inv s -> body s <> Fault.
Proof.
  unfold body, inv. rewrite validator_body_machine. intros (H & _) E.
  pose proof (machine_no_fault buf startOffset remainingSize off_literals
                off_pairs ltac:(lia) ltac:(subst remainingSize; lia) buf_fits
                ltac:(lia) ltac:(lia) _ H) as N.
  destruct (machine buf startOffset remainingSize off_literals off_pairs
              (fst s)) as [[c' bs]|[| | |c']|]; try discriminate.
  now apply N.
Qed.

Lemma validator_fuel_enough : (bound start < flag_fuel off_literals)%nat.
Proof.
  unfold bound, start. cbn [fst].
  unfold flag_bits_ahead, flag_fuel. cbn [initial_cursors flags_pos mask].
  change (bits_left 0) with 0.
  assert (0 <= (off_literals - 8) / 4) by (apply Z.div_pos; lia).
  assert (4 * ((off_literals - 8) / 4) <= off_literals - 8)
    by (apply Z.mul_div_le; lia).
  lia.
Qed.

Lemma validator_steps_inv s : steps body start s -> inv s.
Proof.
  intros Hs.
  apply (steps_inv body inv validator_inv_kept _ _ Hs validator_start_inv).
Qed.

(** The validator's loop always comes to an end, by a break or a return. *)
Lemma validator_loop_finishes :
  exists r, while_true body (flag_fuel off_literals) start = Finished r.
Proof.
  destruct (while_true body (flag_fuel off_literals) start) as [r| |] eqn:W.
  - eauto.
  - apply while_out_of_bounds in W. destruct W as (s' & Hs & Hf).
    exfalso. apply (validator_no_fault s'); [|assumption].
    now apply validator_steps_inv.
  - exfalso. revert W.
    apply (while_terminates body inv bound validator_inv_kept
             validator_bound_decreases).
    + apply validator_start_inv.
    + apply validator_fuel_enough.
Qed.

Lemma validator_loop_exit s r :
  steps body start s -> body s = Exit r ->
  while_true body (flag_fuel off_literals) start = Finished r.
Proof.
  intros Hs He.
  apply (while_exit body inv bound validator_inv_kept
           validator_bound_decreases _ _ s r Hs He validator_start_inv
           validator_fuel_enough).
Qed.

(** The counter of a visited state is the number of bytes the machine has
    yielded. *)
Lemma validator_steps_count s :
  steps body start s ->
  exists bs, run_to run (initial_cursors off_literals off_pairs) bs (fst s)
             /\ snd s = Z.of_nat (length bs).
Proof.
  intros Hs. pose proof validator_start_inv as Hi. revert Hs Hi.
  unfold start.
  assert (G : forall s0 s1, steps body s0 s1 -> inv s0 ->
            exists bs, run_to run (fst s0) bs (fst s1) /\
                       snd s1 = snd s0 + Z.of_nat (length bs)).
  { induction 1 as [s0|s0 s1 s2 E _ IH]; intros Hi.
    - exists []. split; [constructor | simpl; lia].
    - destruct (validator_continue s0 s1 Hi E) as (Hi1 & _ & bs & Ed & Em).
      destruct (IH Hi1) as (bs' & R & Ed').
      exists (bs ++ bs'). split; [econstructor; eauto|].
      rewrite length_app. lia. }
  intros Hs Hi. destruct (G _ _ Hs Hi) as (bs & R & E).
  exists bs. split; [exact R | simpl in E; lia].
Qed.
End ValidatorLoop.

(** ** The validator past its header checks *)

Lemma header_sane_iff ol op rem :
  header_sane ol op rem = true <->
  8 <= ol <= rem /\ 8 <= op <= rem /\ ol <= op.
Proof.
  unfold header_sane.
  rewrite !andb_true_iff, Z.geb_leb, !Z.leb_le. lia.
Qed.

(** What the validator has checked when it enters its loop, and what it makes
    of the loop's result. *)
Lemma validator_entered buf start r :
  vec_size buf <= max_size ->
  validateAndGetConsumedSize buf start = Finished r ->
  r = DVR false 0 0 \/
  0 <= start /\ start + 12 <= vec_size buf /\
  exists ol op,
    load32 buf start = Some ol /\ load32 buf (start + 4) = Some op /\
    ol < 2 ^ 32 /\
    header_sane ol op (vec_size buf - start) = true /\
    exists x,
      while_true (validator_body buf start (vec_size buf - start) ol op)
        (flag_fuel ol) (initial_cursors ol op, 0) = Finished x /\
      r = match x with Some r' => r' | None => DVR false 0 0 end.
Proof.
  intros Hm. unfold validateAndGetConsumedSize, max_size in *.
  destruct (wrap64 (start + 12) >? vec_size buf) eqn:G;
    [intros [= <-]; now left|].
  rewrite Z.add_0_r.
  destruct (load32 buf start) as [ol|] eqn:E0; [|discriminate].
  destruct (load32 buf (start + 4)) as [op|] eqn:E4; [|discriminate].
  pose proof (load32_inside _ _ _ E0) as I0.
  pose proof (load32_range _ _ _ E0) as R0.
  rewrite Z.gtb_ltb in G. apply Z.ltb_ge in G.
  rewrite wrap64_small in G by lia.
  rewrite (wrap64_small (vec_size buf - start)) by lia.
  destruct (header_sane ol op (vec_size buf - start)) eqn:S; simpl negb; cbv iota;
    [|intros [= <-]; now left].
  intros W. right. split; [lia|]. split; [lia|].
  exists ol, op. repeat split; try assumption; try lia.
  destruct (while_true _ _ _) as [x| |]; try discriminate.
  exists x. split; [reflexivity|]. destruct x; congruence.
Qed.

(** In range, the validator always returns a result. *)
Lemma validator_in_range buf start :
  vec_size buf <= max_size -> 0 <= start -> start + 12 < 2 ^ 64 ->
  exists r, validateAndGetConsumedSize buf start = Finished r.
Proof.
  intros Hm H0 H1. unfold validateAndGetConsumedSize, max_size in *.
  rewrite wrap64_small by lia.
  destruct (start + 12 >? vec_size buf) eqn:G; [eauto|].
  rewrite Z.gtb_ltb in G. apply Z.ltb_ge in G.
  rewrite Z.add_0_r.
  destruct (load32_some buf start) as (ol & E0 & R0); [lia | lia |].
  destruct (load32_some buf (start + 4)) as (op & E4 & R4); [lia | lia |].
  rewrite E0, E4. rewrite (wrap64_small (vec_size buf - start)) by lia.
  destruct (header_sane ol op (vec_size buf - start)) eqn:S; simpl negb; cbv iota;
    [|eauto].
  apply header_sane_iff in S.
  destruct (validator_loop_finishes buf start ol op) as (x & W);
    unfold max_size; try lia.
  rewrite W. destruct x; eauto.
Qed.

(** An accepted block ends with its terminator pair. *)
Lemma validator_accepted buf start c d :
  vec_size buf <= max_size ->
  validateAndGetConsumedSize buf start = Finished (DVR true c d) ->
  0 <= start /\ start + 12 <= vec_size buf /\
  exists ol op,
    load32 buf start = Some ol /\ load32 buf (start + 4) = Some op /\
    12 <= ol <= op /\ op <= vec_size buf - start /\ ol < 2 ^ 32 /\
    exists ct bs ct',
      run_to (machine buf start (vec_size buf - start) ol op)
        (initial_cursors ol op) bs ct /\
      steps (validator_body buf start (vec_size buf - start) ol op)
        (initial_cursors ol op, 0) (ct, d) /\
      machine buf start (vec_size buf - start) ol op ct
        = Exit (Terminator ct') /\
      cursors_ok (vec_size buf - start) ol op ct /\
      c = pair_pos ct + 2 /\ pair_pos ct' = c /\
      d = Z.of_nat (length bs) /\ c <= vec_size buf - start.
Proof.
  intros Hm V.
  destruct (validator_entered buf start _ Hm V) as [B|(H0 & H12 & ol & op & E0 & E4 & Hw & S & x & W & Ex)];
    [discriminate|].
  split; [assumption|]. split; [assumption|].
  apply header_sane_iff in S.
  destruct x as [r'|]; [subst r'|discriminate].
  apply while_finished in W. destruct W as (s & Hs & He).
  assert (Hi := validator_steps_inv buf start ol op Hm ltac:(lia) ltac:(lia)
                  ltac:(lia) Hw s Hs).
  destruct Hi as (Hok & _).
  destruct (validator_steps_count buf start ol op Hm ltac:(lia) ltac:(lia)
              ltac:(lia) Hw s Hs) as (bs & R & Ed).
  rewrite validator_body_machine in He.
  destruct (machine buf start (vec_size buf - start) ol op (fst s))
    as [[c' bs']|[| | |ct']|] eqn:M; try discriminate.
  simpl in He. injection He as <- <-.
  destruct (machine_terminator_pos buf start (vec_size buf - start) ol op
              ltac:(lia) ltac:(lia) Hm ltac:(lia) ltac:(lia) _ _ Hok M)
    as (P1 & P2 & P3).
  exists ol, op. repeat split; try assumption; try lia.
  exists (fst s), bs, ct'. destruct s as [cs ds]. cbn [fst snd] in *.
  repeat (split; [first [assumption | lia] |]). lia.
Qed.

(** ** An accepted block, cut out of the buffer *)

Section Slice.
Variables (buf : list byte) (start cn : Z).
Hypothesis start_nonneg : 0 <= start.
Hypothesis cn_nonneg : 0 <= cn.
Hypothesis cn_inside : start + cn <= vec_size buf.

Let block := slice buf start (start + cn).

Lemma vec_size_slice : vec_size block = cn.
Proof.
  unfold block, slice, vec_size in *.
  rewrite length_firstn, length_skipn. lia.
Qed.

Lemma load8_slice k :
  0 <= k < cn -> load8 block k = load8 buf (start + k).
Proof.
  intros H. unfold load8. rewrite vec_size_slice.
  replace ((0 <=? k) && (k <? cn)) with true
    by (symmetry; apply andb_true_iff; split;
        [apply Z.leb_le | apply Z.ltb_lt]; lia).
  replace ((0 <=? start + k) && (start + k <? vec_size buf)) with true
    by (symmetry; apply andb_true_iff; split;
        [apply Z.leb_le | apply Z.ltb_lt]; lia).
  unfold block, slice. rewrite nth_error_firstn, nth_error_skipn.
  replace (Z.to_nat k <? Z.to_nat (start + cn - start))%nat with true
    by (symmetry; apply Nat.ltb_lt; lia).
  f_equal. lia.
Qed.

Lemma load16_slice k :
  0 <= k -> k + 2 <= cn -> load16 block k = load16 buf (start + k).
Proof.
  intros H0 H1. unfold load16.
  rewrite !load8_slice by lia. now rewrite !Z.add_assoc.
Qed.

Lemma load32_slice k :
  0 <= k -> k + 4 <= cn -> load32 block k = load32 buf (start + k).
Proof.
  intros H0 H1. unfold load32.
  rewrite !load8_slice by lia. now rewrite !Z.add_assoc.
Qed.

Variables (rem off_literals off_pairs : Z).
Hypothesis cn_rem : cn <= rem.
Hypothesis rem_inside : start + rem <= vec_size buf.
Hypothesis buf_fits : vec_size buf <= max_size.
Hypothesis literals_range : 8 <= off_literals <= off_pairs.
Hypothesis pairs_range : off_pairs <= cn.

Lemma flag_ready_slice c c1 :
  flag_ready buf start off_literals c c1 -> 0 <= flags_pos c ->
  flag_ready block 0 off_literals c c1.
Proof.
  intros [M|w M G E] H; [now apply ready_kept|].
  apply ready_reloaded; try assumption.
  rewrite Z.add_0_l, load32_slice by lia. assumption.
Qed.

Lemma pass_slice c r :
  cursors_ok rem off_literals off_pairs c ->
  pass buf start rem off_literals off_pairs c r -> within cn r ->
  pass block 0 cn off_literals off_pairs c r.
Proof.
  intros Hok P W.
  assert (Hf : 0 <= flags_pos c) by (destruct Hok; lia).
  assert (Hl : 0 <= lit_pos c) by (destruct Hok; lia).
  assert (Hp : 0 <= pair_pos c <= rem) by (destruct Hok; lia).
  assert (Next : forall c1, flag_ready buf start off_literals c c1 ->
            pair_pos c1 = pair_pos c).
  { intros c1 R.
    destruct (flag_ready_ok buf start rem off_literals off_pairs
                start_nonneg rem_inside buf_fits ltac:(lia) ltac:(lia)
                c c1 Hok R) as (_ & _ & _ & E & _).
    exact E. }
  unfold max_size in *.
  destruct P as [X|c1 R B L|c1 b R B L Eb|c1 R B L|c1 p R B L Ep Z0
                |c1 p R B L Ep Z0]; simpl in W; try contradiction.
  - eapply pass_literal;
      [eapply flag_ready_slice; eassumption | assumption | assumption |].
    rewrite ?Z.add_0_l, load8_slice by lia. assumption.
  - rewrite (Next _ R), wrap64_small in W by lia.
    eapply pass_terminator with (p := p);
      [eapply flag_ready_slice; eassumption | assumption | lia | | assumption].
    rewrite ?Z.add_0_l, load16_slice by lia. assumption.
  - pose proof (copy_bytes_frame (Z.to_nat (p mod 2 ^ 4 + 2)) 0 (p / 2 ^ 4)
                  (next_pair (shift_mask c1))) as Fr.
    destruct (copy_bytes _ _ _ _) as [c' bs] eqn:C.
    cbn [fst snd next_pair shift_mask pair_pos] in Fr.
    destruct Fr as (_ & _ & F3 & _).
    rewrite (Next _ R), wrap64_small in F3 by lia.
    rewrite <- C. eapply pass_copy;
      [eapply flag_ready_slice; eassumption | assumption | lia | | assumption].
    rewrite ?Z.add_0_l, load16_slice by lia. assumption.
Qed.

Lemma machine_slice c r :
  cursors_ok rem off_literals off_pairs c ->
  machine buf start rem off_literals off_pairs c = r -> within cn r ->
  pair_pos c <= cn ->
  machine block 0 cn off_literals off_pairs c = r.
Proof.
  intros Hok M W Hp.
  pose proof (machine_pass buf start rem off_literals off_pairs
                start_nonneg rem_inside buf_fits ltac:(lia) ltac:(lia)
                c Hok) as P.
  rewrite M in P. apply (pass_slice c r Hok) in P; [|assumption].
  assert (Hok' : cursors_ok cn off_literals off_pairs c).
  { destruct Hok. constructor; try assumption. lia. }
  pose proof (machine_pass block 0 cn off_literals off_pairs
                ltac:(lia) ltac:(rewrite vec_size_slice; lia)
                ltac:(rewrite vec_size_slice; lia) ltac:(lia) ltac:(lia)
                c Hok') as P'.
  symmetry. eapply pass_fun; eauto.
Qed.

Lemma run_to_slice c bs c' :
  run_to (machine buf start rem off_literals off_pairs) c bs c' ->
  cursors_ok rem off_literals off_pairs c -> pair_pos c' <= cn ->
  run_to (machine block 0 cn off_literals off_pairs) c bs c'.
Proof.
  induction 1 as [c|c c1 bs bs' c2 E R IH]; intros Hok Hp; [constructor|].
  destruct (machine_continue buf start rem off_literals off_pairs
              start_nonneg rem_inside buf_fits ltac:(lia) ltac:(lia)
              c c1 bs Hok E) as (Hok1 & _ & _ & Hp1 & _).
  destruct (run_to_ok buf start rem off_literals off_pairs
              start_nonneg rem_inside buf_fits ltac:(lia) ltac:(lia)
              c1 bs' c2 R Hok1) as (_ & Hp2 & _).
  econstructor.
  - apply machine_slice; [assumption | exact E | simpl; lia | lia].
  - apply IH; assumption.
Qed.
End Slice.

(** Validator and decoder agree on an accepted block: the decoder returns
    from the terminator, with as many bytes as the validator counted. *)
Lemma validator_decoder_agree buf start c d :
  vec_size buf <= max_size ->
  validateAndGetConsumedSize buf start = Finished (DVR true c d) ->
  exists out,
    decompressLZSSBlock (slice buf start (start + c))
    = Finished (Returned out false) /\
    Z.of_nat (length out) = d.
Proof.
  intros Hm V.
  destruct (validator_accepted buf start c d Hm V)
    as (H0 & H12 & ol & op & E0 & E4 & Hol & Hop & Hw & ct & bs & ct' & R & _
        & M & Hok & Ec & Ec' & Ed & Hc).
  assert (Hp : op <= pair_pos ct) by (destruct Hok; lia).
  set (block := slice buf start (start + c)).
  assert (Sz : vec_size block = c) by (apply vec_size_slice; lia).
  destruct (decoder_header block) as (ol' & op' & E0' & E4' & _ & _ & _ & _ & D);
    [lia|].
  unfold block in E0', E4'.
  rewrite load32_slice in E0', E4' by lia.
  rewrite Z.add_0_r in E0'. rewrite E0 in E0'. rewrite E4 in E4'.
  injection E0' as <-. injection E4' as <-.
  fold block in D. rewrite D.
  replace ((ol >=? vec_size block) || (op >=? vec_size block) || (ol <? 8))
    with false by (symmetry; apply header_checks; lia).
  exists bs. split; [|lia].
  apply (decoder_loop_exit block ol op ltac:(lia) ltac:(lia) ltac:(lia)
           (ct, bs)).
  - apply (run_decoder_steps block ol op _ bs ct). rewrite Sz.
    apply (run_to_slice buf start c H0 ltac:(lia) ltac:(lia)
             (vec_size buf - start) ol op Hc ltac:(lia) Hm ltac:(lia)
             ltac:(lia)); try assumption.
    + apply initial_cursors_ok; lia.
    + lia.
  - rewrite decoder_body_machine. cbn [fst]. rewrite Sz. unfold block.
    rewrite (machine_slice buf start c H0 ltac:(lia) ltac:(lia)
               (vec_size buf - start) ol op Hc ltac:(lia) Hm ltac:(lia)
               ltac:(lia) ct _ Hok M); [reflexivity | simpl; lia | lia].
Qed.

(** The validator's result, once the header checks have passed. *)
Lemma validator_loop_result buf start ol op :
  vec_size buf <= max_size ->
  0 <= start -> start + 12 <= vec_size buf ->
  load32 buf start = Some ol -> load32 buf (start + 4) = Some op ->
  header_sane ol op (vec_size buf - start) = true ->
  validateAndGetConsumedSize buf start =
  match while_true (validator_body buf start (vec_size buf - start) ol op)
          (flag_fuel ol) (initial_cursors ol op, 0) with
  | Finished (Some r) => Finished r
  | Finished None => Finished (DVR false 0 0)
  | OutOfBounds => OutOfBounds
  | Timeout => Timeout
  end.
Proof.
  intros Hm H0 H12 E0 E4 S. unfold validateAndGetConsumedSize, max_size in *.
  rewrite !wrap64_small by lia.
  replace (start + 12 >? vec_size buf) with false
    by (symmetry; rewrite Z.gtb_ltb; apply Z.ltb_ge; lia).
  rewrite Z.add_0_r, E0, E4, S. reflexivity.
Qed.

(** A result with [success = false] carries zero sizes. *)
Lemma validator_failure_zero buf start r :
  validateAndGetConsumedSize buf start = Finished r ->
  DecompressValidationResult.success r = false -> r = DVR false 0 0.
Proof.
  unfold validateAndGetConsumedSize.
  destruct (wrap64 (start + 12) >? vec_size buf); [congruence|].
  destruct (load32 buf (start + 0)) as [ol|]; [|discriminate].
  destruct (load32 buf (start + 4)) as [op|]; [|discriminate].
  destruct (negb _); [congruence|].
  destruct (while_true _ _ _) as [[r'|]| |] eqn:W; try congruence.
  intros [= <-] F. apply while_finished in W. destruct W as (s & _ & He).
  rewrite validator_body_machine in He.
  destruct (machine _ _ _ _ _ _) as [[c' bs]|[| | |c']|]; try discriminate.
  simpl in He. injection He as <-. discriminate.
Qed.

(** Inside the range of [size_t] the validator reads no byte outside the
    buffer, returns, and reports failures with zero sizes. *)
Lemma validator_safe_in_range buf start :
  vec_size buf <= max_size -> 0 <= start -> start + 12 < 2 ^ 64 ->
  exists r, validateAndGetConsumedSize buf start = Finished r /\
            (DecompressValidationResult.success r = false ->
             DecompressValidationResult.consumedBytes r = 0 /\
             DecompressValidationResult.decompressedSize r = 0).
Proof.
  intros Hm H0 H1.
  destruct (validator_in_range buf start Hm H0 H1) as (r & V).
  exists r. split; [assumption|]. intros F.
  now rewrite (validator_failure_zero buf start r V F).
Qed.

(** Within 12 of [2^64] the guard of line 138 wraps around; when it passes,
    the header is read outside the buffer. *)
Lemma validator_wrapped_offset buf start :
  vec_size buf <= max_size -> 2 ^ 64 - 12 <= start < 2 ^ 64 ->
  start + 12 - 2 ^ 64 <= vec_size buf ->
  validateAndGetConsumedSize buf start = OutOfBounds.
Proof.
  intros Hm Hs Hg. unfold validateAndGetConsumedSize, max_size in *.
  assert (W : wrap64 (start + 12) = start + 12 - 2 ^ 64).
  { unfold wrap64. symmetry. apply (Z.mod_unique _ _ 1); lia. }
  rewrite W.
  replace (start + 12 - 2 ^ 64 >? vec_size buf) with false
    by (symmetry; rewrite Z.gtb_ltb; apply Z.ltb_ge; lia).
  now rewrite (load32_none buf (start + 0)) by lia.
Qed.

(** The offsets the scanner's candidate loop goes through, the only ones it
    passes to the validator (line 236), lie inside the buffer. *)
Lemma scanner_offsets_in_range buf s :
  vec_size buf <= max_size ->
  steps (candidate_body buf) (0, []) s -> 0 <= fst s <= vec_size buf.
Proof.
  intros Hm Hs.
  apply (steps_inv (candidate_body buf)
           (fun s => 0 <= fst s <= vec_size buf)) with (s := (0, []));
    [|exact Hs|cbn [fst]; unfold vec_size; lia].
  clear s Hs. intros [off results] [off' results'] (H0 & H1) E.
  cbn [fst] in *. unfold candidate_body in E.
  destruct (negb _); [discriminate|].
  destruct (load32 buf (off + 0)) as [ol|]; [|discriminate].
  destruct (load32 buf (off + 4)) as [orf|] eqn:E4; [|discriminate].
  apply load32_inside in E4.
  assert (W : wrap64 (off + 4) = off + 4)
    by (apply wrap64_small; unfold max_size in *; lia).
  rewrite W in E.
  assert (X : off' = off + 4).
  { destruct (_ && _ && _ && _ && _).
    - destruct (validateAndGetConsumedSize buf off) as [res| |];
        try discriminate.
      destruct (_ && _); congruence.
    - congruence. }
  lia.
Qed.

(** C2: the validator reads no byte outside the buffer and raises nothing:
    for every buffer and every start offset at which the sum
    [startOffset + 12] of the guard of line 138 is representable, it returns
    a result.  That result is [{false, 0, 0}] whenever it is not a success,
    and it is not a success when fewer than 12 bytes follow the offset, when
    the header is not sane, and when a pass of the loop finds the flag, the
    literal or the pair stream exhausted.  The start offsets the code passes
    are those of the scanner's candidate loop, and at each of them the sum is
    representable. *)
Theorem validator_reads_inside_buffer buf :
  vec_size buf <= max_size ->
  (forall start,
     0 <= start -> start + 12 < 2 ^ 64 ->
     let rem := vec_size buf - start in
     exists r,
       validateAndGetConsumedSize buf start = Finished r /\
       (DecompressValidationResult.success r = false -> r = DVR false 0 0) /\
       (vec_size buf < start + 12 -> r = DVR false 0 0) /\
       (forall ol op,
          start + 12 <= vec_size buf ->
          load32 buf start = Some ol -> load32 buf (start + 4) = Some op ->
          (header_sane ol op rem = false -> r = DVR false 0 0) /\
          (header_sane ol op rem = true ->
           forall s,
             steps (validator_body buf start rem ol op)
               (initial_cursors ol op, 0) s ->
             flags_exhausted ol (fst s)
             \/ literals_exhausted buf start ol op (fst s)
             \/ pairs_exhausted buf start rem ol (fst s) ->
             r = DVR false 0 0))) /\
  (forall s,
     steps (candidate_body buf) (0, []) s ->
     0 <= fst s /\ fst s + 12 < 2 ^ 64).
Proof.
  intros Hm. split.
  - intros start H0 H1 rem.
    destruct (validator_in_range buf start Hm H0 H1) as (r & V).
    exists r. split; [exact V|].
    split; [exact (validator_failure_zero buf start r V)|].
    assert (Same : validateAndGetConsumedSize buf start
                   = Finished (DVR false 0 0) -> r = DVR false 0 0)
      by congruence.
    split.
    + intros Short. apply Same. unfold validateAndGetConsumedSize.
      rewrite wrap64_small by (unfold max_size in *; lia).
      now replace (start + 12 >? vec_size buf) with true
        by (symmetry; rewrite Z.gtb_ltb; apply Z.ltb_lt; lia).
    + intros ol op H12 E0 E4. split.
      * intros Bad. apply Same. unfold validateAndGetConsumedSize.
        rewrite wrap64_small by (unfold max_size in *; lia).
        replace (start + 12 >? vec_size buf) with false
          by (symmetry; rewrite Z.gtb_ltb; apply Z.ltb_ge; lia).
        rewrite Z.add_0_r, E0, E4.
        rewrite wrap64_small by (unfold max_size in *; lia).
        fold rem. now rewrite Bad.
      * intros S s Hs X. apply Same.
        pose proof (validator_loop_result buf start ol op Hm H0 H12 E0 E4 S)
          as L.
        pose proof (load32_range _ _ _ E0) as R0.
        pose proof (load32_range _ _ _ E4) as R4.
        pose proof S as S'. apply header_sane_iff in S'.
        assert (Inv : cursors_ok rem ol op (fst s)).
        { now destruct (validator_steps_inv buf start ol op Hm ltac:(lia)
                          ltac:(lia) ltac:(lia) ltac:(lia) s Hs). }
        rewrite L.
        rewrite (validator_loop_exit buf start ol op Hm ltac:(lia) ltac:(lia)
                   ltac:(lia) ltac:(lia) s None Hs); [reflexivity|].
        rewrite validator_body_machine. fold rem.
        destruct X as [X|[X|X]].
        -- apply (machine_flags_end buf start rem ol op H0
                    ltac:(subst rem; lia) Hm ltac:(lia) ltac:(lia) _ Inv) in X.
           now rewrite X.
        -- apply (machine_literals_end buf start rem ol op H0
                    ltac:(subst rem; lia) Hm ltac:(lia) ltac:(lia) _ Inv) in X.
           now rewrite X.
        -- apply (machine_pairs_end buf start rem ol op H0
                    ltac:(subst rem; lia) Hm ltac:(lia) ltac:(lia) _ Inv) in X.
           now rewrite X.
  - intros s Hs.
    pose proof (scanner_offsets_in_range buf s Hm Hs).
    unfold max_size in *. lia.
Qed.

(** ** Properties of the validator and of its agreement with the decoder *)

(** C3: for every buffer and start offset at which the validator reports
    [ok = true] with consumed size [c] and decompressed size [d], the decoder
    run on the slice [buffer[offset : offset + c]] returns (it does not throw)
    and its output has length [d]. *)
Theorem validator_decoder_agreement buf start c d :
  vec_size buf <= max_size ->
  validateAndGetConsumedSize buf start = Finished (DVR true c d) ->
  exists out warned,
    decompressLZSSBlock (slice buf start (start + c))
    = Finished (Returned out warned) /\
    Z.of_nat (length out) = d.
Proof.
  intros Hm V.
  destruct (validator_decoder_agree buf start c d Hm V) as (out & D & L).
  exists out, false. split; assumption.
Qed.

Lemma validator_decoder_agreement_witness :
  exists out warned,
    decompressLZSSBlock (slice sample_block 0 (0 + 17))
    = Finished (Returned out warned) /\
    Z.of_nat (length out) = 4.
Proof.
  apply (validator_decoder_agreement sample_block 0 17 4).
  - vm_compute. discriminate.
  - vm_compute. reflexivity.
Defined.

(** C4: once the header checks have passed, the validator reports [ok = true]
    exactly when a pass of its loop meets a pair code with zero dictionary
    offset; [consumed_size] is then the position just after that pair and
    [decompressed_size] the number of bytes counted so far, which is the
    number of bytes the decoder emits for the block.  A pass that finds the
    flag, literal or pair stream exhausted makes the result
    [{false, 0, 0}]. *)
Theorem validator_success_iff_terminator buf start ol op :
  vec_size buf <= max_size ->
  0 <= start -> start + 12 <= vec_size buf ->
  load32 buf start = Some ol -> load32 buf (start + 4) = Some op ->
  header_sane ol op (vec_size buf - start) = true ->
  let rem := vec_size buf - start in
  let visited s :=
    steps (validator_body buf start rem ol op) (initial_cursors ol op, 0) s in
  (forall c d,
     validateAndGetConsumedSize buf start = Finished (DVR true c d) <->
     exists s, visited s /\ terminator_met buf start rem ol (fst s) /\
               c = pair_pos (fst s) + 2 /\ d = snd s) /\
  (forall s,
     visited s ->
     flags_exhausted ol (fst s) \/ literals_exhausted buf start ol op (fst s)
     \/ pairs_exhausted buf start rem ol (fst s) ->
     validateAndGetConsumedSize buf start = Finished (DVR false 0 0)) /\
  (forall c d,
     validateAndGetConsumedSize buf start = Finished (DVR true c d) ->
     exists out warned,
       decompressLZSSBlock (slice buf start (start + c))
       = Finished (Returned out warned) /\
       d = Z.of_nat (length out)).
Proof.
  intros Hm H0 H12 E0 E4 S rem visited.
  pose proof (validator_loop_result buf start ol op Hm H0 H12 E0 E4 S) as V.
  pose proof (load32_range _ _ _ E0) as R0.
  pose proof (load32_range _ _ _ E4) as R4.
  pose proof S as S'. apply header_sane_iff in S'.
  assert (Inv : forall s, visited s ->
            cursors_ok rem ol op (fst s)).
  { intros s Hs.
    now destruct (validator_steps_inv buf start ol op Hm ltac:(lia) ltac:(lia)
                    ltac:(lia) ltac:(lia) s Hs). }
  assert (Out : forall s x, visited s ->
            validator_body buf start rem ol op s = Exit x ->
            validateAndGetConsumedSize buf start =
            Finished (match x with Some r => r | None => DVR false 0 0 end)).
  { intros s x Hs He. rewrite V.
    rewrite (validator_loop_exit buf start ol op Hm ltac:(lia) ltac:(lia)
               ltac:(lia) ltac:(lia) s x Hs He).
    now destruct x. }
  split; [|split].
  - intros c d. split.
    + intros A.
      destruct (validator_accepted buf start c d Hm A)
        as (_ & _ & ol' & op' & E0' & E4' & _ & _ & _ & ct & bs & ct' & _ & Hs
            & M & Hok & Ec & _ & _ & _).
      assert (ol' = ol) by congruence. assert (op' = op) by congruence.
      subst ol' op'. exists (ct, d). cbn [fst snd].
      split; [exact Hs|]. split; [|split; [lia | reflexivity]].
      apply (machine_terminator buf start rem ol op H0 ltac:(subst rem; lia) Hm
               ltac:(lia) ltac:(lia) ct Hok).
      eauto.
    + intros (s & Hs & T & Ec & Ed).
      apply (machine_terminator buf start rem ol op H0 ltac:(subst rem; lia) Hm
               ltac:(lia) ltac:(lia) _ (Inv s Hs)) in T.
      destruct T as (c' & M).
      destruct (machine_terminator_pos buf start rem ol op H0
                  ltac:(subst rem; lia) Hm ltac:(lia) ltac:(lia) _ _
                  (Inv s Hs) M) as (P1 & _).
      rewrite (Out s (Some (DVR true (pair_pos c') (snd s))) Hs).
      * subst c d. now rewrite P1.
      * rewrite validator_body_machine. fold rem. now rewrite M.
  - intros s Hs X.
    apply (Out s None Hs). rewrite validator_body_machine. fold rem.
    destruct X as [X|[X|X]].
    + apply (machine_flags_end buf start rem ol op H0 ltac:(subst rem; lia) Hm
               ltac:(lia) ltac:(lia) _ (Inv s Hs)) in X.
      now rewrite X.
    + apply (machine_literals_end buf start rem ol op H0 ltac:(subst rem; lia)
               Hm ltac:(lia) ltac:(lia) _ (Inv s Hs)) in X.
      now rewrite X.
    + apply (machine_pairs_end buf start rem ol op H0 ltac:(subst rem; lia) Hm
               ltac:(lia) ltac:(lia) _ (Inv s Hs)) in X.
      now rewrite X.
  - intros c d A.
    destruct (validator_decoder_agree buf start c d Hm A) as (out & D & L).
    exists out, false. split; [assumption | lia].
Qed.

(** An accepted block lies inside the buffer and is at least 14 bytes long:
    one flag word precedes [off_literals], and the terminator pair lies at or
    after [off_pairs]. *)
Lemma accepted_inside buf start c d :
  vec_size buf <= max_size ->
  validateAndGetConsumedSize buf start = Finished (DVR true c d) ->
  0 <= start /\ start + c <= vec_size buf /\ 14 <= c.
Proof.
  intros Hm V.
  destruct (validator_accepted buf start c d Hm V)
    as (H0 & H12 & ol & op & E0 & E4 & Hol & Hop & Hw & ct & bs & ct' & R & _
        & M & Hok & Ec & Ec' & Ed & Hc).
  assert (Hp : op <= pair_pos ct) by (destruct Hok; lia).
  lia.
Qed.

(** ** The copy loop against the specification's dictionary *)

Lemma copy_bytes_snoc n : forall i offset c,
  copy_bytes (Datatypes.S n) i offset c =
  let '(c', bs) := copy_bytes n i offset c in
  let b := dict_get c' (Z.land (offset + (i + Z.of_nat n)) 0xFFF) in
  (dict_put c' b, bs ++ [b]).
Proof.
  induction n as [|n IH]; intros i offset c.
  - simpl. now rewrite Z.add_0_r.
  - change (copy_bytes (Datatypes.S (Datatypes.S n)) i offset c) with
      (let b := dict_get c (Z.land (offset + i) 0xFFF) in
       let '(c', bs) := copy_bytes (Datatypes.S n) (i + 1) offset (dict_put c b) in
       (c', b :: bs)).
    cbv zeta. rewrite IH.
    change (copy_bytes (Datatypes.S n) i offset c) with
      (let b := dict_get c (Z.land (offset + i) 0xFFF) in
       let '(c', bs) := copy_bytes n (i + 1) offset (dict_put c b) in
       (c', b :: bs)).
    cbv zeta.
    destruct (copy_bytes n (i + 1) offset _) as [c1 bs1].
    replace (i + 1 + Z.of_nat n) with (i + Z.of_nat (Datatypes.S n)) by lia.
    reflexivity.
Qed.

Lemma copy_bytes_ring n : forall offset c,
  0 <= dict_index c < 4096 ->
  (dict_buf (fst (copy_bytes n 0 offset c)),
   dict_index (fst (copy_bytes n 0 offset c)),
   snd (copy_bytes n 0 offset c))
  = ring_copy n offset (dict_buf c) (dict_index c).
Proof.
  induction n as [|n IH]; intros offset c Hi; [reflexivity|].
  rewrite copy_bytes_snoc. specialize (IH offset c Hi).
  pose proof (copy_bytes_frame n 0 offset c) as Fr. cbv zeta in Fr.
  destruct (copy_bytes n 0 offset c) as [c1 bs1]. cbn [fst snd] in *.
  destruct Fr as (_ & _ & _ & _ & _ & _ & Hi1 & _). specialize (Hi1 Hi).
  cbn [ring_copy]. rewrite <- IH. unfold ring_put, dict_put, dict_get.
  cbn [dict_buf dict_index fst snd].
  change 0xFFF with (Z.ones 12). rewrite !Z.land_ones by lia.
  rewrite wrap64_small by lia. rewrite Z.add_0_l.
  reflexivity.
Qed.

(** ** Properties of the decoder *)

Lemma decoder_too_small block :
  vec_size block < 12 ->
  decompressLZSSBlock block = Finished (Thrown BlockTooSmall).
Proof.
  intros H. unfold decompressLZSSBlock.
  now replace (vec_size block <? 12) with true by (symmetry; now apply Z.ltb_lt).
Qed.

(** C5: the decoder always ends by a return or a throw, and it throws
    exactly when the block is shorter than 12 bytes, or
    [off_literals >= block length], or [off_pairs >= block length], or
    [off_literals < 8], or a pass of its loop processes a literal-flagged bit
    with the literal cursor at or beyond [off_pairs], or a pass processes a
    reference-flagged bit with fewer than 2 bytes left before the end of the
    block. *)
Theorem decoder_fails_exactly block :
  vec_size block <= max_size ->
  let n := vec_size block in
  let ol := header_word block 0 in
  let op := header_word block 4 in
  let visited s :=
    steps (decoder_body block ol op) (initial_cursors ol op, []) s in
  (exists r, decompressLZSSBlock block = Finished r) /\
  ((exists e, decompressLZSSBlock block = Finished (Thrown e)) <->
   n < 12 \/ ol >= n \/ op >= n \/ ol < 8 \/
   (exists s, visited s /\ literals_exhausted block 0 ol op (fst s)) \/
   (exists s, visited s /\ pairs_exhausted block 0 n ol (fst s))).
Proof.
  intros Hm n ol op visited.
  destruct (Z.lt_ge_cases n 12) as [Small|Big].
  { rewrite (decoder_too_small block Small). split; eauto. split; eauto. }
  destruct (decoder_header block Big)
    as (ol' & op' & _ & _ & El & Ep & Rl & Rp & D).
  fold ol in El. fold op in Ep. subst ol' op'. fold n in D. rewrite D.
  destruct ((ol >=? n) || (op >=? n) || (ol <? 8)) eqn:Chk.
  { split; eauto. split; [intros _|eauto].
    rewrite !orb_true_iff, !Z.geb_leb, !Z.leb_le, Z.ltb_lt in Chk. lia. }
  apply header_checks in Chk. destruct Chk as (Hl & Hp).
  assert (Inv : forall s, visited s -> cursors_ok n ol op (fst s)).
  { intros s Hs.
    apply (decoder_steps_inv block ol op Hm Hl ltac:(lia) s Hs). }
  split; [apply (decoder_loop_finishes block ol op Hm Hl); lia|].
  split.
  - intros (e & W). apply while_finished in W. destruct W as (s & Hs & He).
    rewrite decoder_body_machine in He. fold n in He.
    destruct (machine block 0 n ol op (fst s)) as [[c' bs]|[| | |c']|] eqn:M;
      try discriminate.
    + do 4 right. left. exists s. split; [exact Hs|].
      apply (machine_literals_end block 0 n ol op ltac:(lia) ltac:(lia) Hm
               ltac:(lia) ltac:(lia) _ (Inv s Hs)). exact M.
    + do 5 right. exists s. split; [exact Hs|].
      apply (machine_pairs_end block 0 n ol op ltac:(lia) ltac:(lia) Hm
               ltac:(lia) ltac:(lia) _ (Inv s Hs)). exact M.
  - intros [X|[X|[X|[X|[(s & Hs & X)|(s & Hs & X)]]]]]; try lia.
    + exists LiteralsExhausted.
      apply (decoder_loop_exit block ol op Hm Hl ltac:(lia) s _ Hs).
      rewrite decoder_body_machine. fold n.
      apply (machine_literals_end block 0 n ol op ltac:(lia) ltac:(lia) Hm
               ltac:(lia) ltac:(lia) _ (Inv s Hs)) in X.
      now rewrite X.
    + exists PairsExhausted.
      apply (decoder_loop_exit block ol op Hm Hl ltac:(lia) s _ Hs).
      rewrite decoder_body_machine. fold n.
      apply (machine_pairs_end block 0 n ol op ltac:(lia) ltac:(lia) Hm
               ltac:(lia) ltac:(lia) _ (Inv s Hs)) in X.
      now rewrite X.
Qed.

(** C8: when a pass of the decoder's loop starts with the mask exhausted and
    fewer than 4 bytes of flag stream before [off_literals], the pass leaves
    the loop and the decoder returns the output accumulated so far; the
    warning is written exactly when the flag cursor is strictly before
    [off_literals]. *)
Theorem decoder_flags_end_is_clean block s :
  vec_size block <= max_size -> 12 <= vec_size block ->
  let ol := header_word block 0 in
  let op := header_word block 4 in
  8 <= ol < vec_size block -> op < vec_size block ->
  steps (decoder_body block ol op) (initial_cursors ol op, []) s ->
  flags_exhausted ol (fst s) ->
  decoder_body block ol op s
  = Exit (Returned (snd s) (flags_pos (fst s) <? ol)) /\
  decompressLZSSBlock block
  = Finished (Returned (snd s) (flags_pos (fst s) <? ol)).
Proof.
  intros Hm Big ol op Hl Hp Hs X.
  destruct (decoder_header block Big)
    as (ol' & op' & _ & _ & El & Ep & Rl & Rp & D).
  fold ol in El. fold op in Ep. subst ol' op'.
  assert (B : decoder_body block ol op s
              = Exit (Returned (snd s) (flags_pos (fst s) <? ol))).
  { rewrite decoder_body_machine.
    apply (machine_flags_end block 0 (vec_size block) ol op ltac:(lia)
             ltac:(lia) Hm ltac:(lia) ltac:(lia) _
             (decoder_steps_inv block ol op Hm Hl ltac:(lia) s Hs)) in X.
    now rewrite X. }
  split; [exact B|]. rewrite D.
  replace ((ol >=? vec_size block) || (op >=? vec_size block) || (ol <? 8))
    with false by (symmetry; apply header_checks; lia).
  apply (decoder_loop_exit block ol op Hm Hl ltac:(lia) s _ Hs B).
Qed.

(** One pass of the decoder's loop against the specification's dictionary:
    a literal pass is [ring_put] of the literal read at the literal cursor, a
    reference pass is [ring_copy] of the pair code read at the pair cursor. *)
Lemma decoder_pass_dictionary block s s' :
  vec_size block <= max_size -> 12 <= vec_size block ->
  let ol := header_word block 0 in
  let op := header_word block 4 in
  8 <= ol < vec_size block -> op < vec_size block ->
  steps (decoder_body block ol op) (initial_cursors ol op, []) s ->
  decoder_body block ol op s = Continue s' ->
  length (dict_buf (fst s)) = 4096%nat /\
  0 <= dict_index (fst s) < 4096 /\
  ((exists b,
      load8 block (lit_pos (fst s)) = Some b /\
      snd s' = snd s ++ [b] /\
      (dict_buf (fst s'), dict_index (fst s'))
      = ring_put (dict_buf (fst s)) (dict_index (fst s)) b)
   \/
   (exists p offset len bs,
      load16 block (pair_pos (fst s)) = Some p /\
      p = 2 ^ 4 * offset + (len - 2) /\
      0 < offset < 2 ^ 12 /\ 2 <= len <= 17 /\
      snd s' = snd s ++ bs /\ Z.of_nat (length bs) = len /\
      (dict_buf (fst s'), dict_index (fst s'), bs)
      = ring_copy (Z.to_nat len) offset
          (dict_buf (fst s)) (dict_index (fst s)))).
Proof.
  intros Hm Big ol op Hl Hp Hs E.
  assert (Rp : 0 <= op).
  { destruct (decoder_header block Big)
      as (ol' & op' & _ & _ & _ & Ep & _ & Rp & _).
    fold op in Ep. subst op'. lia. }
  pose proof (decoder_steps_inv block ol op Hm Hl ltac:(lia) s Hs) as Hok.
  cbv beta in Hok.
  destruct (decoder_continue block ol op Hm Hl ltac:(lia) s s' Hok E)
    as (_ & _ & bs & Eo & M).
  pose proof (machine_pass block 0 (vec_size block) ol op ltac:(lia)
                ltac:(lia) Hm ltac:(lia) ltac:(lia) _ Hok) as P.
  rewrite M in P.
  split; [now destruct Hok|]. split; [now destruct Hok|].
  remember (Continue (fst s', bs)) as r eqn:Er.
  destruct P as [ | | c1 b R B L Eb | | | c1 p R B L Ep Rg ];
    try discriminate.
  - left. exists b.
    assert (Ec : fst s' = dict_put (next_literal (shift_mask c1)) b)
      by congruence.
    assert (Eb' : bs = [b]) by congruence.
    destruct (flag_ready_ok block 0 (vec_size block) ol op ltac:(lia)
                ltac:(lia) Hm ltac:(lia) ltac:(lia) _ _ Hok R)
      as (_ & _ & _ & _ & Ed & Ei & _).
    rewrite Z.add_0_l in Eb.
    split; [exact Eb|]. split; [congruence|].
    rewrite Ec. unfold ring_put, dict_put.
    cbn [dict_buf dict_index next_literal shift_mask].
    rewrite Ed, Ei. change 0xFFF with (Z.ones 12).
    rewrite Z.land_ones by lia.
    rewrite wrap64_small by (destruct Hok; lia). reflexivity.
  - right. exists p, (p / 2 ^ 4), (p mod 2 ^ 4 + 2), bs.
    assert (Ec : copy_bytes (Z.to_nat (p mod 2 ^ 4 + 2)) 0 (p / 2 ^ 4)
                   (next_pair (shift_mask c1)) = (fst s', bs))
      by congruence.
    destruct (flag_ready_ok block 0 (vec_size block) ol op ltac:(lia)
                ltac:(lia) Hm ltac:(lia) ltac:(lia) _ _ Hok R)
      as (_ & _ & _ & _ & Ed & Ei & _).
    pose proof (Z.mod_pos_bound p (2 ^ 4) ltac:(lia)) as Bm.
    pose proof (copy_bytes_frame (Z.to_nat (p mod 2 ^ 4 + 2)) 0 (p / 2 ^ 4)
                  (next_pair (shift_mask c1))) as Fr.
    pose proof (copy_bytes_ring (Z.to_nat (p mod 2 ^ 4 + 2)) (p / 2 ^ 4)
                  (next_pair (shift_mask c1))) as Rg'.
    rewrite Ec in Fr, Rg'. cbn [fst snd] in Fr, Rg'.
    cbn [dict_buf dict_index next_pair shift_mask] in Rg'.
    rewrite Ed, Ei in Rg'.
    destruct Fr as (_ & _ & _ & _ & _ & _ & _ & Fl).
    rewrite Z.add_0_l in Ep.
    split; [exact Ep|].
    split; [pose proof (Z.div_mod p (2 ^ 4) ltac:(lia)); lia|].
    split; [exact Rg|]. split; [lia|]. split; [exact Eo|].
    split; [lia|]. apply Rg'. now destruct Hok.
Qed.

(** What the decoder returns is the output of the state its loop leaves
    from. *)
Lemma decoder_exit_output block ol op s out warned :
  decoder_body block ol op s = Exit (Returned out warned) -> out = snd s.
Proof.
  rewrite decoder_body_machine. unfold decoder_view.
  destruct (machine _ _ _ _ _ _) as [[c' bs]|[| | |c']|]; try discriminate;
    intros E; congruence.
Qed.

(** The passes of a loop form one chain: a state reached on the way is
    followed by the state the loop leaves from. *)
Lemma steps_linear {S R : Type} (body : S -> flow S R) a s last r :
  steps body a s -> steps body a last -> body last = Exit r ->
  steps body s last.
Proof.
  intros Hs. revert last. induction Hs as [a|a a1 s E _ IH]; intros last Hl He.
  - assumption.
  - inversion Hl as [|x a1' y E' Hl']; subst.
    + congruence.
    + assert (a1' = a1) by congruence. subst a1'. now apply IH.
Qed.

(** C7: every run of [decompressLZSSBlock] that gets past the header checks
    is a run of the loop from the dictionary of 4096 zero bytes with the
    cursor at index 1 and an empty output, up to the state the loop leaves
    from, whose result the decoder returns (the output returned is the output
    of that state).  Every pass on the way reads a literal or a pair code: a
    literal pass emits the literal and writes it at the cursor, which
    advances modulo 4096; a reference pass reads a pair code made of a
    12-bit offset (high bits) and of [length - 2] (low 4 bits), and copies
    [length] bytes as [ring_copy] does: byte [i] from index
    [(offset + i) mod 4096], each emitted and written back at the cursor
    before the next is read. *)
Theorem decoder_run_dictionary block :
  vec_size block <= max_size -> 12 <= vec_size block ->
  let ol := header_word block 0 in
  let op := header_word block 4 in
  let body := decoder_body block ol op in
  let start := (initial_cursors ol op, []) in
  8 <= ol < vec_size block -> op < vec_size block ->
  exists last r,
    decompressLZSSBlock block = Finished r /\
    steps body start last /\ body last = Exit r /\
    (forall out warned, r = Returned out warned -> out = snd last) /\
    dict_buf (fst start) = repeat x00 4096 /\
    dict_index (fst start) = 1 /\
    snd start = [] /\
    forall s s',
      steps body start s -> body s = Continue s' ->
      steps body s' last /\
      length (dict_buf (fst s)) = 4096%nat /\
      0 <= dict_index (fst s) < 4096 /\
      ((exists b,
          load8 block (lit_pos (fst s)) = Some b /\
          snd s' = snd s ++ [b] /\
          (dict_buf (fst s'), dict_index (fst s'))
          = ring_put (dict_buf (fst s)) (dict_index (fst s)) b)
       \/
       (exists p offset len bs,
          load16 block (pair_pos (fst s)) = Some p /\
          p = 2 ^ 4 * offset + (len - 2) /\
          0 < offset < 2 ^ 12 /\ 2 <= len <= 17 /\
          snd s' = snd s ++ bs /\ Z.of_nat (length bs) = len /\
          (dict_buf (fst s'), dict_index (fst s'), bs)
          = ring_copy (Z.to_nat len) offset
              (dict_buf (fst s)) (dict_index (fst s)))).
Proof.
  intros Hm Big ol op body start Hl Hp.
  destruct (decoder_header block Big)
    as (ol' & op' & _ & _ & El & Ep & Rl & Rp & D).
  fold ol in El. fold op in Ep. subst ol' op'.
  replace ((ol >=? vec_size block) || (op >=? vec_size block) || (ol <? 8))
    with false in D by (symmetry; apply header_checks; lia).
  destruct (decoder_loop_finishes block ol op Hm Hl ltac:(lia)) as (r & W).
  fold body start in D, W.
  destruct (while_finished body _ _ _ W) as (last & Hs & He).
  exists last, r.
  split; [congruence|]. split; [exact Hs|]. split; [exact He|].
  split.
  { intros out warned ->.
    exact (decoder_exit_output block ol op last out warned He). }
  split; [reflexivity|]. split; [reflexivity|]. split; [reflexivity|].
  intros s s' Hs' E. split.
  - assert (Hn : steps body s last) by exact (steps_linear body _ _ _ _ Hs' Hs He).
    inversion Hn as [|x y z E' Hn']; subst.
    + congruence.
    + assert (y = s') by congruence. now subst y.
  - exact (decoder_pass_dictionary block s s' Hm Big Hl Hp Hs' E).
Qed.


(** ** The scanner *)

(** A buffer shorter than 12 bytes makes [n - 12] wrap around: the candidate
    loop is entered and reads a header that is not there. *)
Lemma scan_short_out_of_bounds buf :
  vec_size buf < 12 -> scanContainer buf = OutOfBounds.
Proof.
  intros H. assert (H0 : 0 <= vec_size buf) by (unfold vec_size; lia).
  unfold scanContainer.
  assert (W : wrap64 (vec_size buf - 12) = vec_size buf - 12 + 2 ^ 64).
  { unfold wrap64. symmetry. apply (Z.mod_unique _ _ (-1)); lia. }
  destruct (Z.lt_ge_cases (vec_size buf) 8) as [S8|B8].
  - assert (F : (scan_fuel (vec_size buf) = Datatypes.S (Nat.pred (scan_fuel (vec_size buf))))).
    { unfold scan_fuel.
      assert (0 <= vec_size buf / 4) by (apply Z.div_pos; lia). lia. }
    rewrite F. cbn [while_true]. unfold candidate_body at 1. rewrite W.
    replace (0 <=? vec_size buf - 12 + 2 ^ 64) with true
      by (symmetry; apply Z.leb_le; lia).
    cbn [negb].
    destruct (load32 buf (0 + 0)) as [ol|]; [|reflexivity].
    now rewrite (load32_none buf (0 + 4)) by lia.
  - assert (F : scan_fuel (vec_size buf) = 4%nat).
    { unfold scan_fuel.
      assert (vec_size buf / 4 = 2)
        by (symmetry; apply (Z.div_unique _ 4 2 (vec_size buf - 8)); lia).
      lia. }
    rewrite F. cbn [while_true]. unfold candidate_body at 1. rewrite W.
    replace (0 <=? vec_size buf - 12 + 2 ^ 64) with true
      by (symmetry; apply Z.leb_le; lia).
    cbn [negb].
    destruct (load32_some buf (0 + 0)) as (ol & E0 & _); [lia | lia |].
    destruct (load32_some buf (0 + 4)) as (op & E4 & _); [lia | lia |].
    rewrite E0, E4.
    assert (V : validateAndGetConsumedSize buf 0 = Finished (DVR false 0 0)).
    { unfold validateAndGetConsumedSize.
      change (wrap64 (0 + 12)) with 12.
      now replace (12 >? vec_size buf) with true
        by (symmetry; rewrite Z.gtb_ltb; apply Z.ltb_lt; lia). }
    assert (Second : candidate_body buf (wrap64 (0 + 4), []) = Fault).
    { change (wrap64 (0 + 4)) with 4. unfold candidate_body. rewrite W.
      replace (4 <=? vec_size buf - 12 + 2 ^ 64) with true
        by (symmetry; apply Z.leb_le; lia).
      cbn [negb].
      destruct (load32 buf (4 + 0)) as [ol'|]; [|reflexivity].
      now rewrite (load32_none buf (4 + 4)) by lia. }
    rewrite V. cbn [DecompressValidationResult.success andb].
    destruct ((8 <=? ol) && (ol <=? wrap64 (vec_size buf - 0)) && (8 <=? op)
              && (op <=? wrap64 (vec_size buf - 0)) && (op >=? ol));
      rewrite Second; reflexivity.
Qed.

(** *** Ordered pairs of a list *)

Lemma pairs_snoc {A} (R : A -> A -> Prop) l x :
  ForallOrdPairs R l -> Forall (fun a => R a x) l ->
  ForallOrdPairs R (l ++ [x]).
Proof.
  induction 1 as [|a l Ha Hl IH]; intros F; simpl.
  - repeat constructor.
  - inversion F; subst. constructor; [|auto].
    apply Forall_app. split; [assumption | repeat constructor; assumption].
Qed.

Lemma pairs_nth {A} (R : A -> A -> Prop) l :
  ForallOrdPairs R l ->
  forall i j a b, (i < j)%nat ->
    nth_error l i = Some a -> nth_error l j = Some b -> R a b.
Proof.
  induction 1 as [|x l Hx Hl IH]; intros i j a b Lt Ei Ej.
  - destruct i; discriminate.
  - destruct j as [|j]; [lia|]. destruct i as [|i]; simpl in *.
    + injection Ei as <-. apply nth_error_In in Ej.
      rewrite Forall_forall in Hx. auto.
    + apply (IH i j); auto. lia.
Qed.

(** *** The candidate loop on a buffer of at least 12 bytes *)

Section CandidateLoop.
Variable buf : list byte.
Let n := vec_size buf.
Hypothesis buf_fits : n <= max_size.
Hypothesis buf_header : 12 <= n.

Let body := candidate_body buf.
Let inv (s : Z * list ScanResult.t) :=
  0 <= fst s <= n - 8 /\
  Forall (fun r => accepted buf r /\ ScanResult.offset r < fst s) (snd s) /\
  ForallOrdPairs before (snd s).
Let bound (s : Z * list ScanResult.t) := Z.to_nat ((n - fst s) / 4).

Lemma candidate_pass s :
  inv s ->
  (body s = Exit (Finished (snd s))) \/
  (exists s', body s = Continue s' /\ inv s' /\ (bound s' < bound s)%nat).
Proof.
  destruct s as [off results]. unfold inv, bound, body. cbn [fst snd].
  intros (Ho & Fa & Fp). unfold candidate_body, max_size in *. fold n.
  rewrite (wrap64_small (n - 12)) by lia.
  destruct (off <=? n - 12) eqn:T; cbn [negb]; [|now left].
  apply Z.leb_le in T. right.
  destruct (load32_some buf (off + 0)) as (ol & E0 & _); [lia | fold n; lia |].
  destruct (load32_some buf (off + 4)) as (op & E4 & _); [lia | fold n; lia |].
  rewrite E0, E4, (wrap64_small (off + 4)) by lia.
  assert (B : (Z.to_nat ((n - (off + 4)) / 4) < Z.to_nat ((n - off) / 4))%nat).
  { replace (n - (off + 4)) with (n - off + (-1) * 4) by lia.
    rewrite Z.div_add by lia.
    assert (3 <= (n - off) / 4) by (apply Z.div_le_lower_bound; lia). lia. }
  assert (Keep : inv (off + 4, results)).
  { unfold inv. cbn [fst snd]. split; [lia|]. split; [|assumption].
    eapply Forall_impl; [|exact Fa]. cbv beta. intros r (? & ?). split; [assumption | lia]. }
  destruct ((8 <=? ol) && (ol <=? wrap64 (n - off)) && (8 <=? op)
            && (op <=? wrap64 (n - off)) && (op >=? ol));
    [|exists (off + 4, results); auto].
  destruct (validator_in_range buf off ltac:(unfold max_size; fold n; lia)
              ltac:(lia) ltac:(lia)) as (res & V).
  rewrite V.
  destruct (DecompressValidationResult.success res
            && (DecompressValidationResult.consumedBytes res >? 0)) eqn:A;
    [|exists (off + 4, results); auto].
  eexists. split; [reflexivity|]. split; [|exact B].
  apply andb_true_iff in A. destruct A as (A & _).
  destruct res as [ok c d]. cbn in A. subst ok.
  unfold inv. cbn [fst snd DecompressValidationResult.consumedBytes
                     DecompressValidationResult.decompressedSize].
  split; [lia|]. split.
  - apply Forall_app. split.
    + eapply Forall_impl; [|exact Fa]. cbv beta. intros r (? & ?).
      split; [assumption | lia].
    + repeat constructor; [exact V | simpl; lia].
  - apply pairs_snoc; [assumption|].
    eapply Forall_impl; [|exact Fa]. cbv beta. intros r (_ & ?).
    unfold before. simpl. lia.
Qed.

Lemma candidate_inv_kept s s' : inv s -> body s = Continue s' -> inv s'.
Proof.
  intros H E. destruct (candidate_pass s H) as [X|(s1 & X & Hi & _)];
    congruence.
Qed.

Lemma candidate_bound_decreases s s' :
  inv s -> body s = Continue s' -> (bound s' < bound s)%nat.
Proof.
  intros H E. destruct (candidate_pass s H) as [X|(s1 & X & _ & Hb)];
    congruence.
Qed.

(** The candidate loop ends, and its candidates are accepted blocks at
    strictly increasing offsets. *)
Lemma candidate_loop_finishes :
  exists results,
    while_true body (scan_fuel n) (0, []) = Finished (Finished results) /\
    Forall (accepted buf) results /\ ForallOrdPairs before results.
Proof.
  assert (I0 : inv (0, [])).
  { unfold inv. cbn [fst snd]. split; [lia|]. split; constructor. }
  assert (F0 : (bound (0%Z, []) < scan_fuel n)%nat).
  { unfold bound, scan_fuel. cbn [fst]. rewrite Z.sub_0_r.
    assert (0 <= n / 4) by (apply Z.div_pos; lia). lia. }
  destruct (while_true body (scan_fuel n) (0, [])) as [r| |] eqn:W.
  - apply while_finished in W. destruct W as (s & Hs & He).
    pose proof (steps_inv body inv candidate_inv_kept _ _ Hs I0) as Hi.
    destruct (candidate_pass s Hi) as [X|(s1 & X & _)]; [|congruence].
    assert (r = Finished (snd s)) by congruence. subst r.
    exists (snd s). split; [reflexivity|].
    destruct Hi as (_ & Fa & Fp). split; [|assumption].
    eapply Forall_impl; [|exact Fa]. cbv beta. tauto.
  - apply while_out_of_bounds in W. destruct W as (s & Hs & He).
    pose proof (steps_inv body inv candidate_inv_kept _ _ Hs I0) as Hi.
    destruct (candidate_pass s Hi) as [X|(s1 & X & _)]; congruence.
  - exfalso. revert W.
    apply (while_terminates body inv bound candidate_inv_kept
             candidate_bound_decreases _ _ I0 F0).
Qed.
End CandidateLoop.

(** *** Sorting and deduplication *)

(** The candidates are found at increasing offsets: sorting leaves them as
    they are. *)
Lemma sort_increasing l : ForallOrdPairs before l -> sort l = l.
Proof.
  induction 1 as [|a l Ha Hl IH]; [reflexivity|].
  unfold sort in *. cbn [fold_right]. rewrite IH.
  destruct l as [|x l']; [reflexivity|]. cbn [sort_insert].
  inversion Ha as [|? ? Hax _]; subst. unfold before in Hax.
  unfold ScanResult.lt.
  replace (ScanResult.offset x =? ScanResult.offset a) with false
    by (symmetry; apply Z.eqb_neq; lia).
  cbn [negb].
  now replace (ScanResult.offset x <? ScanResult.offset a) with false
    by (symmetry; apply Z.ltb_ge; lia).
Qed.

Lemma overlaps_kept_false off end_ kept :
  overlaps_kept off end_ kept = false ->
  Forall (fun k => end_ <= fst k \/ snd k <= off) kept.
Proof.
  unfold overlaps_kept. induction kept as [|k kept IH]; simpl; intros H;
    constructor.
  - apply orb_false_iff in H. destruct H as (H & _).
    apply negb_false_iff, orb_true_iff in H.
    rewrite Z.leb_le, Z.geb_leb, Z.leb_le in H. exact H.
  - apply IH. apply orb_false_iff in H. tauto.
Qed.

Section Deduplicate.
Variable buf : list byte.
Hypothesis buf_fits : vec_size buf <= max_size.

Lemma kept_range_accepted r :
  accepted buf r ->
  kept_range r
  = (ScanResult.offset r, ScanResult.offset r + ScanResult.consumedSize r).
Proof.
  intros A. destruct (accepted_inside buf _ _ _ buf_fits A) as (? & ? & ?).
  unfold kept_range, max_size in *. now rewrite wrap64_small by lia.
Qed.

(** The deduplication loop, from any of its states. *)
Lemma dedup_fold rest : forall kept final,
  kept = map kept_range final ->
  Forall (accepted buf) final -> Forall (accepted buf) rest ->
  ForallOrdPairs before final -> ForallOrdPairs before rest ->
  Forall (fun a => Forall (before a) rest) final ->
  ForallOrdPairs intervals_disjoint final ->
  let res := snd (fold_left dedup_step rest (kept, final)) in
  Forall (accepted buf) res /\ ForallOrdPairs before res /\
  ForallOrdPairs intervals_disjoint res.
Proof.
  induction rest as [|r rest IH]; intros kept final Ek Af Ar Bf Br Bfr Df;
    cbv zeta; cbn [fold_left]; [cbn; auto|].
  inversion Ar as [|? ? Ar1 Ar2]; subst.
  inversion Br as [|? ? Br1 Br2]; subst.
  assert (Bfr' : Forall (fun a => Forall (before a) rest) final).
  { eapply Forall_impl; [|exact Bfr]. cbv beta. intros a Ha.
    now inversion Ha. }
  assert (Step : dedup_step (map kept_range final, final) r =
            if negb (overlaps_kept (ScanResult.offset r)
                       (ScanResult.offset r + ScanResult.consumedSize r)
                       (map kept_range final))
            then (map kept_range final ++ [kept_range r], final ++ [r])
            else (map kept_range final, final)).
  { unfold dedup_step. rewrite (kept_range_accepted r Ar1).
    destruct (accepted_inside buf _ _ _ buf_fits Ar1) as (? & ? & ?).
    unfold max_size in *. now rewrite wrap64_small by lia. }
  rewrite Step.
  destruct (overlaps_kept _ _ _) eqn:O; cbn [negb].
  - apply IH; auto.
  - apply IH; auto.
    + rewrite map_app. reflexivity.
    + apply Forall_app. split; [assumption | repeat constructor; assumption].
    + apply pairs_snoc; [assumption|].
      eapply Forall_impl; [|exact Bfr]. cbv beta. intros a Ha.
      now inversion Ha.
    + apply Forall_app. split; [assumption | repeat constructor; assumption].
    + apply pairs_snoc; [assumption|].
      apply overlaps_kept_false in O. rewrite Forall_map in O.
      rewrite Forall_forall in O, Af. apply Forall_forall. intros a Ia.
      specialize (O a Ia). rewrite (kept_range_accepted a (Af a Ia)) in O.
      cbn [fst snd] in O. unfold intervals_disjoint. intros x. lia.
Qed.

Lemma deduplicate_ok results :
  Forall (accepted buf) results -> ForallOrdPairs before results ->
  Forall (accepted buf) (deduplicate results) /\
  ForallOrdPairs before (deduplicate results) /\
  ForallOrdPairs intervals_disjoint (deduplicate results).
Proof.
  intros A B. unfold deduplicate.
  apply dedup_fold; auto; constructor.
Qed.
End Deduplicate.

(** The scanner on a buffer of at least 12 bytes. *)
Lemma scan_finishes buf :
  12 <= vec_size buf <= max_size ->
  exists res,
    scanContainer buf = Finished res /\
    Forall (accepted buf) res /\ ForallOrdPairs before res /\
    ForallOrdPairs intervals_disjoint res.
Proof.
  intros (H12 & Hm).
  destruct (candidate_loop_finishes buf Hm H12) as (results & W & A & B).
  unfold scanContainer. rewrite W. rewrite (sort_increasing results B).
  exists (deduplicate results). split; [reflexivity|].
  now apply deduplicate_ok.
Qed.

Lemma scan_result buf res :
  vec_size buf <= max_size -> scanContainer buf = Finished res ->
  Forall (accepted buf) res /\ ForallOrdPairs before res /\
  ForallOrdPairs intervals_disjoint res.
Proof.
  intros Hm S. destruct (Z.lt_ge_cases (vec_size buf) 12) as [Small|Big].
  - rewrite (scan_short_out_of_bounds buf Small) in S. discriminate.
  - destruct (scan_finishes buf (conj Big Hm)) as (res' & S' & P).
    assert (res' = res) by congruence. now subst.
Qed.

Lemma intervals_disjoint_sym a b :
  intervals_disjoint a b -> intervals_disjoint b a.
Proof. unfold intervals_disjoint. intros H x. specialize (H x). tauto. Qed.

(** ** Properties of the scanner *)

(** C6: whenever the scanner returns a result (it does for every buffer of
    at least 12 bytes), the result is strictly increasing in [offset] and
    any two distinct descriptors in it have disjoint half-open intervals
    [[offset, offset + consumed_size)]. *)
Theorem scan_ordered_and_disjoint buf :
  vec_size buf <= max_size ->
  (12 <= vec_size buf -> exists res, scanContainer buf = Finished res) /\
  forall res,
    scanContainer buf = Finished res ->
    (forall i j a b, (i < j)%nat ->
       nth_error res i = Some a -> nth_error res j = Some b ->
       ScanResult.offset a < ScanResult.offset b) /\
    (forall i j a b, i <> j ->
       nth_error res i = Some a -> nth_error res j = Some b ->
       intervals_disjoint a b).
Proof.
  intros Hm. split.
  - intros H12. destruct (scan_finishes buf (conj H12 Hm)) as (res & S & _).
    eauto.
  - intros res S. destruct (scan_result buf res Hm S) as (_ & B & D). split.
    + intros i j a b. apply (pairs_nth before res B).
    + intros i j a b N Ei Ej.
      destruct (Nat.lt_total i j) as [L|[L|L]]; [| contradiction |].
      * apply (pairs_nth intervals_disjoint res D i j); assumption.
      * apply intervals_disjoint_sym.
        apply (pairs_nth intervals_disjoint res D j i); assumption.
Qed.

(** C9: a block the validator accepts lies inside the buffer
    ([start_offset + consumed_size <= buffer length]) and has
    [consumed_size >= 14]; so does every descriptor in a result of the
    scanner. *)
Theorem accepted_blocks_inside buf :
  vec_size buf <= max_size ->
  (forall start c d,
     validateAndGetConsumedSize buf start = Finished (DVR true c d) ->
     0 <= start /\ start + c <= vec_size buf /\ 14 <= c) /\
  (forall res,
     scanContainer buf = Finished res ->
     Forall (fun r =>
               0 <= ScanResult.offset r /\
               ScanResult.offset r + ScanResult.consumedSize r <= vec_size buf
               /\ 14 <= ScanResult.consumedSize r) res).
Proof.
  intros Hm. split.
  - intros start c d V. exact (accepted_inside buf start c d Hm V).
  - intros res S. destruct (scan_result buf res Hm S) as (A & _).
    eapply Forall_impl; [|exact A]. cbv beta. intros r Ar.
    exact (accepted_inside buf _ _ _ Hm Ar).
Qed.

(** C10: there is a buffer and a start offset at which the validator reports
    [ok = true] with [decompressed_size = 0], the first flag bit processed
    selecting a reference whose pair code is the terminator; the scanner
    keeps that block in its result. *)
Theorem empty_block_accepted :
  exists buf start c,
    validateAndGetConsumedSize buf start = Finished (DVR true c 0) /\
    terminator_met buf start (vec_size buf - start) 12 (initial_cursors 12 12)
    /\ exists res, scanContainer buf = Finished res /\
                   In (ScanResult.mk start c 0) res.
Proof.
  exists empty_block, 0, 14. split; [vm_compute; reflexivity|]. split.
  - exists (reloaded (initial_cursors 12 12) 0), 0.
    split; [apply ready_reloaded; [reflexivity | simpl; lia | reflexivity]|].
    split; [reflexivity|]. split; [vm_compute; discriminate|].
    split; reflexivity.
  - eexists. split; [vm_compute; reflexivity|]. left. reflexivity.
Qed.

(** C1, as the code has it: on a 1-byte buffer [n - 12] wraps around to
    [2^64 - 11], the candidate loop is entered at [off = 0] and reads the two
    header words outside the buffer. *)
Theorem scan_one_byte_out_of_bounds :
  scanContainer (bytes [0]) = OutOfBounds.
Proof. vm_compute. reflexivity. Qed.

(** The bound on the start offset is needed: for a start offset within 12 of
    [2^64], which no buffer holds and the scanner never passes, the sum
    [startOffset + 12] wraps around, the guard of line 138 passes, and the
    header is read outside the buffer. *)
Example validate_wrapped_offset_out_of_bounds :
  validateAndGetConsumedSize (bytes [0;0;0;0; 0;0;0;0; 0;0;0;0]) (2 ^ 64 - 4)
  = OutOfBounds.
Proof. vm_compute. reflexivity. Qed.

(** ** The properties on the test vectors *)

(** The decoder on [sample_block]: the reference (offset 1, length 3) starts
    at the literal just written and reads two bytes that the same copy has
    produced. *)
Example sample_block_decoded :
  decompressLZSSBlock sample_block
  = Finished (Returned (bytes [0xAB; 0xAB; 0xAB; 0xAB]) false).
Proof. vm_compute. reflexivity. Qed.

Lemma validator_reads_inside_buffer_witness :
  validateAndGetConsumedSize starved_block 0 = Finished (DVR false 0 0).
Proof.
  destruct (validator_reads_inside_buffer starved_block) as (T & _).
  - vm_compute. discriminate.
  - destruct (T 0) as (r & V & F & _); [lia | lia |].
    rewrite V. f_equal. apply F.
    assert (E : Finished r = Finished (DVR false 0 0))
      by (rewrite <- V; vm_compute; reflexivity).
    assert (E' : r = DVR false 0 0) by congruence.
    now rewrite E'.
Defined.

Lemma validator_success_iff_terminator_witness :
  exists s,
    steps (validator_body sample_block 0 17 12 13) (initial_cursors 12 13, 0) s
    /\ terminator_met sample_block 0 17 12 (fst s)
    /\ 17 = pair_pos (fst s) + 2 /\ 4 = snd s.
Proof.
  pose proof (validator_success_iff_terminator sample_block 0 12 13) as T.
  cbv zeta in T.
  destruct T as (T & _).
  - vm_compute. discriminate.
  - lia.
  - vm_compute. discriminate.
  - reflexivity.
  - reflexivity.
  - reflexivity.
  - apply (T 17 4). vm_compute. reflexivity.
Defined.

Lemma decoder_fails_exactly_witness :
  exists e, decompressLZSSBlock starved_block = Finished (Thrown e).
Proof.
  pose proof (decoder_fails_exactly starved_block) as T. cbv zeta in T.
  destruct T as (_ & T); [vm_compute; discriminate|].
  apply T. do 4 right. left.
  exists (initial_cursors 12 12, []). split; [apply steps_here|].
  exists (reloaded (initial_cursors 12 12) 0x80000000).
  split; [apply ready_reloaded;
           [reflexivity | vm_compute; discriminate | reflexivity]|].
  split; [reflexivity | vm_compute; discriminate].
Defined.

Lemma decoder_flags_end_is_clean_witness :
  decompressLZSSBlock flagless_block = Finished (Returned [] true).
Proof.
  pose proof (decoder_flags_end_is_clean flagless_block
                (initial_cursors 10 10, [])) as T.
  cbv zeta in T.
  destruct T as (_ & T).
  - vm_compute. discriminate.
  - vm_compute. discriminate.
  - vm_compute. split; [discriminate | reflexivity].
  - vm_compute. reflexivity.
  - apply steps_here.
  - split; [reflexivity | vm_compute; reflexivity].
  - exact T.
Defined.

Lemma decoder_run_dictionary_witness :
  exists last,
    decompressLZSSBlock sample_block
    = Finished (Returned (bytes [0xAB; 0xAB; 0xAB; 0xAB]) false) /\
    steps (decoder_body sample_block 12 13) sample_after_copy last /\
    snd last = bytes [0xAB; 0xAB; 0xAB; 0xAB] /\
    length (dict_buf (fst sample_after_literal)) = 4096%nat.
Proof.
  pose proof (decoder_run_dictionary sample_block) as T.
  cbv zeta in T.
  destruct T as (last & r & D & _ & _ & O & _ & _ & _ & P).
  - vm_compute. discriminate.
  - vm_compute. discriminate.
  - vm_compute. split; [discriminate | reflexivity].
  - vm_compute. reflexivity.
  - assert (Er : Finished r
                 = Finished (Returned (bytes [0xAB; 0xAB; 0xAB; 0xAB]) false)).
    { rewrite <- D. vm_compute. reflexivity. }
    assert (Er' : r = Returned (bytes [0xAB; 0xAB; 0xAB; 0xAB]) false)
      by congruence.
    destruct (P sample_after_literal sample_after_copy) as (Hn & L & _).
    + apply (steps_next _ _ sample_after_literal); [|apply steps_here].
      vm_compute. reflexivity.
    + vm_compute. reflexivity.
    + exists last. split; [congruence|]. split; [exact Hn|].
      split; [|exact L]. symmetry. exact (O _ _ Er').
Defined.

Lemma scan_ordered_and_disjoint_witness :
  exists res, scanContainer two_blocks = Finished res /\ length res = 2%nat.
Proof.
  destruct (scan_ordered_and_disjoint two_blocks) as (T & _).
  - vm_compute. discriminate.
  - destruct T as (res & S); [vm_compute; discriminate|].
    exists res. split; [exact S|].
    assert (E : scanContainer two_blocks
                = Finished [ScanResult.mk 0 17 4; ScanResult.mk 20 14 0])
      by (vm_compute; reflexivity).
    rewrite E in S. injection S as <-. reflexivity.
Defined.

Lemma accepted_blocks_inside_witness :
  0 <= 0 /\ 0 + 17 <= vec_size sample_block /\ 14 <= 17.
Proof.
  destruct (accepted_blocks_inside sample_block) as (T & _).
  - vm_compute. discriminate.
  - apply (T 0 17 4). vm_compute. reflexivity.
Defined.

(** * Further properties of the code *)

(** ** Runs of the machine as runs of the two loops, and back *)

Lemma decoder_steps_run block ol op s s' :
  steps (decoder_body block ol op) s s' ->
  exists bs, run_to (machine block 0 (vec_size block) ol op) (fst s) bs (fst s')
             /\ snd s' = snd s ++ bs.
Proof.
  induction 1 as [s|s s1 s2 E _ IH].
  - exists []. split; [constructor | now rewrite app_nil_r].
  - rewrite decoder_body_machine in E.
    destruct (machine block 0 (vec_size block) ol op (fst s))
      as [[c' bs]|[| | |c']|] eqn:M; try discriminate.
    simpl in E. injection E as <-. destruct IH as (bs' & R & Eo). simpl in *.
    exists (bs ++ bs'). split; [econstructor; eauto|].
    now rewrite Eo, app_assoc.
Qed.

Lemma bump_app k1 k2 d : bump (k1 + k2) d = bump k2 (bump k1 d).
Proof.
  revert d. induction k1 as [|k1 IH]; intros d; simpl; [reflexivity|].
  apply IH.
Qed.

Lemma run_validator_steps buf start rem ol op c bs c' :
  run_to (machine buf start rem ol op) c bs c' ->
  forall d,
    steps (validator_body buf start rem ol op) (c, d)
      (c', bump (length bs) d).
Proof.
  induction 1 as [c|c c1 bs bs' c2 E _ IH]; intros d.
  - constructor.
  - eapply steps_next.
    + rewrite validator_body_machine. simpl fst. rewrite E. reflexivity.
    + simpl snd. rewrite length_app, bump_app. apply IH.
Qed.

(** ** From a block to a buffer that holds it *)

Section Extend.
Variables (buf : list byte) (start cn : Z).
Hypothesis start_nonneg : 0 <= start.
Hypothesis cn_nonneg : 0 <= cn.
Hypothesis cn_inside : start + cn <= vec_size buf.

Let block := slice buf start (start + cn).

Variables (rem off_literals off_pairs : Z).
Hypothesis cn_rem : cn <= rem.
Hypothesis rem_inside : start + rem <= vec_size buf.
Hypothesis buf_fits : vec_size buf <= max_size.
Hypothesis literals_range : 8 <= off_literals <= cn.
Hypothesis pairs_range : 0 <= off_pairs <= cn.

Lemma flag_ready_extend c c1 :
  flag_ready block 0 off_literals c c1 -> 0 <= flags_pos c ->
  flag_ready buf start off_literals c c1.
Proof.
  intros [M|w M G E] H; [now apply ready_kept|].
  apply ready_reloaded; try assumption.
  rewrite Z.add_0_l in E. unfold block in E.
  rewrite load32_slice in E by lia. assumption.
Qed.

(** Whatever a pass does on the block alone, except finding the pair stream
    exhausted, it does on the buffer. *)
Lemma pass_extend c r :
  cursors_ok cn off_literals off_pairs c ->
  pass block 0 cn off_literals off_pairs c r -> r <> Exit PairsEnd ->
  pass buf start rem off_literals off_pairs c r.
Proof.
  intros Hok P N.
  assert (Hf : 0 <= flags_pos c) by (destruct Hok; lia).
  assert (Hl : 0 <= lit_pos c) by (destruct Hok; lia).
  assert (Hp : 0 <= pair_pos c) by (destruct Hok; lia).
  destruct P as [X|c1 R B L|c1 b R B L Eb|c1 R B L|c1 p R B L Ep Z0
                |c1 p R B L Ep Z0].
  - now apply pass_flags_end.
  - eapply pass_literals_end;
      [eapply flag_ready_extend; eassumption | assumption | assumption].
  - eapply pass_literal;
      [eapply flag_ready_extend; eassumption | assumption | assumption |].
    rewrite Z.add_0_l in Eb. unfold block in Eb.
    rewrite load8_slice in Eb by lia. assumption.
  - contradiction.
  - eapply pass_terminator with (p := p);
      [eapply flag_ready_extend; eassumption | assumption | lia | | assumption].
    rewrite Z.add_0_l in Ep. unfold block in Ep.
    rewrite load16_slice in Ep by lia. assumption.
  - eapply pass_copy;
      [eapply flag_ready_extend; eassumption | assumption | lia | | assumption].
    rewrite Z.add_0_l in Ep. unfold block in Ep.
    rewrite load16_slice in Ep by lia. assumption.
Qed.

Lemma machine_extend c r :
  cursors_ok cn off_literals off_pairs c ->
  machine block 0 cn off_literals off_pairs c = r -> r <> Exit PairsEnd ->
  machine buf start rem off_literals off_pairs c = r.
Proof.
  intros Hok M N.
  pose proof (machine_pass block 0 cn off_literals off_pairs
                ltac:(lia) ltac:(unfold block; rewrite vec_size_slice; lia)
                ltac:(unfold block; rewrite vec_size_slice; lia)
                ltac:(lia) ltac:(lia) c Hok) as P.
  rewrite M in P. apply (pass_extend c r Hok) in P; [|assumption].
  assert (Hok' : cursors_ok rem off_literals off_pairs c).
  { destruct Hok. constructor; try assumption; lia. }
  pose proof (machine_pass buf start rem off_literals off_pairs
                start_nonneg rem_inside buf_fits ltac:(lia) ltac:(lia)
                c Hok') as P'.
  symmetry. eapply pass_fun; eauto.
Qed.

Lemma run_to_extend c bs c' :
  run_to (machine block 0 cn off_literals off_pairs) c bs c' ->
  cursors_ok cn off_literals off_pairs c ->
  run_to (machine buf start rem off_literals off_pairs) c bs c'.
Proof.
  induction 1 as [c|c c1 bs bs' c2 E R IH]; intros Hok; [constructor|].
  destruct (machine_continue block 0 cn off_literals off_pairs
              ltac:(lia) ltac:(unfold block; rewrite vec_size_slice; lia)
              ltac:(unfold block; rewrite vec_size_slice; lia)
              ltac:(lia) ltac:(lia) c c1 bs Hok E) as (Hok1 & _).
  econstructor.
  - apply machine_extend; [assumption | exact E | discriminate].
  - apply IH; assumption.
Qed.
End Extend.

Lemma slice_app_left block extra :
  slice (block ++ extra) 0 (0 + vec_size block) = block.
Proof.
  unfold slice, vec_size. cbn [Z.to_nat skipn].
  replace (Z.to_nat (0 + Z.of_nat (length block) - 0)) with (length block)
    by lia.
  rewrite firstn_app, firstn_all, Nat.sub_diag. cbn [firstn].
  apply app_nil_r.
Qed.

Lemma vec_size_app a b : vec_size (a ++ b) = vec_size a + vec_size b.
Proof. unfold vec_size. rewrite length_app. lia. Qed.

Lemma vec_size_nonneg v : 0 <= vec_size v.
Proof. unfold vec_size. lia. Qed.

(** ** Bytes after the end of a block *)

(** X1: when the decoder returns on a block, it returns the same output, with
    or without the warning as before, on the block followed by any further
    bytes. *)
Theorem decoder_ignores_trailing_bytes block extra out warned :
  vec_size (block ++ extra) <= max_size ->
  decompressLZSSBlock block = Finished (Returned out warned) ->
  decompressLZSSBlock (block ++ extra) = Finished (Returned out warned).
Proof.
  intros Hm D. set (buf := block ++ extra) in *.
  pose proof (vec_size_nonneg extra) as He.
  assert (Hn : vec_size buf = vec_size block + vec_size extra)
    by apply vec_size_app.
  assert (Sl : slice buf 0 (0 + vec_size block) = block)
    by apply slice_app_left.
  destruct (Z.lt_ge_cases (vec_size block) 12) as [Small|Big];
    [rewrite (decoder_too_small block Small) in D; discriminate|].
  destruct (decoder_header block Big)
    as (ol & op & E0 & E4 & _ & _ & Rl & Rp & Db).
  rewrite Db in D.
  destruct ((ol >=? vec_size block) || (op >=? vec_size block) || (ol <? 8))
    eqn:Chk; [discriminate|].
  apply header_checks in Chk. destruct Chk as (Hl & Hp).
  apply while_finished in D. destruct D as (s & Hs & Hx).
  pose proof (decoder_steps_inv block ol op ltac:(lia) Hl ltac:(lia) s Hs)
    as Hok. cbv beta in Hok.
  destruct (decoder_steps_run block ol op _ _ Hs) as (bs & R & Eo).
  cbn [fst snd app] in R, Eo.
  destruct (decoder_header buf ltac:(lia))
    as (ol' & op' & E0' & E4' & _ & _ & _ & _ & Dbuf).
  assert (L0 : load32 buf 0 = Some ol).
  { rewrite <- E0, <- Sl at 1.
    rewrite (load32_slice buf 0 (vec_size block)) by lia. reflexivity. }
  assert (L4 : load32 buf 4 = Some op).
  { rewrite <- E4, <- Sl at 1.
    rewrite (load32_slice buf 0 (vec_size block)) by lia. reflexivity. }
  assert (ol' = ol) by congruence. assert (op' = op) by congruence.
  subst ol' op'. rewrite Dbuf.
  replace ((ol >=? vec_size buf) || (op >=? vec_size buf) || (ol <? 8))
    with false by (symmetry; apply header_checks; lia).
  apply (decoder_loop_exit buf ol op Hm ltac:(lia) ltac:(lia) (fst s, bs)).
  - apply (run_decoder_steps buf ol op _ bs (fst s) ).
    apply (run_to_extend buf 0 (vec_size block) ltac:(lia) ltac:(lia)
             ltac:(lia) (vec_size buf) ol op ltac:(lia) ltac:(lia) Hm
             ltac:(lia) ltac:(lia)).
    + rewrite Sl. exact R.
    + apply initial_cursors_ok; lia.
  - rewrite decoder_body_machine in Hx |- *. cbn [fst snd].
    destruct (machine block 0 (vec_size block) ol op (fst s))
      as [[c' bs']|[| | |c']|] eqn:M; try discriminate.
    + rewrite (machine_extend buf 0 (vec_size block) ltac:(lia) ltac:(lia)
                 ltac:(lia) (vec_size buf) ol op ltac:(lia) ltac:(lia) Hm
                 ltac:(lia) ltac:(lia) (fst s) (Exit FlagsEnd) Hok);
        [| rewrite Sl; exact M | discriminate].
      cbn in Hx |- *. rewrite Eo in Hx. exact Hx.
    + rewrite (machine_extend buf 0 (vec_size block) ltac:(lia) ltac:(lia)
                 ltac:(lia) (vec_size buf) ol op ltac:(lia) ltac:(lia) Hm
                 ltac:(lia) ltac:(lia) (fst s) (Exit (Terminator c')) Hok);
        [| rewrite Sl; exact M | discriminate].
      cbn in Hx |- *. rewrite Eo in Hx. exact Hx.
Qed.

Lemma decoder_ignores_trailing_bytes_witness :
  decompressLZSSBlock (sample_block ++ bytes [1; 2; 3])
  = Finished (Returned (bytes [0xAB; 0xAB; 0xAB; 0xAB]) false).
Proof.
  apply (decoder_ignores_trailing_bytes sample_block (bytes [1; 2; 3])).
  - vm_compute. discriminate.
  - vm_compute. reflexivity.
Defined.

(** The counter of the validator stays far below [2^64]. *)
Lemma validator_count_small buf start ol op s :
  vec_size buf <= max_size -> 0 <= start <= vec_size buf ->
  8 <= ol <= vec_size buf - start -> ol <= op <= vec_size buf - start ->
  ol < 2 ^ 32 ->
  steps (validator_body buf start (vec_size buf - start) ol op)
    (initial_cursors ol op, 0) s ->
  0 <= snd s <= 17 * 2 ^ 35.
Proof.
  intros Hm Hs Hl Hp Hw St.
  destruct (validator_steps_inv buf start ol op Hm Hs Hl Hp Hw s St)
    as (_ & H0 & H1).
  lia.
Qed.

(** X2: whether the validator accepts a block, and with which sizes, depends
    on the bytes of the block alone: it accepts at [start] with sizes
    [(c, d)] exactly when the [c] bytes from [start] lie in the buffer and,
    taken alone, are accepted at offset 0 with the same sizes. *)
Theorem validator_position_independent buf start c d :
  vec_size buf <= max_size ->
  (validateAndGetConsumedSize buf start = Finished (DVR true c d) <->
   0 <= start /\ 0 <= c /\ start + c <= vec_size buf /\
   validateAndGetConsumedSize (slice buf start (start + c)) 0
   = Finished (DVR true c d)).
Proof.
  intros Hm. unfold max_size in Hm. split.
  - intros V.
    destruct (validator_accepted buf start c d Hm V)
      as (H0 & H12 & ol & op & E0 & E4 & Hol & Hop & Hw & ct & bs & ct' & R
          & St & M & Hok & Ec & Ec' & Ed & Hc).
    assert (Hp : op <= pair_pos ct) by (destruct Hok; lia).
    pose proof (load32_range _ _ _ E4) as R4.
    pose proof (validator_count_small buf start ol op (ct, d) Hm ltac:(lia)
                  ltac:(lia) ltac:(lia) Hw St) as Hd.
    cbn [snd] in Hd.
    split; [lia|]. split; [lia|]. split; [lia|].
    set (block := slice buf start (start + c)).
    assert (Sz : vec_size block = c) by (apply vec_size_slice; lia).
    assert (Sz' : vec_size block - 0 = c) by lia.
    assert (L0 : load32 block 0 = Some ol).
    { unfold block. rewrite load32_slice by lia. now rewrite Z.add_0_r. }
    assert (L4 : load32 block (0 + 4) = Some op).
    { unfold block. rewrite load32_slice by lia. exact E4. }
    assert (Sane : header_sane ol op (vec_size block - 0) = true)
      by (apply header_sane_iff; lia).
    rewrite (validator_loop_result block 0 ol op ltac:(unfold max_size; lia)
               ltac:(lia) ltac:(lia) L0 L4 Sane).
    rewrite (validator_loop_exit block 0 ol op ltac:(unfold max_size; lia)
               ltac:(lia) ltac:(lia) ltac:(lia) Hw (ct, d)
               (Some (DVR true c d))); [reflexivity| |].
    + assert (Rn : run_to (machine block 0 (vec_size block - 0) ol op)
                     (initial_cursors ol op) bs ct).
      { rewrite Sz'.
        apply (run_to_slice buf start c H0 ltac:(lia) ltac:(lia)
                 (vec_size buf - start) ol op Hc ltac:(lia) Hm ltac:(lia)
                 ltac:(lia)); try assumption.
        - apply initial_cursors_ok; lia.
        - lia. }
      pose proof (run_validator_steps _ _ _ _ _ _ _ _ Rn 0) as Rs.
      rewrite (bump_small (length bs) 0) in Rs by lia.
      rewrite Z.add_0_l, <- Ed in Rs. exact Rs.
    + rewrite validator_body_machine. cbn [fst snd]. rewrite Sz'.
      unfold block.
      rewrite (machine_slice buf start c H0 ltac:(lia) ltac:(lia)
                 (vec_size buf - start) ol op Hc ltac:(lia) Hm ltac:(lia)
                 ltac:(lia) ct _ Hok M); [| simpl; lia | lia].
      cbn. now rewrite Ec'.
  - intros (H0 & Hc0 & Hin & V).
    set (block := slice buf start (start + c)) in *.
    assert (Sz : vec_size block = c) by (apply vec_size_slice; lia).
    destruct (validator_accepted block 0 c d ltac:(unfold max_size; lia) V)
      as (_ & H12 & ol & op & E0 & E4 & Hol & Hop & Hw & ct & bs & ct' & R
          & St & M & Hok & Ec & Ec' & Ed & _).
    rewrite Sz, Z.sub_0_r in *.
    assert (Hp : op <= pair_pos ct) by (destruct Hok; lia).
    pose proof (load32_range _ _ _ E4) as R4.
    pose proof (validator_count_small block 0 ol op (ct, d)
                  ltac:(unfold max_size; lia) ltac:(lia)
                  ltac:(rewrite Sz; lia) ltac:(rewrite Sz; lia) Hw) as Hd.
    rewrite Sz, Z.sub_0_r in Hd. specialize (Hd St). cbn [snd] in Hd.
    assert (L0 : load32 buf start = Some ol).
    { rewrite <- E0. unfold block. rewrite load32_slice by lia.
      now rewrite Z.add_0_r. }
    assert (L4 : load32 buf (start + 4) = Some op).
    { rewrite <- E4. unfold block. rewrite load32_slice by lia.
      reflexivity. }
    assert (Sane : header_sane ol op (vec_size buf - start) = true)
      by (apply header_sane_iff; lia).
    rewrite (validator_loop_result buf start ol op Hm H0 ltac:(lia) L0 L4
               Sane).
    assert (Hok' : cursors_ok c ol op ct) by exact Hok.
    rewrite (validator_loop_exit buf start ol op Hm ltac:(lia) ltac:(lia)
               ltac:(lia) Hw (ct, d) (Some (DVR true c d)));
      [reflexivity| |].
    + assert (Rn : run_to (machine buf start (vec_size buf - start) ol op)
                     (initial_cursors ol op) bs ct).
      { apply (run_to_extend buf start c H0 Hc0 Hin (vec_size buf - start)
                 ol op ltac:(lia) ltac:(lia) Hm ltac:(lia) ltac:(lia)).
        - exact R.
        - apply initial_cursors_ok; lia. }
      pose proof (run_validator_steps _ _ _ _ _ _ _ _ Rn 0) as Rs.
      rewrite (bump_small (length bs) 0) in Rs by lia.
      rewrite Z.add_0_l, <- Ed in Rs. exact Rs.
    + rewrite validator_body_machine. cbn [fst snd].
      rewrite (machine_extend buf start c H0 Hc0 Hin (vec_size buf - start)
                 ol op ltac:(lia) ltac:(lia) Hm ltac:(lia) ltac:(lia)
                 ct (Exit (Terminator ct')) Hok' M); [|discriminate].
      cbn. now rewrite Ec'.
Qed.

Lemma validator_position_independent_witness :
  validateAndGetConsumedSize (slice two_blocks 20 (20 + 14)) 0
  = Finished (DVR true 14 0).
Proof.
  destruct (validator_position_independent two_blocks 20 14 0) as (T & _).
  - vm_compute. discriminate.
  - apply T. vm_compute. reflexivity.
Defined.

Lemma firstn_plus {A} (n m : nat) (l : list A) :
  firstn (n + m) l = firstn n l ++ firstn m (skipn n l).
Proof.
  revert l. induction n as [|n IH]; intros [|x l]; simpl; auto.
  - now rewrite firstn_nil.
  - now rewrite IH.
Qed.

Lemma slice_split v a b c :
  0 <= a <= b -> b <= c ->
  slice v a c = slice v a b ++ slice v b c.
Proof.
  intros H1 H2. unfold slice.
  replace (Z.to_nat (c - a)) with (Z.to_nat (b - a) + Z.to_nat (c - b))%nat
    by lia.
  rewrite firstn_plus, skipn_skipn.
  now replace (Z.to_nat (b - a) + Z.to_nat a)%nat with (Z.to_nat b) by lia.
Qed.

Lemma slice_all v : slice v 0 (vec_size v) = v.
Proof.
  unfold slice, vec_size. cbn [Z.to_nat skipn].
  replace (Z.to_nat (Z.of_nat (length v) - 0)) with (length v) by lia.
  apply firstn_all.
Qed.

Lemma vec_size_slice_le v a b : vec_size (slice v a b) <= vec_size v.
Proof.
  unfold slice, vec_size. rewrite length_firstn, length_skipn. lia.
Qed.

(** X3: the decoder need not be handed the exact consumed size: on an
    accepted block followed by any further bytes of the buffer it returns,
    without the warning, the number of bytes the validator counted. *)
Theorem accepted_block_decodes_to_any_end buf start c d last :
  vec_size buf <= max_size ->
  validateAndGetConsumedSize buf start = Finished (DVR true c d) ->
  start + c <= last ->
  exists out,
    decompressLZSSBlock (slice buf start last) = Finished (Returned out false)
    /\ Z.of_nat (length out) = d.
Proof.
  intros Hm V Hl.
  destruct (accepted_inside buf start c d Hm V) as (H0 & Hin & H14).
  destruct (validator_decoder_agree buf start c d Hm V) as (out & D & L).
  exists out. split; [|exact L].
  rewrite (slice_split buf start (start + c) last) by lia.
  apply decoder_ignores_trailing_bytes; [|exact D].
  rewrite <- (slice_split buf start (start + c) last) by lia.
  pose proof (vec_size_slice_le buf start last). lia.
Qed.

Lemma accepted_block_decodes_to_any_end_witness :
  exists out,
    decompressLZSSBlock (slice two_blocks 0 34) = Finished (Returned out false)
    /\ Z.of_nat (length out) = 4.
Proof.
  apply (accepted_block_decodes_to_any_end two_blocks 0 17 4 34).
  - vm_compute. discriminate.
  - vm_compute. reflexivity.
  - vm_compute. discriminate.
Defined.

(** X4: the validator is at least as strict as the decoder: a buffer on
    which the decoder throws, or returns after the warning of a flag stream
    cut short, is rejected by the validator at offset 0. *)
Theorem validator_rejects_what_decoder_refuses block :
  vec_size block <= max_size ->
  (exists e, decompressLZSSBlock block = Finished (Thrown e)) \/
  (exists out, decompressLZSSBlock block = Finished (Returned out true)) ->
  validateAndGetConsumedSize block 0 = Finished (DVR false 0 0).
Proof.
  intros Hm Bad.
  destruct (validator_in_range block 0 Hm ltac:(lia) ltac:(lia)) as (r & V).
  destruct r as [[|] c d].
  - exfalso.
    destruct (accepted_inside block 0 c d Hm V) as (_ & Hin & _).
    destruct (accepted_block_decodes_to_any_end block 0 c d (vec_size block)
                Hm V ltac:(lia)) as (out & D & _).
    rewrite slice_all in D.
    destruct Bad as [(e & B)|(out' & B)]; congruence.
  - rewrite V. f_equal. apply (validator_failure_zero block 0 _ V). reflexivity.
Qed.

Lemma validator_rejects_what_decoder_refuses_witness :
  validateAndGetConsumedSize flagless_block 0 = Finished (DVR false 0 0).
Proof.
  apply (validator_rejects_what_decoder_refuses flagless_block).
  - vm_compute. discriminate.
  - right. exists []. vm_compute. reflexivity.
Defined.

(** ** How much a block can expand *)

Section Yield.
Variables (buf : list byte) (base limit off_literals off_pairs : Z).
Hypothesis base_nonneg : 0 <= base.
Hypothesis limit_inside : base + limit <= vec_size buf.
Hypothesis buf_fits : vec_size buf <= max_size.
Hypothesis literals_range : 8 <= off_literals <= limit.
Hypothesis pairs_range : 0 <= off_pairs <= limit.

Let ok := cursors_ok limit off_literals off_pairs.
Let run := machine buf base limit off_literals off_pairs.

(** A literal pass takes one byte of the literal stream and yields one byte;
    a reference pass takes two bytes of the pair stream and yields at most
    17. *)
Lemma machine_yield c c' bs :
  ok c -> run c = Continue (c', bs) ->
  lit_pos c <= lit_pos c' /\
  2 * Z.of_nat (length bs)
  <= 2 * (lit_pos c' - lit_pos c) + 17 * (pair_pos c' - pair_pos c).
Proof.
  intros H E.
  pose proof (machine_pass buf base limit off_literals off_pairs base_nonneg
                limit_inside buf_fits literals_range pairs_range c H) as P.
  fold run in P. rewrite E in P. unfold max_size in *.
  remember (Continue (c', bs)) as r eqn:Er.
  destruct P as [ | | c1 b R B L Eb | | | c1 p R B L Ep Rp ];
    try discriminate.
  - injection Er as <- <-.
    destruct (flag_ready_ok buf base limit off_literals off_pairs base_nonneg
                limit_inside buf_fits literals_range pairs_range c c1 H R)
      as (_ & _ & El & Ep & _).
    destruct H as [Hf Hl Hp Hm Hs Hd Hi].
    cbn [dict_put next_literal shift_mask lit_pos pair_pos length].
    rewrite El, Ep. rewrite wrap64_small by lia. lia.
  - destruct (flag_ready_ok buf base limit off_literals off_pairs base_nonneg
                limit_inside buf_fits literals_range pairs_range c c1 H R)
      as (_ & _ & El & Ep' & _).
    destruct H as [Hf Hl Hp Hm Hs Hd Hi].
    pose proof (copy_bytes_frame (Z.to_nat (p mod 2 ^ 4 + 2)) 0 (p / 2 ^ 4)
                  (next_pair (shift_mask c1))) as Fr.
    assert (Er' : copy_bytes (Z.to_nat (p mod 2 ^ 4 + 2)) 0 (p / 2 ^ 4)
                    (next_pair (shift_mask c1)) = (c', bs)) by congruence.
    rewrite Er' in Fr. cbn [fst snd] in Fr.
    cbn [next_pair shift_mask flags_pos lit_pos pair_pos mask flag_word
         dict_buf dict_index] in Fr.
    destruct Fr as (_ & F2 & F3 & _ & _ & _ & _ & F8).
    pose proof (Z.mod_pos_bound p (2 ^ 4)).
    rewrite Ep' in F3. rewrite wrap64_small in F3 by lia. lia.
Qed.

Lemma run_yield c bs c' :
  run_to run c bs c' -> ok c ->
  lit_pos c <= lit_pos c' /\
  2 * Z.of_nat (length bs)
  <= 2 * (lit_pos c' - lit_pos c) + 17 * (pair_pos c' - pair_pos c).
Proof.
  induction 1 as [c|c c1 bs bs' c2 E _ IH]; intros H; [cbn [length]; lia|].
  destruct (machine_yield c c1 bs H E) as (L1 & Y1).
  destruct (machine_continue buf base limit off_literals off_pairs base_nonneg
              limit_inside buf_fits literals_range pairs_range c c1 bs H E)
    as (H1 & _).
  destruct (IH H1) as (L2 & Y2). rewrite length_app. lia.
Qed.
End Yield.

(** X5: an accepted block of [c] bytes decompresses to at most
    [8.5 * (c - 14)] bytes. *)
Theorem accepted_block_expansion buf start c d :
  vec_size buf <= max_size ->
  validateAndGetConsumedSize buf start = Finished (DVR true c d) ->
  0 <= d /\ 2 * d <= 17 * (c - 14).
Proof.
  intros Hm V.
  destruct (validator_accepted buf start c d Hm V)
    as (H0 & H12 & ol & op & E0 & E4 & Hol & Hop & Hw & ct & bs & ct' & R & _
        & M & Hok & Ec & Ec' & Ed & Hc).
  destruct (run_yield buf start (vec_size buf - start) ol op H0 ltac:(lia) Hm
              ltac:(lia) ltac:(lia) _ _ _ R
              (initial_cursors_ok (vec_size buf - start) ol op ltac:(lia)
                 ltac:(lia)))
    as (_ & Y).
  cbn [initial_cursors lit_pos pair_pos] in Y.
  assert (lit_pos ct <= op) by (destruct Hok; lia).
  lia.
Qed.

Lemma accepted_block_expansion_witness : 0 <= 4 /\ 2 * 4 <= 17 * (17 - 14).
Proof.
  apply (accepted_block_expansion sample_block 0 17 4).
  - vm_compute. discriminate.
  - vm_compute. reflexivity.
Defined.

(** X6: whenever the decoder returns, its output is at most 8.5 times as
    long as the block. *)
Theorem decoder_expansion block out warned :
  vec_size block <= max_size ->
  decompressLZSSBlock block = Finished (Returned out warned) ->
  2 * Z.of_nat (length out) <= 17 * vec_size block.
Proof.
  intros Hm D.
  destruct (Z.lt_ge_cases (vec_size block) 12) as [Small|Big];
    [rewrite (decoder_too_small block Small) in D; discriminate|].
  destruct (decoder_header block Big)
    as (ol & op & E0 & E4 & _ & _ & Rl & Rp & Db).
  rewrite Db in D.
  destruct ((ol >=? vec_size block) || (op >=? vec_size block) || (ol <? 8))
    eqn:Chk; [discriminate|].
  apply header_checks in Chk. destruct Chk as (Hl & Hp).
  apply while_finished in D. destruct D as (s & Hs & Hx).
  pose proof (decoder_steps_inv block ol op Hm Hl ltac:(lia) s Hs) as Hok.
  cbv beta in Hok.
  destruct (decoder_steps_run block ol op _ _ Hs) as (bs & R & Eo).
  cbn [fst snd app] in R, Eo.
  destruct (run_yield block 0 (vec_size block) ol op ltac:(lia) ltac:(lia) Hm
              ltac:(lia) ltac:(lia) _ _ _ R
              (initial_cursors_ok (vec_size block) ol op ltac:(lia)
                 ltac:(lia)))
    as (_ & Y).
  cbn [initial_cursors lit_pos pair_pos] in Y.
  assert (Out : out = snd s).
  { rewrite decoder_body_machine in Hx.
    destruct (machine block 0 (vec_size block) ol op (fst s))
      as [[c' bs']|[| | |c']|]; try discriminate; cbn in Hx; congruence. }
  destruct Hok as [Hf Hli Hpi _ _ _ _].
  rewrite Out, Eo. lia.
Qed.

Lemma decoder_expansion_witness :
  2 * Z.of_nat (length (bytes [0xAB; 0xAB; 0xAB; 0xAB]))
  <= 17 * vec_size sample_block.
Proof.
  apply (decoder_expansion sample_block _ false).
  - vm_compute. discriminate.
  - vm_compute. reflexivity.
Defined.

(** ** The order of the descriptors *)

(** X7: [operator<] is a strict weak ordering, as [std::sort] requires:
    irreflexive, transitive, with a transitive incomparability; two
    descriptors are incomparable exactly when they have the same offset and
    the same consumed size. *)
Theorem scan_result_lt_strict_weak_order :
  (forall a, ScanResult.lt a a = false) /\
  (forall a b c,
     ScanResult.lt a b = true -> ScanResult.lt b c = true ->
     ScanResult.lt a c = true) /\
  (forall a b,
     ScanResult.lt a b = false /\ ScanResult.lt b a = false <->
     ScanResult.offset a = ScanResult.offset b /\
     ScanResult.consumedSize a = ScanResult.consumedSize b) /\
  (forall a b c,
     ScanResult.lt a b = false -> ScanResult.lt b a = false ->
     ScanResult.lt b c = false -> ScanResult.lt c b = false ->
     ScanResult.lt a c = false /\ ScanResult.lt c a = false).
Proof.
  assert (U : forall a b,
            ScanResult.lt a b = true <->
            ScanResult.offset a < ScanResult.offset b \/
            (ScanResult.offset a = ScanResult.offset b /\
             ScanResult.consumedSize b < ScanResult.consumedSize a)).
  { intros a b. unfold ScanResult.lt.
    destruct (ScanResult.offset a =? ScanResult.offset b) eqn:E; cbn [negb].
    - apply Z.eqb_eq in E. rewrite Z.gtb_ltb, Z.ltb_lt. lia.
    - apply Z.eqb_neq in E. rewrite Z.ltb_lt. lia. }
  assert (N : forall a b,
            ScanResult.lt a b = false <->
            ~ (ScanResult.offset a < ScanResult.offset b \/
               (ScanResult.offset a = ScanResult.offset b /\
                ScanResult.consumedSize b < ScanResult.consumedSize a))).
  { intros a b. rewrite <- U. destruct (ScanResult.lt a b); split; intros;
      congruence. }
  split; [|split; [|split]].
  - intros a. apply N. lia.
  - intros a b c. rewrite !U. lia.
  - intros a b. rewrite !N. lia.
  - intros a b c. rewrite !N. lia.
Qed.




(** ** The candidates, exactly *)

Lemma accepted_mk buf o c d :
  accepted buf (ScanResult.mk o c d) <->
  validateAndGetConsumedSize buf o = Finished (DVR true c d).
Proof. reflexivity. Qed.

Lemma accepted_eq buf r o c d :
  accepted buf r -> ScanResult.offset r = o ->
  validateAndGetConsumedSize buf o = Finished (DVR true c d) ->
  r = ScanResult.mk o c d.
Proof.
  destruct r as [o' c' d']. unfold accepted. cbn. intros A -> V.
  congruence.
Qed.

Section CandidatesExact.
Variable buf : list byte.
Let n := vec_size buf.
Hypothesis buf_fits : n <= max_size.
Hypothesis buf_header : 12 <= n.

Let body := candidate_body buf.

(** One pass of the candidate loop: it leaves past [n - 12], and otherwise
    moves 4 bytes on, with a new candidate exactly when the validator accepts
    at [off]. *)
Lemma candidate_shape off results :
  0 <= off <= n - 8 ->
  (n - 12 < off /\ body (off, results) = Exit (Finished results)) \/
  (off <= n - 12 /\
   ((forall c d,
       validateAndGetConsumedSize buf off <> Finished (DVR true c d)) /\
    body (off, results) = Continue (off + 4, results)
    \/
    exists c d,
      validateAndGetConsumedSize buf off = Finished (DVR true c d) /\
      body (off, results)
      = Continue (off + 4, results ++ [ScanResult.mk off c d]))).
Proof.
  intros Ho. unfold body, candidate_body, max_size in *. fold n.
  rewrite (wrap64_small (n - 12)) by lia.
  destruct (off <=? n - 12) eqn:T; cbn [negb];
    [|apply Z.leb_gt in T; left; split; [lia | reflexivity]].
  apply Z.leb_le in T. right. split; [assumption|].
  destruct (load32_some buf (off + 0)) as (ol & E0 & _); [lia | fold n; lia |].
  destruct (load32_some buf (off + 4)) as (op & E4 & _); [lia | fold n; lia |].
  rewrite E0, E4, (wrap64_small (off + 4)), (wrap64_small (n - off)) by lia.
  destruct (validator_in_range buf off ltac:(unfold max_size; fold n; lia)
              ltac:(lia) ltac:(lia)) as (res & V).
  destruct ((8 <=? ol) && (ol <=? n - off) && (8 <=? op) && (op <=? n - off)
            && (op >=? ol)) eqn:Pl.
  - rewrite V. destruct res as [ok c d].
    cbn [DecompressValidationResult.success
         DecompressValidationResult.consumedBytes
         DecompressValidationResult.decompressedSize] in *.
    destruct ok; cbn [andb].
    + destruct (accepted_inside buf off c d
                  ltac:(unfold max_size; fold n; lia) V) as (_ & _ & H14).
      replace (c >? 0) with true
        by (symmetry; rewrite Z.gtb_ltb; apply Z.ltb_lt; lia).
      right. exists c, d. split; reflexivity.
    + left. split; [intros c' d'; discriminate | reflexivity].
  - left. split; [|reflexivity]. intros c d V'.
    destruct (validator_accepted buf off c d
                ltac:(unfold max_size; fold n; lia) V')
      as (_ & _ & ol' & op' & E0' & E4' & Hol & Hop & _).
    rewrite Z.add_0_r in E0.
    assert (ol' = ol) by congruence. assert (op' = op) by congruence.
    subst ol' op'. fold n in Hop.
    assert (Pl' : (8 <=? ol) && (ol <=? n - off) && (8 <=? op)
                  && (op <=? n - off) && (op >=? ol) = true).
    { rewrite !andb_true_iff, Z.geb_leb, !Z.leb_le. lia. }
    congruence.
Qed.

Let inv (s : Z * list ScanResult.t) :=
  0 <= fst s <= n - 8 /\ fst s mod 4 = 0 /\
  ForallOrdPairs before (snd s) /\
  forall r, In r (snd s) <->
            accepted buf r /\ ScanResult.offset r mod 4 = 0 /\
            0 <= ScanResult.offset r < fst s.
Let bound (s : Z * list ScanResult.t) := Z.to_nat ((n - fst s) / 4).

Lemma aligned_next off o :
  off mod 4 = 0 -> o mod 4 = 0 -> o < off + 4 -> o < off \/ o = off.
Proof.
  intros H1 H2 H3.
  pose proof (Z.div_mod off 4 ltac:(lia)).
  pose proof (Z.div_mod o 4 ltac:(lia)). lia.
Qed.

Lemma candidates_inv_kept s s' : inv s -> body s = Continue s' -> inv s'.
Proof.
  destruct s as [off results]. unfold inv. cbn [fst snd].
  intros (Ho & Ha & Fp & Ch) E.
  destruct (candidate_shape off results Ho)
    as [(_ & X)|(T & [(Rej & X)|(c & d & V & X)])];
    rewrite X in E; try discriminate; injection E as <-; cbn [fst snd].
  - split; [lia|]. split.
    { rewrite <- Z.add_mod_idemp_l, Ha by lia. reflexivity. }
    split; [assumption|]. intros r. rewrite Ch. split.
    + intros (A & M & R). repeat split; auto; lia.
    + intros (A & M & R). split; [assumption|]. split; [assumption|].
      destruct (aligned_next off _ Ha M ltac:(lia)) as [L|L]; [lia|].
      exfalso. destruct r as [o c d]. cbn in L. subst o.
      exact (Rej c d A).
  - split; [lia|]. split.
    { rewrite <- Z.add_mod_idemp_l, Ha by lia. reflexivity. }
    split.
    { apply pairs_snoc; [assumption|]. apply Forall_forall. intros a Ia.
      apply Ch in Ia. unfold before. cbn. lia. }
    intros r. rewrite in_app_iff, Ch. cbn [In]. split.
    + intros [(A & M & R)|[<-|[]]].
      * repeat split; auto; lia.
      * cbn. repeat split; auto; lia.
    + intros (A & M & R).
      destruct (aligned_next off _ Ha M ltac:(lia)) as [L|L].
      * left. repeat split; auto; lia.
      * right. left. symmetry. now apply (accepted_eq buf r off c d).
Qed.

Lemma candidates_bound_decreases s s' :
  inv s -> body s = Continue s' -> (bound s' < bound s)%nat.
Proof.
  destruct s as [off results]. unfold inv, bound. cbn [fst snd].
  intros (Ho & _) E.
  assert (fst s' = off + 4 /\ off <= n - 12) as (-> & T).
  { destruct (candidate_shape off results Ho)
      as [(_ & X)|(T & [(Rej & X)|(c & d & V & X)])];
      rewrite X in E; try discriminate; injection E as <-; split;
      auto. }
  replace (n - (off + 4)) with (n - off + (-1) * 4) by lia.
  rewrite Z.div_add by lia.
  assert (3 <= (n - off) / 4) by (apply Z.div_le_lower_bound; lia). lia.
Qed.

(** The candidate loop returns the accepted blocks at the offsets it visits,
    each once, in increasing order of offset. *)
Lemma candidates_exact :
  exists results,
    candidates buf = Finished (Finished results) /\
    ForallOrdPairs before results /\
    forall r, In r results <->
              accepted buf r /\ visited_offset n (ScanResult.offset r).
Proof.
  destruct (candidate_loop_finishes buf buf_fits buf_header)
    as (results & W & _ & _).
  exists results. split; [exact W|].
  assert (I0 : inv (0, [])).
  { unfold inv. cbn [fst snd]. split; [lia|]. split; [reflexivity|].
    split; [constructor|]. intros r. split; [intros []|]. lia. }
  apply while_finished in W. destruct W as (s & Hs & He).
  pose proof (steps_inv (candidate_body buf) inv candidates_inv_kept _ _ Hs I0)
    as (Ho & Ha & Fp & Ch).
  destruct s as [off res]. cbn [fst snd] in *.
  destruct (candidate_shape off res Ho)
    as [(T & X)|(T & [(Rej & X)|(c & d & V & X)])];
    unfold body in X; rewrite X in He; try discriminate.
  injection He as <-. split; [assumption|].
  intros r. rewrite Ch. unfold visited_offset. split.
  - intros (A & M & R). split; [assumption|]. split; [|assumption].
    destruct r as [o c d]. cbn in *.
    destruct (validator_accepted buf o c d buf_fits A) as (_ & H12 & _).
    fold n in H12. lia.
  - intros (A & R & M). repeat split; auto; lia.
Qed.
End CandidatesExact.



(** ** The deduplication *)

Lemma dedup_step_cases st r :
  dedup_step st r = st \/
  dedup_step st r = (fst st ++ [kept_range r], snd st ++ [r]).
Proof.
  destruct st as [kept final]. unfold dedup_step, kept_range. cbn [fst snd].
  destruct (negb _); auto.
Qed.

(** The deduplication loop keeps what it has kept. *)
Lemma dedup_fold_keeps rest : forall st,
  exists more,
    snd (fold_left dedup_step rest st) = snd st ++ more /\
    fst (fold_left dedup_step rest st) = fst st ++ map kept_range more /\
    incl more rest.
Proof.
  induction rest as [|r rest IH]; intros st; cbn [fold_left].
  - exists []. rewrite !app_nil_r. repeat split. apply incl_nil_l.
  - destruct (IH (dedup_step st r)) as (more & E1 & E2 & I).
    destruct (dedup_step_cases st r) as [X|X]; rewrite X in *; cbn [fst snd] in *.
    + exists more. repeat split; auto. now apply incl_tl.
    + exists (r :: more). rewrite E1, E2, <- !app_assoc. cbn [map app].
      repeat split. apply incl_cons; [now left | now apply incl_tl].
Qed.

(** Run again on what it has kept, the loop keeps all of it. *)
Lemma dedup_fold_again rest : forall final,
  fold_left dedup_step final ([], []) = (map kept_range final, final) ->
  let res := snd (fold_left dedup_step rest (map kept_range final, final)) in
  fold_left dedup_step res ([], []) = (map kept_range res, res).
Proof.
  induction rest as [|r rest IH]; intros final F; cbv zeta; cbn [fold_left];
    [exact F|].
  destruct (dedup_step_cases (map kept_range final, final) r) as [X|X];
    rewrite X; cbn [fst snd].
  - now apply IH.
  - replace (map kept_range final ++ [kept_range r])
      with (map kept_range (final ++ [r])) by (now rewrite map_app).
    apply IH. rewrite fold_left_app, F. cbn [fold_left].
    rewrite X. cbn [fst snd]. now rewrite map_app.
Qed.

(** X9: the deduplication is idempotent, on every list of descriptors: run on
    its own result, it keeps every descriptor; and its result begins with
    the first descriptor of the list. *)
Theorem deduplicate_idempotent results :
  deduplicate (deduplicate results) = deduplicate results /\
  (forall r rest, exists more, deduplicate (r :: rest) = r :: more).
Proof.
  split.
  - unfold deduplicate at 1.
    pose proof (dedup_fold_again results [] eq_refl) as A. cbv zeta in A.
    cbn [map] in A. fold (deduplicate results) in A. now rewrite A.
  - intros r rest. unfold deduplicate. cbn [fold_left].
    assert (X : dedup_step ([], []) r = ([kept_range r], [r])) by reflexivity.
    rewrite X.
    destruct (dedup_fold_keeps rest ([kept_range r], [r]))
      as (more & E & _).
    exists more. exact E.
Qed.

Section DeduplicateComplete.
Variable buf : list byte.
Hypothesis buf_fits : vec_size buf <= max_size.

(** What the loop drops lies over a block it has kept before. *)
Lemma dedup_fold_complete rest : forall final,
  Forall (accepted buf) final -> Forall (accepted buf) rest ->
  Forall (fun a => Forall (before a) rest) final ->
  ForallOrdPairs before rest ->
  let res := snd (fold_left dedup_step rest (map kept_range final, final)) in
  forall r, In r rest ->
    In r res \/
    exists a, In a res /\
      ScanResult.offset a < ScanResult.offset r
      < ScanResult.offset a + ScanResult.consumedSize a.
Proof.
  induction rest as [|r rest IH]; intros final Af Ar Bfr Br; cbv zeta;
    cbn [fold_left]; [intros r []|].
  inversion Ar as [|? ? Ar1 Ar2]; subst.
  inversion Br as [|? ? Br1 Br2]; subst.
  assert (Bfr' : Forall (fun a => Forall (before a) rest) final).
  { eapply Forall_impl; [|exact Bfr]. cbv beta. intros a Ha.
    now inversion Ha. }
  assert (Step : dedup_step (map kept_range final, final) r =
            if negb (overlaps_kept (ScanResult.offset r)
                       (ScanResult.offset r + ScanResult.consumedSize r)
                       (map kept_range final))
            then (map kept_range final ++ [kept_range r], final ++ [r])
            else (map kept_range final, final)).
  { unfold dedup_step. rewrite (kept_range_accepted buf buf_fits r Ar1).
    destruct (accepted_inside buf _ _ _ buf_fits Ar1) as (? & ? & ?).
    unfold max_size in *. now rewrite wrap64_small by lia. }
  rewrite Step.
  destruct (overlaps_kept _ _ _) eqn:O; cbn [negb].
  - intros x [<-|Ix]; [|now apply IH].
    right. unfold overlaps_kept in O. apply existsb_exists in O.
    destruct O as (k & Ik & Ok). apply in_map_iff in Ik.
    destruct Ik as (a & <- & Ia).
    rewrite Forall_forall in Af, Bfr.
    rewrite (kept_range_accepted buf buf_fits a (Af a Ia)) in Ok.
    cbn [fst snd] in Ok.
    apply negb_true_iff, orb_false_iff in Ok.
    rewrite Z.leb_gt, Z.geb_leb, Z.leb_gt in Ok.
    specialize (Bfr a Ia). inversion Bfr as [|? ? Bar _]; subst.
    unfold before in Bar.
    exists a. split; [|lia].
    destruct (dedup_fold_keeps rest (map kept_range final, final))
      as (more & E & _).
    rewrite E. cbn [snd]. apply in_or_app. now left.
  - replace (map kept_range final ++ [kept_range r])
      with (map kept_range (final ++ [r])) by (now rewrite map_app).
    intros x [<-|Ix].
    + left.
      destruct (dedup_fold_keeps rest (map kept_range (final ++ [r]),
                                       final ++ [r])) as (more & E & _).
      rewrite E. cbn [snd]. apply in_or_app. left. apply in_or_app.
      right. now left.
    + apply IH; auto.
      * apply Forall_app. split; [assumption | repeat constructor; assumption].
      * apply Forall_app. split; [assumption | repeat constructor; assumption].
Qed.
End DeduplicateComplete.

(** X10: on a buffer of at least 12 bytes the scanner returns blocks the
    validator accepts at offsets the candidate loop visits (multiples of 4
    up to [n - 12]), and it loses no such block except under an earlier
    block of its result: an accepted block at a visited offset is in the
    result, or starts inside a block of the result. *)
Theorem scan_sound_and_complete buf :
  12 <= vec_size buf <= max_size ->
  exists res,
    scanContainer buf = Finished res /\
    (forall r, In r res ->
       accepted buf r /\ visited_offset (vec_size buf) (ScanResult.offset r))
    /\
    (forall o c d,
       visited_offset (vec_size buf) o ->
       validateAndGetConsumedSize buf o = Finished (DVR true c d) ->
       In (ScanResult.mk o c d) res \/
       exists a, In a res /\
         ScanResult.offset a < o
         < ScanResult.offset a + ScanResult.consumedSize a).
Proof.
  intros (H12 & Hm).
  destruct (candidates_exact buf Hm H12) as (results & W & B & Ch).
  unfold candidates in W. unfold scanContainer. rewrite W.
  rewrite (sort_increasing results B).
  exists (deduplicate results). split; [reflexivity|].
  assert (A : Forall (accepted buf) results).
  { apply Forall_forall. intros r Ir. now apply Ch in Ir. }
  split.
  - intros r Ir. apply Ch. unfold deduplicate in Ir.
    destruct (dedup_fold_keeps results ([], [])) as (more & E & _ & I).
    rewrite E in Ir. cbn [snd app] in Ir. now apply I.
  - intros o c d Vo V.
    assert (Ir : In (ScanResult.mk o c d) results)
      by (apply Ch; split; [exact V | exact Vo]).
    apply (dedup_fold_complete buf Hm results [] ltac:(constructor) A
             ltac:(constructor) B _ Ir).
Qed.

Lemma scan_sound_and_complete_witness :
  exists res,
    scanContainer two_blocks = Finished res /\
    In (ScanResult.mk 20 14 0) res.
Proof.
  destruct (scan_sound_and_complete two_blocks) as (res & S & _ & C).
  - vm_compute. split; discriminate.
  - exists res. split; [exact S|].
    destruct (C 20 14 0) as [I|(a & Ia & Lt)]; [| |exact I|].
    + vm_compute. repeat split; discriminate.
    + vm_compute. reflexivity.
    + exfalso.
      assert (E : scanContainer two_blocks
                  = Finished [ScanResult.mk 0 17 4; ScanResult.mk 20 14 0])
        by (vm_compute; reflexivity).
      rewrite E in S. injection S as <-.
      destruct Ia as [<-|[<-|[]]]; cbn in Lt; lia.
Defined.

(** X11: cut out of its buffer and scanned on its own, an accepted block is
    found again, alone, at offset 0 and with the same sizes. *)
Theorem scan_of_extracted_block buf start c d :
  vec_size buf <= max_size ->
  validateAndGetConsumedSize buf start = Finished (DVR true c d) ->
  scanContainer (slice buf start (start + c))
  = Finished [ScanResult.mk 0 c d].
Proof.
  intros Hm V.
  destruct (accepted_inside buf start c d Hm V) as (H0 & Hin & H14).
  apply (validator_position_independent buf start c d Hm) in V.
  destruct V as (_ & _ & _ & V).
  set (block := slice buf start (start + c)) in *.
  assert (Sz : vec_size block = c) by (apply vec_size_slice; lia).
  assert (Hb : vec_size block <= max_size) by lia.
  destruct (scan_sound_and_complete block ltac:(lia)) as (res & S & Snd & Cmp).
  rewrite S. f_equal.
  destruct (scan_result block res Hb S) as (_ & B & _).
  assert (All : forall r, In r res -> r = ScanResult.mk 0 c d).
  { assert (I0 : In (ScanResult.mk 0 c d) res).
    { destruct (Cmp 0 c d) as [I|(a & Ia & Lt)]; auto.
      - unfold visited_offset. rewrite Sz. split; [lia | reflexivity].
      - destruct (Snd a Ia) as (_ & (Ra & _) & _). lia. }
    destruct (scan_result block res Hb S) as (_ & _ & D).
    intros r Ir.
    destruct (In_nth_error _ _ Ir) as (i & Ei).
    destruct (In_nth_error _ _ I0) as (j & Ej).
    destruct (Nat.eq_dec i j) as [->|N]; [congruence|].
    exfalso.
    destruct (Snd r Ir) as (Ar & _).
    destruct (accepted_inside block _ _ _ Hb Ar) as (R0 & Rin & R14).
    rewrite Sz in Rin.
    assert (Dj : intervals_disjoint r (ScanResult.mk 0 c d)).
    { destruct (Nat.lt_total i j) as [L|[L|L]]; [|contradiction|].
      - apply (pairs_nth intervals_disjoint res D i j); assumption.
      - apply intervals_disjoint_sym.
        apply (pairs_nth intervals_disjoint res D j i); assumption. }
    apply (Dj (ScanResult.offset r)). cbn. lia. }
  destruct res as [|x [|y rest]].
  - destruct (Cmp 0 c d) as [[]|(a & [] & _)]; auto.
    unfold visited_offset. rewrite Sz. split; [lia | reflexivity].
  - f_equal. apply All. now left.
  - exfalso.
    pose proof (pairs_nth before _ B 0 1 x y ltac:(lia) eq_refl eq_refl)
      as Bxy.
    unfold before in Bxy.
    rewrite (All x), (All y) in Bxy by (cbn; auto). cbn in Bxy. lia.
Qed.

Lemma scan_of_extracted_block_witness :
  scanContainer (slice two_blocks 20 (20 + 14))
  = Finished [ScanResult.mk 0 14 0].
Proof.
  apply (scan_of_extracted_block two_blocks 20 14 0).
  - vm_compute. discriminate.
  - vm_compute. reflexivity.
Defined.

(** ** The names of the chunks *)

Lemma append_inv_head s a b : String.append s a = String.append s b -> a = b.
Proof.
  induction s as [|c s IH]; simpl; [auto|]. intros [= E]. auto.
Qed.

(** A text is cut in one way only at the first occurrence of [sep]. *)
Lemma split_at sep s1 : forall s2 r1 r2,
  has_char sep s1 = false -> has_char sep s2 = false ->
  String.append s1 (String.String sep r1)
  = String.append s2 (String.String sep r2) ->
  s1 = s2 /\ r1 = r2.
Proof.
  induction s1 as [|a s1 IH]; intros [|b s2] r1 r2 H1 H2 E; simpl in *.
  - injection E as E. auto.
  - injection E as E _. subst b. rewrite Ascii.eqb_refl in H2. discriminate.
  - injection E as E _. subst a. rewrite Ascii.eqb_refl in H1. discriminate.
  - injection E as Ea E. subst b.
    apply orb_false_iff in H1. apply orb_false_iff in H2.
    destruct (IH s2 r1 r2) as (-> & ->); tauto.
Qed.

Lemma hex_digits_only sep s :
  (forall d, HexadecimalString.uint_of_char sep (Some d) = None) ->
  parse_hex s <> None -> has_char sep s = false.
Proof.
  intros Hsep. unfold parse_hex.
  induction s as [|a s IH]; simpl; [reflexivity|].
  destruct (HexadecimalString.NilEmpty.uint_of_string s) as [d|];
    [|simpl; congruence].
  intros H. rewrite IH by (simpl; congruence). rewrite orb_false_r.
  destruct (Ascii.eqb a sep) eqn:E; [|reflexivity].
  apply Ascii.eqb_eq in E. subst a. rewrite Hsep in H. simpl in H.
  congruence.
Qed.

Lemma dec_digits_only sep s :
  (forall d, DecimalString.uint_of_char sep (Some d) = None) ->
  parse_dec s <> None -> has_char sep s = false.
Proof.
  intros Hsep. unfold parse_dec.
  induction s as [|a s IH]; simpl; [reflexivity|].
  destruct (DecimalString.NilEmpty.uint_of_string s) as [d|];
    [|simpl; congruence].
  intros H. rewrite IH by (simpl; congruence). rewrite orb_false_r.
  destruct (Ascii.eqb a sep) eqn:E; [|reflexivity].
  apply Ascii.eqb_eq in E. subst a. rewrite Hsep in H. simpl in H.
  congruence.
Qed.

Lemma parse_hex_string n : parse_hex (hex_string n) = Some (Z.to_N n).
Proof.
  unfold hex_string.
  rewrite <- (HexadecimalN.Unsigned.of_to (Z.to_N n)) at 2.
  generalize (N.to_hex_uint (Z.to_N n)). intros d. unfold parse_hex.
  destruct d; [reflexivity | ..];
    cbv beta iota delta [HexadecimalString.NilZero.string_of_uint];
    rewrite HexadecimalString.NilEmpty.usu; reflexivity.
Qed.

Lemma parse_dec_string n : parse_dec (dec_string n) = Some (Z.to_N n).
Proof.
  unfold dec_string.
  rewrite <- (DecimalN.Unsigned.of_to (Z.to_N n)) at 2.
  generalize (N.to_uint (Z.to_N n)). intros d. unfold parse_dec.
  destruct d; [reflexivity | ..];
    cbv beta iota delta [DecimalString.NilZero.string_of_uint];
    rewrite DecimalString.NilEmpty.usu; reflexivity.
Qed.

(** Padding with zeros does not change the number. *)
Lemma parse_hex_setw w s : parse_hex (setw w "0"%char s) = parse_hex s.
Proof.
  unfold setw, parse_hex. induction (w - String.length s)%nat as [|k IH];
    simpl; [reflexivity|].
  destruct (HexadecimalString.NilEmpty.uint_of_string
              (String.append (fill k "0"%char) s)) as [d|];
    destruct (HexadecimalString.NilEmpty.uint_of_string s) as [d'|];
    simpl in *; congruence.
Qed.

(** X12: the name of a chunk tells its offset and its size: two chunks have
    the same name only if they have the same offset and the same decompressed
    size. *)
Theorem chunk_name_injective o1 s1 o2 s2 :
  0 <= o1 -> 0 <= s1 -> 0 <= o2 -> 0 <= s2 ->
  chunk_name o1 s1 = chunk_name o2 s2 -> o1 = o2 /\ s1 = s2.
Proof.
  intros Ho1 Hs1 Ho2 Hs2 E. unfold chunk_name in E.
  apply append_inv_head in E.
  change "_dec_"%string with (String.String "_"%char "dec_"%string) in E.
  apply split_at in E.
  - destruct E as (Eh & E). injection E as E.
    change ".bin"%string with (String.String "."%char "bin"%string) in E.
    apply split_at in E.
    + destruct E as (Ed & _).
      apply (f_equal parse_hex) in Eh. rewrite !parse_hex_setw in Eh.
      rewrite !parse_hex_string in Eh.
      apply (f_equal parse_dec) in Ed. rewrite !parse_dec_string in Ed.
      injection Eh as Eh. injection Ed as Ed. lia.
    + apply dec_digits_only; [reflexivity|].
      rewrite parse_dec_string. discriminate.
    + apply dec_digits_only; [reflexivity|].
      rewrite parse_dec_string. discriminate.
  - apply hex_digits_only; [reflexivity|].
    rewrite parse_hex_setw, parse_hex_string. discriminate.
  - apply hex_digits_only; [reflexivity|].
    rewrite parse_hex_setw, parse_hex_string. discriminate.
Qed.

Lemma chunk_name_injective_witness : 20 = 20 /\ 0 = 0.
Proof.
  apply (chunk_name_injective 20 0 20 0); try lia. reflexivity.
Defined.

(** ** The extraction *)

Lemma extract_accepted inputData b :
  vec_size inputData <= max_size -> accepted inputData b ->
  exists e, extract_block inputData b = Finished e /\ extracted inputData b e.
Proof.
  intros Hm A.
  destruct (accepted_inside inputData _ _ _ Hm A) as (H0 & Hin & H14).
  destruct (validator_decoder_agree inputData _ _ _ Hm A) as (out & D & L).
  unfold extract_block, max_size in *.
  rewrite wrap64_small by lia.
  replace ((0 <=? ScanResult.offset b)
           && (ScanResult.offset b
               <=? ScanResult.offset b + ScanResult.consumedSize b)
           && (ScanResult.offset b + ScanResult.consumedSize b
               <=? vec_size inputData)) with true
    by (symmetry; rewrite !andb_true_iff, !Z.leb_le; lia).
  rewrite D. eexists. split; [reflexivity|].
  exists out. unfold vec_size. rewrite L, Z.eqb_refl.
  repeat split; assumption.
Qed.

Lemma extract_all_accepted inputData blocks :
  vec_size inputData <= max_size -> Forall (accepted inputData) blocks ->
  exists es,
    extract_blocks inputData blocks = Finished es /\
    Forall2 (extracted inputData) blocks es.
Proof.
  intros Hm. induction 1 as [|b blocks A _ IH]; cbn [extract_blocks].
  - exists []. split; [reflexivity | constructor].
  - destruct (extract_accepted inputData b Hm A) as (e & E & X).
    destruct IH as (es & Es & Xs). rewrite E, Es.
    exists (e :: es). split; [reflexivity | now constructor].
Qed.

Lemma extracted_names inputData blocks es :
  Forall2 (extracted inputData) blocks es ->
  map written_name es
  = map (fun b => Some (chunk_name (ScanResult.offset b)
                          (ScanResult.decompressedSize b))) blocks.
Proof.
  induction 1 as [|b e blocks es (data & -> & _) _ IH]; cbn [map];
    [reflexivity|].
  now rewrite IH.
Qed.

(** X13: on an input of at least 12 bytes, with its output directory
    created, [processContainerFile] returns [true] after extracting every
    block of the scan, in the order of the scan: no block fails to decode,
    no size mismatch is reported, each file holds as many bytes as the scan
    announced, and no two files have the same name. *)
Theorem extraction_succeeds inputData :
  12 <= vec_size inputData <= max_size ->
  exists blocks es,
    scanContainer inputData = Finished blocks /\
    processContainerFile true (Some inputData) = Finished (true, es) /\
    Forall2 (extracted inputData) blocks es /\
    NoDup (map written_name es).
Proof.
  intros (H12 & Hm).
  destruct (scan_finishes inputData (conj H12 Hm)) as (blocks & S & A & B & _).
  destruct (extract_all_accepted inputData blocks Hm A) as (es & E & X).
  exists blocks, es. split; [exact S|]. split; [|split; [exact X|]].
  - unfold processContainerFile. cbn [negb].
    destruct inputData as [|x inputData]; [cbn in H12; lia|].
    rewrite S. destruct blocks as [|b blocks].
    + cbn in E. injection E as <-. reflexivity.
    + now rewrite E.
  - rewrite (extracted_names inputData blocks es X).
    clear E X S. induction B as [|b blocks Fb _ IH]; cbn [map];
      constructor.
    + intros I. apply in_map_iff in I. destruct I as (b' & E0 & Ib).
      assert (E : chunk_name (ScanResult.offset b')
                    (ScanResult.decompressedSize b')
                  = chunk_name (ScanResult.offset b)
                      (ScanResult.decompressedSize b)) by congruence.
      clear E0.
      inversion A as [|? ? Ab Ar]; subst.
      rewrite Forall_forall in Fb, Ar.
      destruct (accepted_inside inputData _ _ _ Hm Ab) as (? & _ & _).
      destruct (accepted_inside inputData _ _ _ Hm (Ar b' Ib)) as (? & _ & _).
      destruct (accepted_block_expansion inputData _ _ _ Hm Ab) as (? & _).
      destruct (accepted_block_expansion inputData _ _ _ Hm (Ar b' Ib))
        as (? & _).
      apply chunk_name_injective in E; try lia.
      specialize (Fb b' Ib). unfold before in Fb. lia.
    + apply IH. now inversion A.
Qed.

Lemma extraction_succeeds_witness :
  exists blocks es,
    scanContainer two_blocks = Finished blocks /\
    processContainerFile true (Some two_blocks) = Finished (true, es) /\
    Forall2 (extracted two_blocks) blocks es /\
    NoDup (map written_name es).
Proof.
  apply (extraction_succeeds two_blocks).
  vm_compute. split; discriminate.
Defined.

(** X14: a file of 1 to 11 bytes gets past the test for an empty input and
    into the scan, where the header of a block is read outside the buffer:
    the only short input [processContainerFile] turns away is the empty
    file. *)
Theorem short_file_out_of_bounds inputData :
  0 < vec_size inputData < 12 ->
  processContainerFile true (Some inputData) = OutOfBounds /\
  processContainerFile true (Some []) = Finished (false, []).
Proof.
  intros (H0 & H12). split; [|reflexivity].
  unfold processContainerFile. cbn [negb].
  destruct inputData as [|x inputData]; [cbn in H0; lia|].
  now rewrite (scan_short_out_of_bounds (x :: inputData) H12).
Qed.

Lemma short_file_out_of_bounds_witness :
  processContainerFile true (Some (bytes [1; 2; 3])) = OutOfBounds /\
  processContainerFile true (Some []) = Finished (false, []).
Proof.
  apply (short_file_out_of_bounds (bytes [1; 2; 3])).
  vm_compute. split; reflexivity.
Defined.

(** ** The quotes around a dropped path *)

Lemma get_last inner c :
  String.get (String.length inner)
    (String.append inner (String.String c String.EmptyString)) = Some c.
Proof. induction inner as [|a inner IH]; simpl; auto. Qed.

Lemma substring_prefix inner rest :
  String.substring 0 (String.length inner) (String.append inner rest) = inner.
Proof.
  induction inner as [|a inner IH]; simpl.
  - now destruct rest.
  - now rewrite IH.
Qed.

Lemma length_quoted inner :
  String.length (quoted inner) = Datatypes.S (Datatypes.S (String.length inner)).
Proof.
  unfold quoted. simpl. f_equal.
  induction inner as [|a inner IH]; simpl; auto.
Qed.

Lemma front_quoted inner : front (quoted inner) = Some double_quote.
Proof. reflexivity. Qed.

Lemma back_quoted inner : back (quoted inner) = Some double_quote.
Proof.
  unfold back. rewrite length_quoted.
  replace (Datatypes.S (Datatypes.S (String.length inner)) - 1)%nat
    with (Datatypes.S (String.length inner)) by lia.
  unfold quoted. cbn [String.get]. apply get_last.
Qed.

Lemma substr_quoted inner :
  Z.of_nat (String.length inner) + 2 < 2 ^ 64 ->
  substr (quoted inner) 1 (wrap64 (Z.of_nat (String.length (quoted inner)) - 2))
  = Some inner.
Proof.
  intros Hl. unfold substr. rewrite length_quoted.
  replace (Z.of_nat (Datatypes.S (Datatypes.S (String.length inner))) - 2)
    with (Z.of_nat (String.length inner)) by lia.
  rewrite wrap64_small by lia.
  replace (1 >? Z.of_nat (Datatypes.S (Datatypes.S (String.length inner))))
    with false by (symmetry; rewrite Z.gtb_ltb; apply Z.ltb_ge; lia).
  replace (Z.to_nat
             (Z.min (Z.of_nat (String.length inner))
                (Z.of_nat (Datatypes.S (Datatypes.S (String.length inner)))
                 - 1)))
    with (String.length inner) by lia.
  change (Z.to_nat 1) with 1%nat. unfold quoted. cbn [String.substring].
  f_equal. apply substring_prefix.
Qed.

(** X15: a path between double quotes loses them and nothing else; the
    one-character path that is a double quote, for which [length() - 2]
    wraps around, becomes the empty path; and no path makes [substr]
    throw. *)
Theorem remove_quotes_quoted inner :
  Z.of_nat (String.length inner) + 2 < 2 ^ 64 ->
  remove_quotes (quoted inner) = Some inner /\
  remove_quotes (String.String double_quote String.EmptyString)
  = Some String.EmptyString /\
  forall filePath, remove_quotes filePath <> None.
Proof.
  intros Hl. split; [|split].
  - unfold remove_quotes.
    rewrite front_quoted, back_quoted, Ascii.eqb_refl, substr_quoted by lia.
    rewrite length_quoted. reflexivity.
  - vm_compute. reflexivity.
  - intros filePath. unfold remove_quotes.
    destruct (negb (String.length filePath =? 0)%nat) eqn:E;
      cbn [andb]; [|discriminate].
    destruct (_ && _); [|discriminate].
    unfold substr.
    replace (1 >? Z.of_nat (String.length filePath)) with false;
      [discriminate|].
    symmetry. rewrite Z.gtb_ltb. apply Z.ltb_ge.
    apply negb_true_iff, Nat.eqb_neq in E. lia.
Qed.

Lemma remove_quotes_quoted_witness :
  remove_quotes (quoted "a file.bin"%string) = Some "a file.bin"%string.
Proof.
  apply (remove_quotes_quoted "a file.bin"%string).
  vm_compute. reflexivity.
Defined.

(** ** The dictionary is the last 4096 bytes of the output *)

Lemma nth_vec_set v : forall i j (b d : byte),
  (i < length v)%nat ->
  nth j (vec_set v i b) d = if (j =? i)%nat then b else nth j v d.
Proof.
  induction v as [|x v IH]; intros [|i] [|j] b d H; simpl in *; try lia;
    try reflexivity.
  apply IH. lia.
Qed.

Lemma window_cells_apart i n :
  0 <= i < n -> n - i < 4096 -> (1 + i) mod 4096 <> (1 + n) mod 4096.
Proof.
  intros H1 H2 E.
  pose proof (Z.div_mod (1 + i) 4096 ltac:(lia)).
  pose proof (Z.div_mod (1 + n) 4096 ltac:(lia)). lia.
Qed.

Lemma window_put dict cursor out b :
  window dict cursor out -> length dict = 4096%nat ->
  window (fst (ring_put dict cursor b)) (snd (ring_put dict cursor b))
    (out ++ [b]).
Proof.
  intros (Ec & Hw & Hz) Hl. unfold ring_put. cbn [fst snd].
  pose proof (vec_size_nonneg out) as Hn.
  assert (En : vec_size (out ++ [b]) = vec_size out + 1)
    by (rewrite vec_size_app; reflexivity).
  assert (Hc : 0 <= cursor < 4096)
    by (rewrite Ec; apply Z.mod_pos_bound; lia).
  unfold window. rewrite En. split; [|split].
  - rewrite Ec, Z.add_mod_idemp_l by lia. f_equal. lia.
  - intros i Hi Hd.
    pose proof (Z.mod_pos_bound (1 + i) 4096 ltac:(lia)).
    rewrite nth_vec_set by lia.
    destruct (Z.eq_dec i (vec_size out)) as [->|Ni].
    + rewrite <- Ec, Nat.eqb_refl.
      unfold vec_size. rewrite Nat2Z.id, nth_middle. reflexivity.
    + replace (Z.to_nat ((1 + i) mod 4096) =? Z.to_nat cursor)%nat with false.
      * rewrite Hw by lia. rewrite app_nth1; [reflexivity|].
        unfold vec_size in *. lia.
      * symmetry. apply Nat.eqb_neq. intros E.
        apply (window_cells_apart i (vec_size out)); [lia | lia |].
        rewrite <- Ec. lia.
  - intros j Hj Hf. rewrite nth_vec_set by lia.
    replace (Z.to_nat j =? Z.to_nat cursor)%nat with false.
    + apply Hz; [assumption|]. intros i Hi. apply Hf. lia.
    + symmetry. apply Nat.eqb_neq. intros E.
      apply (Hf (vec_size out)); [lia|]. rewrite <- Ec. lia.
Qed.

Lemma window_copy k offset dict cursor out :
  window dict cursor out -> length dict = 4096%nat ->
  let '(dict', cursor', bs) := ring_copy k offset dict cursor in
  window dict' cursor' (out ++ bs) /\ length dict' = 4096%nat.
Proof.
  intros W Hl. induction k as [|k IH]; cbn [ring_copy].
  - rewrite app_nil_r. auto.
  - destruct (ring_copy k offset dict cursor) as [[dict_k cursor_k] bs].
    destruct IH as (Wk & Hk).
    pose proof (window_put dict_k cursor_k (out ++ bs)
                  (nth (Z.to_nat ((offset + Z.of_nat k) mod 4096)) dict_k x00)
                  Wk Hk) as P.
    unfold ring_put in *. cbn [fst snd] in P.
    rewrite <- app_assoc in P. split; [exact P|].
    now rewrite length_vec_set.
Qed.

Section Window.
Variables (buf : list byte) (base limit off_literals off_pairs : Z).
Hypothesis base_nonneg : 0 <= base.
Hypothesis limit_inside : base + limit <= vec_size buf.
Hypothesis buf_fits : vec_size buf <= max_size.
Hypothesis literals_range : 8 <= off_literals <= limit.
Hypothesis pairs_range : 0 <= off_pairs <= limit.

Let ok := cursors_ok limit off_literals off_pairs.
Let run := machine buf base limit off_literals off_pairs.

Lemma machine_window c c' bs out :
  ok c -> run c = Continue (c', bs) ->
  window (dict_buf c) (dict_index c) out ->
  window (dict_buf c') (dict_index c') (out ++ bs).
Proof.
  intros H E W.
  pose proof (machine_pass buf base limit off_literals off_pairs base_nonneg
                limit_inside buf_fits literals_range pairs_range c H) as P.
  fold run in P. rewrite E in P. unfold max_size in *.
  remember (Continue (c', bs)) as r eqn:Er.
  destruct P as [ | | c1 b R B L Eb | | | c1 p R B L Ep Rp ];
    try discriminate.
  - injection Er as <- <-.
    destruct (flag_ready_ok buf base limit off_literals off_pairs base_nonneg
                limit_inside buf_fits literals_range pairs_range c c1 H R)
      as (_ & _ & _ & _ & Ed & Ei & _).
    destruct H as [Hf Hl Hp Hm Hs Hd Hi].
    pose proof (window_put _ _ out b W Hd) as P. unfold ring_put in P.
    cbn [fst snd] in P.
    cbn [dict_put next_literal shift_mask dict_buf dict_index].
    rewrite Ed, Ei. change 0xFFF with (Z.ones 12).
    rewrite Z.land_ones, wrap64_small by lia. exact P.
  - destruct (flag_ready_ok buf base limit off_literals off_pairs base_nonneg
                limit_inside buf_fits literals_range pairs_range c c1 H R)
      as (_ & _ & _ & _ & Ed & Ei & _).
    destruct H as [Hf Hl Hp Hm Hs Hd Hi].
    assert (Er' : copy_bytes (Z.to_nat (p mod 2 ^ 4 + 2)) 0 (p / 2 ^ 4)
                    (next_pair (shift_mask c1)) = (c', bs)) by congruence.
    pose proof (copy_bytes_ring (Z.to_nat (p mod 2 ^ 4 + 2)) (p / 2 ^ 4)
                  (next_pair (shift_mask c1))) as Rg.
    rewrite Er' in Rg. cbn [fst snd] in Rg.
    cbn [dict_buf dict_index next_pair shift_mask] in Rg.
    rewrite Ed, Ei in Rg. specialize (Rg Hi).
    pose proof (window_copy (Z.to_nat (p mod 2 ^ 4 + 2)) (p / 2 ^ 4)
                  _ _ out W Hd) as P.
    rewrite <- Rg in P. apply P.
Qed.

Lemma run_window c bs c' out :
  run_to run c bs c' -> ok c ->
  window (dict_buf c) (dict_index c) out ->
  window (dict_buf c') (dict_index c') (out ++ bs).
Proof.
  intros R. revert out.
  induction R as [c|c c1 bs bs' c2 E _ IH]; intros out H W.
  - now rewrite app_nil_r.
  - destruct (machine_continue buf base limit off_literals off_pairs
                base_nonneg limit_inside buf_fits literals_range pairs_range
                c c1 bs H E) as (H1 & _).
    rewrite app_assoc. apply IH; [assumption|].
    now apply (machine_window c).
Qed.
End Window.

Lemma window_initial ol op :
  window (dict_buf (initial_cursors ol op)) (dict_index (initial_cursors ol op))
    [].
Proof.
  unfold window. cbn [initial_cursors dict_buf dict_index].
  change (vec_size []) with 0.
  split; [reflexivity|]. split; [intros i Hi; lia|].
  intros j Hj _. apply nth_repeat.
Qed.

(** X16: at every state of a decoder run the dictionary is a window on the
    output: the cursor is at [(1 + |out|) mod 4096], byte [i] of the output
    is at index [(1 + i) mod 4096] as long as it is among the last 4096
    bytes emitted, and the cells no output byte was written to are zero. *)
Theorem decoder_dictionary_is_window block s :
  vec_size block <= max_size -> 12 <= vec_size block ->
  let ol := header_word block 0 in
  let op := header_word block 4 in
  8 <= ol < vec_size block -> op < vec_size block ->
  steps (decoder_body block ol op) (initial_cursors ol op, []) s ->
  window (dict_buf (fst s)) (dict_index (fst s)) (snd s).
Proof.
  intros Hm Big ol op Hl Hp Hs.
  assert (Rp : 0 <= op).
  { destruct (decoder_header block Big)
      as (ol' & op' & _ & _ & _ & Ep & _ & Rp & _).
    fold op in Ep. subst op'. lia. }
  destruct (decoder_steps_run block ol op _ _ Hs) as (bs & R & Eo).
  cbn [fst snd app] in R, Eo. rewrite Eo.
  apply (run_window block 0 (vec_size block) ol op ltac:(lia) ltac:(lia) Hm
           ltac:(lia) ltac:(lia) _ bs (fst s) [] R).
  - apply initial_cursors_ok; lia.
  - apply window_initial.
Qed.

Lemma decoder_dictionary_is_window_witness :
  window (dict_buf (fst sample_after_copy))
    (dict_index (fst sample_after_copy)) (snd sample_after_copy).
Proof.
  apply (decoder_dictionary_is_window sample_block sample_after_copy).
  - vm_compute. discriminate.
  - vm_compute. discriminate.
  - vm_compute. split; [discriminate | reflexivity].
  - vm_compute. reflexivity.
  - apply (steps_next _ _ sample_after_literal);
      [vm_compute; reflexivity|].
    apply (steps_next _ _ sample_after_copy); [|apply steps_here].
    vm_compute. reflexivity.
Defined.
